(** * Trust-region bisection optimizer: a shallow embedding

    Source: [Optimization/MultidimensionalBisection/MultidimensionalBisection2.py].

    The program works on NumPy arrays of IEEE-754 binary64 numbers.  They are
    modelled by Rocq's primitive [float] (binary64, one NaN), so that
    [np.inf], NaN comparisons, rounding and overflow behave as they do in
    the program.  A NumPy array of shape [(k,)] is a [list float].

    The objective [f] and its gradient [df] (lines 76-81) are built from
    [np.cos] and [np.sin], which binary64 in Rocq does not provide; the
    development is parametric in them, and in NumPy's global random
    generator. *)

From Stdlib Require Import String.
From Stdlib Require Import List ZArith Lia Bool Floats Relations Permutation.
Import ListNotations.

Set Warnings "-inexact-float".
Local Open Scope float_scope.

(** ** Results of running Python code *)

Inductive exn : Type :=
| AssertionError
| UnboundLocalError
| IndexError
| ValueError.

(** [Timeout] is not a Python outcome: it marks a loop that used up the
    iteration budget ([fuel]) given to the model. *)
Inductive result (A : Type) : Type :=
| Ret (a : A)
| Raise (e : exn)
| Timeout.

Arguments Ret {A} a.
Arguments Raise {A} e.
Arguments Timeout {A}.

Definition rbind {A B} (r : result A) (k : A -> result B) : result B :=
  match r with
  | Ret a => k a
  | Raise e => Raise e
  | Timeout => Timeout
  end.

(** ** NumPy on one-dimensional float arrays *)

Definition vec := list float.

Module np.

Definition inf : float := infinity.

Definition ones (k : nat) : vec := repeat 1 k.

Fixpoint zip_with (op : float -> float -> float) (u v : vec) : vec :=
  match u, v with
  | a :: u', b :: v' => op a b :: zip_with op u' v'
  | _, _ => []
  end.

(** Element-wise arithmetic of two arrays of the same length, and of an
    array with a scalar. *)
Definition add (u v : vec) : vec := zip_with PrimFloat.add u v.
Definition sub (u v : vec) : vec := zip_with PrimFloat.sub u v.
Definition div (u v : vec) : vec := zip_with PrimFloat.div u v.
Definition scale (c : float) (v : vec) : vec := map (fun t => c * t) v.
Definition sub_scalar (v : vec) (c : float) : vec := map (fun t => t - c) v.
Definition div_scalar (v : vec) (c : float) : vec := map (fun t => t / c) v.
Definition square (v : vec) : vec := map (fun t => t * t) v.
Definition abs (v : vec) : vec := map PrimFloat.abs v.
Definition gt_scalar (v : vec) (c : float) : list bool := map (fun t => c <? t) v.

Definition all (bs : list bool) : bool := forallb (fun b => b) bs.

(** [np.sum] of a float64 array is NumPy's pairwise summation.  Fewer than
    eight entries are added one after the other, starting from [0.0].  Up
    to 128 entries are added into eight running sums, entry [i] into sum
    [i mod 8]; the eight sums are then added in pairs, and the entries
    after the last full group of eight are added one after the other.  A
    longer array is cut in two, the first part a multiple of eight long,
    and the sums of the parts are added.  The reduction starts from [0.0],
    to which the sum of the whole array is added.  (A NumPy that starts
    from [-0.0] instead differs in one case only: when every entry is
    [-0.0] the sum is [-0.0], not [0.0].) *)
Fixpoint add_groups (k : nat) (r a : vec) : vec * vec :=
  match k with
  | O => (r, a)
  | S k' => add_groups k' (zip_with PrimFloat.add r (firstn 8 a)) (skipn 8 a)
  end.

Definition add_in_pairs (r : vec) : float :=
  match r with
  | [r0; r1; r2; r3; r4; r5; r6; r7] =>
      ((r0 + r1) + (r2 + r3)) + ((r4 + r5) + (r6 + r7))
  | _ => 0
  end.

Definition sum_unrolled (a : vec) : float :=
  let (r, rest) := add_groups (length a / 8 - 1) (firstn 8 a) (skipn 8 a) in
  fold_left PrimFloat.add rest (add_in_pairs r).

Fixpoint pairwise_sum (depth : nat) (a : vec) : float :=
  let n := length a in
  if Nat.ltb n 8 then fold_left PrimFloat.add a 0
  else if Nat.leb n 128 then sum_unrolled a
  else match depth with
       | O => sum_unrolled a
       | S depth' =>
           let n2 := (n / 2 - (n / 2) mod 8)%nat in
           pairwise_sum depth' (firstn n2 a) + pairwise_sum depth' (skipn n2 a)
       end.

Definition sum (v : vec) : float := 0 + pairwise_sum (length v) v.

(** [np.maximum] on two scalars: a NaN on either side is the result. *)
Definition maximum (a b : float) : float :=
  if (b <=? a) || is_nan a then a else b.

(** [np.max]: a reduction with [np.maximum]; NaN propagates, and an
    empty array raises [ValueError]. *)
Definition max (v : vec) : result float :=
  match v with
  | [] => Raise ValueError
  | a :: v' => Ret (fold_left maximum v' a)
  end.

(** [np.argmin]: index of the first minimum; the first NaN, if there is
    one, counts as the minimum. *)
Fixpoint argmin_from (mp : float) (min_ind i : nat) (v : vec) : nat :=
  match v with
  | [] => min_ind
  | a :: v' =>
      if negb (mp <=? a)
      then (if is_nan a then i else argmin_from a i (S i) v')
      else argmin_from mp min_ind (S i) v'
  end.

Definition argmin (v : vec) : result nat :=
  match v with
  | [] => Raise ValueError
  | a :: v' => Ret (if is_nan a then 0%nat else argmin_from a 0 1 v')
  end.

End np.

(** [sums_to v r]: [r] is what adding the entries of [v] gives, in some
    order and with some bracketing, an addition to [0.0] allowed anywhere. *)
Inductive sums_to : vec -> float -> Prop :=
| sums_nil : sums_to [] 0
| sums_one a : sums_to [a] a
| sums_add u v r s : sums_to u r -> sums_to v s -> sums_to (u ++ v) (r + s)
| sums_perm u v r : Permutation u v -> sums_to u r -> sums_to v r.

(** Indexing, [v[i]] and [v[i] = a]; out of range raises [IndexError]. *)
Definition getitem {A} (v : list A) (i : nat) : result A :=
  match nth_error v i with
  | Some a => Ret a
  | None => Raise IndexError
  end.

Fixpoint setitem {A} (v : list A) (i : nat) (a : A) : result (list A) :=
  match v, i with
  | [], _ => Raise IndexError
  | _ :: v', O => Ret (a :: v')
  | b :: v', S i' =>
      match setitem v' i' a with
      | Ret w => Ret (b :: w)
      | Raise e => Raise e
      | Timeout => Timeout
      end
  end.

(** [for i in range(k): state = step i state]. *)
Fixpoint for_range_from {S} (start k : nat) (step : nat -> S -> result S) (s : S)
  : result S :=
  match k with
  | O => Ret s
  | Datatypes.S k' =>
      rbind (step start s) (for_range_from (Datatypes.S start) k' step)
  end.

Definition for_range {S} (k : nat) (step : nat -> S -> result S) (s : S) : result S :=
  for_range_from 0 k step s.

(** What both loops of lines 121-132 do at index [i], given the outcome
    [c i] of their test. *)
Definition pointwise (c : nat -> bool) (x : vec) (i : nat) (box : vec * vec)
  : result (vec * vec) :=
  rbind (getitem x i) (fun xi =>
    if c i
    then rbind (setitem (fst box) i xi) (fun hi => Ret (hi, snd box))
    else rbind (setitem (snd box) i xi) (fun lo => Ret (fst box, lo))).

(** ** [d], line 83 (only the default [norm=2] is ever used) *)

Definition d (u v : vec) : float :=
  sqrt (np.sum (np.square (np.sub u v))).

(** ** The variables of [MultiDimensionalBisection]

    [Outer.t] holds the local variables that are live at the head of the
    outer [while] (line 103); [Inner.t] those live at the head of the inner
    [while] (line 111).  [fx] and [x_best] are first assigned inside the
    inner loop and keep their value from one outer iteration to the next:
    [None] stands for "not yet bound". *)

Module Outer.
Record t : Type := mk {
  n : nat;
  m : nat;
  x : vec;
  x_prev : vec;
  trust_range : float;
  fx : option float;
  x_best : option vec
}.
End Outer.

Module Inner.
Record t : Type := mk {
  n : nat;
  m : nat;
  x : vec;
  x_prev : vec;
  x_high : vec;
  x_low : vec;
  y : vec;
  fy : float;
  fx_best : float;
  fx : option float;
  x_best : option vec
}.
End Inner.

(** The module-level variables of the restart loop, lines 155-164. *)
Module Driver.
Record t : Type := mk {
  x_best : vec;
  i : nat;
  x : vec
}.
End Driver.

(** What a run does that can be seen from outside: the assertion of line
    113 with its outcome, the evaluations of [f] and [df] with the source
    line of the call, and the [print] of line 164. *)
Inductive event : Type :=
| Assert (ok : bool)
| Eval_f (line : nat) (at_ : vec)
| Eval_df (line : nat) (at_ : vec)
| Print (i : nat).

(** ** The value of a binary64 number *)

Section Binary64.
Local Open Scope Z_scope.

(** In units of [2^-1075], half the smallest positive number: a finite
    number is an integer, so is half of it, and the infinities sit at
    [+-BIG], just beyond the largest finite number. *)
Definition grid (e : Z) : Z := 2 ^ (e + 1075).

Definition BIG : Z := 2 ^ 2099.

Definition ord (a : spec_float) : Z :=
  match a with
  | S754_zero _ => 0
  | S754_infinity s => if s then - BIG else BIG
  | S754_nan => 0
  | S754_finite s m e => if s then - (Zpos m * grid e) else Zpos m * grid e
  end.

(** Not NaN and not an infinity. *)
Definition finite_or_zero (a : spec_float) : bool :=
  match a with
  | S754_zero _ | S754_finite _ _ _ => true
  | _ => false
  end.

(** [2.0] *)
Definition two : spec_float := S754_finite false 4503599627370496 (-51).

(** [brackets r T]: [r] is a number, at least every number that is at
    most [T], and at most every number that is at least [T]. *)
Definition brackets (r : spec_float) (T : Z) : Prop :=
  r <> S754_nan /\
  forall a, valid_binary a = true ->
    (ord a <= T -> ord a <= ord r) /\ (T <= ord a -> ord r <= ord a).

(** The two flags of a shifted mantissa are off: nothing was shifted out. *)
Definition no_remainder (mrs : shr_record) : Prop := shr_r mrs = false /\ shr_s mrs = false.

(** [mrs] stands for a number [T] seen on a grid of step [G]: the mantissa
    is the grid point at or below [T], and if [T] is on the grid the two
    flags are off. *)
Definition stands_for (mrs : shr_record) (G T : Z) : Prop :=
  0 <= shr_m mrs /\
  shr_m mrs * G <= T < (shr_m mrs + 1) * G /\
  (T = shr_m mrs * G -> no_remainder mrs).

End Binary64.

(** ** [d], lines 83-89, with its [norm] argument *)

(** The values [norm] is compared with: an integer or a string. *)
Inductive norm_arg : Type :=
| Norm_int (k : Z)
| Norm_str (s : string).

(** [x - y] as NumPy broadcasts two one-dimensional arrays: entry by entry
    when they have the same length, one entry against all when one of them
    has length one; any other pair of lengths raises [ValueError]. *)
Definition broadcast_sub (x y : vec) : result vec :=
  if Nat.eqb (length x) (length y) then Ret (np.sub x y)
  else match x, y with
       | [a], _ => Ret (map (fun t => a - t) y)
       | _, [b] => Ret (map (fun t => t - b) x)
       | _, _ => Raise ValueError
       end.

(** The pairs of lengths that [broadcast_sub] accepts. *)
Definition broadcastable (x y : vec) : bool :=
  Nat.eqb (length x) (length y) || Nat.eqb (length x) 1 || Nat.eqb (length y) 1.

(** [d(x, y, norm)].  With a [norm] that is none of [2], [1] and ['inf']
    the function falls off its end and returns [None], without having
    looked at [x] and [y]. *)
Definition d_norm (x y : vec) (norm : norm_arg) : result (option float) :=
  match norm with
  | Norm_int 2 =>
      rbind (broadcast_sub x y) (fun v => Ret (Some (sqrt (np.sum (np.square v)))))
  | Norm_int 1 =>
      rbind (broadcast_sub x y) (fun v => Ret (Some (np.sum (np.abs v))))
  | Norm_str s =>
      if String.eqb s "inf"
      then rbind (broadcast_sub x y) (fun v =>
           rbind (np.max (np.abs v)) (fun m => Ret (Some m)))
      else Ret None
  | Norm_int _ => Ret None
  end.

(** ** [f] and [df], lines 76-81 *)

(** [np.cos], [np.sin] and the sum of products inside [np.dot] are not
    fixed by binary64 arithmetic (they are the platform's [libm] and BLAS):
    they are parameters here, and so are the constants [v1] and [v2].
    What is modelled is how [f] and [df] put them together, and the
    [ValueError] of [np.dot] on two arrays of different lengths. *)
Module Objective.
Section Parts.

Variables np_cos np_sin : float -> float.
Variable sum_of_products : vec -> vec -> float.
Variables v1 v2 : vec.

Definition np_dot (u v : vec) : result float :=
  if Nat.eqb (length u) (length v) then Ret (sum_of_products u v) else Raise ValueError.

Definition f (x : vec) : result float :=
  rbind (np_dot v1 x) (fun a =>
  rbind (np_dot v2 x) (fun b =>
  Ret (np.sum (np.square x) - np_cos a - np_cos b + 2))).

Definition df (x : vec) : result vec :=
  rbind (np_dot v1 x) (fun a =>
  rbind (np_dot v2 x) (fun b =>
  Ret (np.add (np.add (np.scale 2 x) (np.scale (np_sin a) v1)) (np.scale (np_sin b) v2)))).

End Parts.
End Objective.

(** ** Objectives and a generator for the examples *)

(** [f(x) = sum(x**2)] with gradient [2*x]. *)
Definition paraboloid (v : vec) : float := np.sum (np.square v).
Definition paraboloid_grad (v : vec) : vec := np.scale 2 v.

(** [f(x) = sum(x)] with gradient [ones]. *)
Definition slope (v : vec) : float := np.sum v.
Definition slope_grad (v : vec) : vec := np.ones (length v).

(** [f(x) = sum(sqrt(1 - x))], which is NaN as soon as a coordinate exceeds
    one, with gradient [-0.5/sqrt(1 - x)]. *)
Definition root (v : vec) : float := np.sum (map (fun t => sqrt (1 - t)) v).
Definition root_grad (v : vec) : vec := map (fun t => -0.5 / sqrt (1 - t)) v.

(** An objective that is [+inf] everywhere. *)
Definition barrier (v : vec) : float := np.inf.
Definition barrier_grad (v : vec) : vec := map (fun _ => 0) v.

(** A generator that hands out the numbers of a tape, in order (and zeros
    once the tape is used up): [randn] as they are, [uniform(low, high)] as
    [low + (high - low) * u]. *)
Definition Tape : Type := list float.

Definition take (k : nat) (g : Tape) : vec * Tape :=
  (map (fun j => nth j g 0) (seq 0 k), skipn k g).

Definition tape_randn (k : nat) (g : Tape) : vec * Tape := take k g.

Definition tape_uniform (lo hi : float) (k : nat) (g : Tape) : vec * Tape :=
  (map (fun u => lo + (hi - lo) * u) (fst (take k g)), snd (take k g)).

Section Program.

(** The objective and its gradient, lines 76-81. *)
Variable f : vec -> float.
Variable df : vec -> vec.

(** [v1], line 40; only [len(v1)] matters to the driver. *)
Variable v1 : vec.

(** NumPy's global generator: its state, [np.random.uniform(low, high, size)]
    and [np.random.randn(size)]. *)
Variable RandomState : Type.
Variable uniform : float -> float -> nat -> RandomState -> vec * RandomState.
Variable randn : nat -> RandomState -> vec * RandomState.

(** The world outside the local variables: the global generator, and the
    events so far, latest first. *)
Record World : Type := mkWorld {
  rng : RandomState;
  log : list event
}.

Definition M (A : Type) : Type := World -> result A * World.

Definition ret {A} (a : A) : M A := fun w => (Ret a, w).

Definition bind {A B} (c : M A) (k : A -> M B) : M B :=
  fun w =>
    match c w with
    | (Ret a, w') => k a w'
    | (Raise e, w') => (Raise e, w')
    | (Timeout, w') => (Timeout, w')
    end.

Definition lift {A} (r : result A) : M A := fun w => (r, w).

Definition emit (ev : event) : M unit :=
  fun w => (Ret tt, mkWorld (rng w) (ev :: log w)).

Definition raise {A} (e : exn) : M A := lift (Raise e).

Notation "v <- c ;; k" := (bind c (fun v => k))
  (at level 61, c at next level, right associativity).
Notation "c ;; k" := (bind c (fun _ => k))
  (at level 61, right associativity).

(** [assert b], a call [f(v)] or [df(v)] on source line [line], a draw
    from the global generator, and the read of a local variable that may
    be unbound. *)
Definition assert_ (b : bool) : M unit :=
  emit (Assert b) ;; if b then ret tt else raise AssertionError.

Definition call_f (line : nat) (v : vec) : M float :=
  emit (Eval_f line v) ;; ret (f v).

Definition call_df (line : nat) (v : vec) : M vec :=
  emit (Eval_df line v) ;; ret (df v).

Definition np_random_uniform (lo hi : float) (size : nat) : M vec :=
  fun w => let (v, g) := uniform lo hi size (rng w) in (Ret v, mkWorld g (log w)).

Definition np_random_randn (size : nat) : M vec :=
  fun w => let (v, g) := randn size (rng w) in (Ret v, mkWorld g (log w)).

Definition read {A} (var : option A) : M A :=
  match var with
  | Some a => ret a
  | None => raise UnboundLocalError
  end.

(** [while cond: body], cut off after [fuel] tests of the condition. *)
Fixpoint while_ {S} (fuel : nat) (cond : S -> M bool) (body : S -> M S) (s : S)
  : M S :=
  match fuel with
  | O => lift Timeout
  | Datatypes.S fuel' =>
      c <- cond s ;;
      if c then s' <- body s ;; while_ fuel' cond body s' else ret s
  end.

(** *** Lines 120-132: narrowing the box *)

(** One pass of [for i in range(len(x))] of lines 121-125; the state is
    the pair [(x_high, x_low)], updated in place by the source. *)
Definition narrow_by_gradient (dfx x : vec) : vec * vec -> result (vec * vec) :=
  for_range (length x) (fun i box =>
    rbind (getitem dfx i) (fun g =>
    if 0 <? g
    then rbind (getitem x i) (fun xi =>
         rbind (setitem (fst box) i xi) (fun hi => Ret (hi, snd box)))
    else rbind (getitem x i) (fun xi =>
         rbind (setitem (snd box) i xi) (fun lo => Ret (fst box, lo))))).

(** Lines 127-132. *)
Definition narrow_by_position (x y : vec) : vec * vec -> result (vec * vec) :=
  for_range (length x) (fun i box =>
    rbind (getitem x i) (fun xi =>
    rbind (getitem y i) (fun yi =>
    if yi <? xi
    then rbind (getitem x i) (fun xi' =>
         rbind (setitem (fst box) i xi') (fun hi => Ret (hi, snd box)))
    else rbind (getitem x i) (fun xi' =>
         rbind (setitem (snd box) i xi') (fun lo => Ret (fst box, lo)))))).

Definition narrow (fx fy : float) (dfx x y : vec) (box : vec * vec)
  : result (vec * vec) :=
  if fx <=? fy then narrow_by_gradient dfx x box else narrow_by_position x y box.

(** *** Lines 111-139: the inner loop *)

Definition inner_cond (epsilon : float) (s : Inner.t) : M bool :=
  ret (epsilon <? d (Inner.x s) (Inner.y s)).

Definition inner_body (s : Inner.t) : M Inner.t :=
  assert_ (np.all (np.gt_scalar (np.sub (Inner.x_high s) (Inner.x_low s)) 0)) ;;
  let n := S (Inner.n s) in
  fx <- call_f 116 (Inner.x s) ;;
  dfx <- call_df 117 (Inner.x s) ;;
  box <- lift (narrow fx (Inner.fy s) dfx (Inner.x s) (Inner.y s)
                 (Inner.x_high s, Inner.x_low s)) ;;
  let x_high := fst box in
  let x_low := snd box in
  let x_best := if fx <? Inner.fx_best s then Some (Inner.x s) else Inner.x_best s in
  let fx_best := if fx <? Inner.fx_best s then fx else Inner.fx_best s in
  let y := Inner.x s in
  let fy := fx in
  let x := np.div_scalar (np.add x_high x_low) 2 in
  ret (Inner.mk n (Inner.m s) x (Inner.x_prev s) x_high x_low y fy fx_best
         (Some fx) x_best).

Definition inner_loop (fuel : nat) (epsilon : float) : Inner.t -> M Inner.t :=
  while_ fuel (inner_cond epsilon) inner_body.

(** *** Lines 103-147: the outer loop *)

Definition outer_cond (epsilon : float) (s : Outer.t) : M bool :=
  r <- lift (np.max (np.abs (np.sub_scalar (np.div (Outer.x s) (Outer.x_prev s)) 1))) ;;
  ret (epsilon <? r).

(** Lines 104-110. *)
Definition enter_inner (s : Outer.t) : Inner.t :=
  let m := S (Outer.m s) in
  let x := Outer.x s in
  let x_high := np.add x (np.scale (Outer.trust_range s) (np.ones (length x))) in
  let x_low := np.sub x (np.scale (Outer.trust_range s) (np.ones (length x))) in
  let x_prev := x in
  let y := np.scale np.inf (np.ones (length x)) in
  let fy := np.inf in
  let fx_best := np.inf in
  Inner.mk (Outer.n s) m x x_prev x_high x_low y fy fx_best (Outer.fx s) (Outer.x_best s).

(** Lines 141-147. *)
Definition leave_inner (epsilon : float) (s : Inner.t) : M Outer.t :=
  f_low <- call_f 141 (Inner.x_low s) ;;
  f_high <- call_f 142 (Inner.x_high s) ;;
  a <- lift (np.argmin [f_low; f_high; Inner.fx_best s]) ;;
  x_best <- read (Inner.x_best s) ;;
  x <- lift (getitem [Inner.x_low s; Inner.x_high s; x_best] a) ;;
  fx0 <- read (Inner.fx s) ;;
  fx <- lift (getitem [fx0; Inner.fy s; Inner.fx_best s; f_low; f_high] a) ;;
  g <- np_random_randn (length x) ;;
  let trust_range := d x (np.add (Inner.x_prev s) (np.scale (0.1 * epsilon) g)) in
  ret (Outer.mk (Inner.n s) (Inner.m s) x (Inner.x_prev s) trust_range
         (Some fx) (Some x_best)).

Definition outer_body (fuel : nat) (epsilon : float) (s : Outer.t) : M Outer.t :=
  s' <- inner_loop fuel epsilon (enter_inner s) ;;
  leave_inner epsilon s'.

(** Lines 98-100. *)
Definition initial (x : vec) (trust_range : float) : Outer.t :=
  Outer.mk 0 0 x (np.scale 10 x) trust_range None None.

Definition outer_loop (fuel : nat) (epsilon : float) : Outer.t -> M Outer.t :=
  while_ fuel (outer_cond epsilon) (outer_body fuel epsilon).

(** Lines 97-153.  [fuel] bounds the iterations of each loop. *)
Definition MultiDimensionalBisection (fuel : nat) (x : vec) (trust_range epsilon : float)
  : M vec :=
  s <- outer_loop fuel epsilon (initial x trust_range) ;;
  ret (Outer.x s).

(** *** Lines 155-164: the restart loop at module level *)

Definition driver_cond (s : Driver.t) : M bool :=
  fb <- call_f 158 (Driver.x_best s) ;;
  ret (1e-3 <? fb).

Definition driver_body (fuel : nat) (s : Driver.t) : M Driver.t :=
  let i := S (Driver.i s) in
  x0 <- np_random_uniform (-2) 2 (length v1) ;;
  x <- MultiDimensionalBisection fuel x0 2 1e-10 ;;
  fx <- call_f 162 x ;;
  fb <- call_f 162 (Driver.x_best s) ;;
  let x_best := if fx <? fb then x else Driver.x_best s in
  emit (Print i) ;;
  ret (Driver.mk x_best i x).

Definition driver_loop (fuel : nat) : Driver.t -> M Driver.t :=
  while_ fuel driver_cond (driver_body fuel).

(** Lines 94 and 155-157: the state at the head of the restart loop. *)
Definition driver_init : M Driver.t :=
  x <- np_random_uniform (-2) 2 (length v1) ;;
  x_best <- np_random_uniform (-2) 2 (length v1) ;;
  ret (Driver.mk x_best 0 x).

(** The script from line 94 to line 164; the result is the final [x_best]. *)
Definition main (fuel : nat) : M vec :=
  s0 <- driver_init ;;
  s <- driver_loop fuel s0 ;;
  ret (Driver.x_best s).

(** *** The states a run goes through *)

(** One iteration of the inner loop: the test of line 111 succeeds and the
    body, lines 113-139, runs to its end. *)
Definition inner_step (epsilon : float) (sw sw' : Inner.t * World) : Prop :=
  inner_cond epsilon (fst sw) (snd sw) = (Ret true, snd sw) /\
  inner_body (fst sw) (snd sw) = (Ret (fst sw'), snd sw').

(** The states at the head of the inner loop during the outer iteration
    that starts in [o]. *)
Definition inner_visits (epsilon : float) (o : Outer.t) (w : World)
  : Inner.t * World -> Prop :=
  clos_refl_trans_n1 _ (inner_step epsilon) (enter_inner o, w).

(** One pass of the restart loop: the test of line 158 succeeds and the
    body, lines 159-164, runs to its end. *)
Definition restart_step (fuel : nat) (sw sw' : Driver.t * World) : Prop :=
  exists w1,
    driver_cond (fst sw) (snd sw) = (Ret true, w1) /\
    driver_body fuel (fst sw) w1 = (Ret (fst sw'), snd sw').

(** [k] passes of the restart loop, one after the other. *)
Inductive restarts (fuel : nat) : nat -> Driver.t * World -> Driver.t * World -> Prop :=
| restarts_O sw : restarts fuel 0 sw sw
| restarts_S k sw sw1 sw2 :
    restart_step fuel sw sw1 -> restarts fuel k sw1 sw2 -> restarts fuel (S k) sw sw2.

(** A pass of the restart loop in which the call of line 161 raises [e]. *)
Definition restart_fails (fuel : nat) (sw : Driver.t * World) (e : exn) (w2 : World)
  : Prop :=
  exists w1 x0 g,
    driver_cond (fst sw) (snd sw) = (Ret true, w1) /\
    uniform (-2) 2 (length v1) (rng w1) = (x0, g) /\
    MultiDimensionalBisection fuel x0 2 1e-10 (mkWorld g (log w1)) = (Raise e, w2).





(** *** The box and the iterate *)

(** [low[i] <= x[i] <= high[i]] for every [i]. *)
Fixpoint all_between (lo v hi : vec) : bool :=
  match lo, v, hi with
  | a :: lo', b :: v', c :: hi' => (a <=? b) && (b <=? c) && all_between lo' v' hi'
  | _, _, _ => true
  end.

Definition in_box (s : Inner.t) : bool :=
  all_between (Inner.x_low s) (Inner.x s) (Inner.x_high s).

(** The assertion of line 113. *)
Definition box_ok (s : Inner.t) : bool :=
  np.all (np.gt_scalar (np.sub (Inner.x_high s) (Inner.x_low s)) 0).

(** Every coordinate of the iterate is a finite number ([np.isfinite]). *)
Definition finite_iterate (s : Inner.t) : bool :=
  forallb is_finite (Inner.x s).

(** *** Reading the log *)

(** In a log, latest event first: is the evaluation [ev] where the inner
    loop puts it?  The call of [f] on line 116 comes right after a
    successful check of the box, and the call of [df] on line 117 right
    after that call of [f]. *)
Definition in_place (ev : event) (before : option event) : bool :=
  match ev with
  | Eval_f line _ =>
      if Nat.eqb line 116
      then match before with Some (Assert true) => true | _ => false end
      else true
  | Eval_df line _ =>
      if Nat.eqb line 117
      then match before with Some (Eval_f 116 _) => true | _ => false end
      else true
  | _ => true
  end.

Fixpoint evals_checked (l : list event) : bool :=
  match l with
  | [] => true
  | ev :: rest => in_place ev (hd_error rest) && evals_checked rest
  end.

Definition failed_check (ev : event) : bool :=
  match ev with
  | Assert false => true
  | _ => false
  end.

Definition no_failed_check (l : list event) : bool :=
  forallb (fun ev => negb (failed_check ev)) l.

(** A failed check is the last thing that happens, and the outcome is
    then [AssertionError]. *)
Definition stops_at_failed_check {A} (r : result A) (l : list event) : Prop :=
  match l with
  | Assert false :: rest => r = Raise AssertionError /\ no_failed_check rest = true
  | _ => no_failed_check l = true
  end.

(** What a computation adds to the log obeys the two rules above. *)
Definition traced {A} (c : M A) : Prop :=
  forall w r w',
    c w = (r, w') ->
    exists new,
      log w' = new ++ log w /\
      evals_checked new = true /\
      stops_at_failed_check r new.




(** *** Lengths *)

(** The arrays of the inner loop, and [x_best] when it is bound, have [k]
    entries; likewise for the variables that live across outer iterations. *)
Definition inner_lengths (k : nat) (s : Inner.t) : Prop :=
  length (Inner.x s) = k /\ length (Inner.x_high s) = k /\ length (Inner.x_low s) = k /\
  forall b, Inner.x_best s = Some b -> length b = k.

Definition outer_lengths (k : nat) (s : Outer.t) : Prop :=
  length (Outer.x s) = k /\ forall b, Outer.x_best s = Some b -> length b = k.

(** *** Narrowing *)

(** Every entry of the narrowed box is the entry it replaces, or the entry
    of [x] at that index. *)
Definition narrowed_from (hi lo x : vec) (b : vec * vec) : Prop :=
  forall j,
    (nth_error (fst b) j = nth_error hi j \/ nth_error (fst b) j = nth_error x j) /\
    (nth_error (snd b) j = nth_error lo j \/ nth_error (snd b) j = nth_error x j).

(** *** Steps made at finite points *)

(** A step of the inner loop made at an [x] that is finite in every
    coordinate, and the states reached by such steps only. *)
Definition finite_step (epsilon : float) (sw sw' : Inner.t * World) : Prop :=
  finite_iterate (fst sw) = true /\ inner_step epsilon sw sw'.

Definition finite_visits (epsilon : float) (o : Outer.t) (w : World)
  : Inner.t * World -> Prop :=
  clos_refl_trans_n1 _ (finite_step epsilon) (enter_inner o, w).

(** ** Facts about binary64 comparisons and NaN *)

Lemma SFcompare_antisym a b c :
  SFcompare a b = Some c -> SFcompare b a = Some (CompOpp c).
Proof.
  destruct a as [sa|sa| |sa ma ea], b as [sb|sb| |sb mb eb]; simpl;
    try discriminate; intros H; inversion H; clear H; subst;
    try (destruct sa; reflexivity); try (destruct sb; reflexivity);
    try (destruct sa, sb; reflexivity).
  destruct sa, sb; try reflexivity;
    rewrite (Z.compare_antisym ea eb); destruct (ea ?= eb)%Z; simpl; try reflexivity;
    f_equal; rewrite !Pos.compare_cont_spec; simpl;
    rewrite (Pos.compare_antisym ma mb); destruct (ma ?= mb)%positive; reflexivity.
Qed.

Lemma SFcompare_refl a : a <> S754_nan -> SFcompare a a = Some Eq.
Proof.
  destruct a as [s|s| |s m e]; simpl; intros H; try reflexivity.
  - destruct s; reflexivity.
  - contradiction.
  - rewrite Z.compare_refl, !Pos.compare_cont_spec, Pos.compare_refl.
    destruct s; reflexivity.
Qed.

Lemma SFcompare_nan_l a : SFcompare S754_nan a = None.
Proof. reflexivity. Qed.

Lemma SFcompare_nan_r a : SFcompare a S754_nan = None.
Proof. destruct a; reflexivity. Qed.

Lemma SFcompare_not_nan a b :
  a <> S754_nan -> b <> S754_nan -> exists c, SFcompare a b = Some c.
Proof.
  destruct a, b; simpl; intros Ha Hb; try contradiction; eauto.
Qed.

Lemma is_nan_spec a : is_nan a = true <-> Prim2SF a = S754_nan.
Proof.
  unfold is_nan. rewrite eqb_spec. unfold SFeqb.
  destruct (Prim2SF a) as [s|s| |s m e] eqn:E.
  - simpl. split; discriminate.
  - destruct s; simpl; split; discriminate.
  - simpl. split; reflexivity.
  - rewrite SFcompare_refl by discriminate. simpl. split; discriminate.
Qed.

Lemma is_nan_false a : is_nan a = false <-> Prim2SF a <> S754_nan.
Proof.
  rewrite <- is_nan_spec. destruct (is_nan a); split; congruence.
Qed.

Lemma ltb_leb a b : (a <? b) = true -> (a <=? b) = true.
Proof.
  rewrite ltb_spec, leb_spec. unfold SFltb, SFleb.
  destruct (SFcompare (Prim2SF a) (Prim2SF b)) as [[]|]; congruence.
Qed.

Lemma leb_refl a : is_nan a = false -> (a <=? a) = true.
Proof.
  rewrite is_nan_false, leb_spec. unfold SFleb. intros H.
  now rewrite SFcompare_refl.
Qed.

Lemma ltb_not_nan a b : (a <? b) = true -> is_nan a = false /\ is_nan b = false.
Proof.
  rewrite ltb_spec, !is_nan_false. unfold SFltb. intros H.
  split; intros E; rewrite E in H;
    [rewrite SFcompare_nan_l in H | rewrite SFcompare_nan_r in H]; discriminate.
Qed.

Lemma leb_not_nan a b : (a <=? b) = true -> is_nan a = false /\ is_nan b = false.
Proof.
  rewrite leb_spec, !is_nan_false. unfold SFleb. intros H.
  split; intros E; rewrite E in H;
    [rewrite SFcompare_nan_l in H | rewrite SFcompare_nan_r in H]; discriminate.
Qed.

Lemma ltb_nan_r a b : is_nan b = true -> (a <? b) = false.
Proof.
  intros H. destruct (a <? b) eqn:E; [|reflexivity].
  apply ltb_not_nan in E. destruct E; congruence.
Qed.

Lemma leb_nan_l a b : is_nan a = true -> (a <=? b) = false.
Proof.
  intros H. destruct (a <=? b) eqn:E; [|reflexivity].
  apply leb_not_nan in E. destruct E; congruence.
Qed.

(** Among numbers, [<=] is total. *)
Lemma leb_false_ltb a b :
  is_nan a = false -> is_nan b = false -> (a <=? b) = false -> (b <? a) = true.
Proof.
  rewrite !is_nan_false, leb_spec, ltb_spec. unfold SFleb, SFltb. intros Ha Hb.
  destruct (SFcompare_not_nan _ _ Ha Hb) as [c Hc].
  rewrite Hc, (SFcompare_antisym _ _ _ Hc). destruct c; simpl; congruence.
Qed.

Lemma ltb_leb_false a b : (a <? b) = true -> (b <=? a) = false.
Proof.
  rewrite leb_spec, ltb_spec. unfold SFleb, SFltb.
  destruct (SFcompare (Prim2SF a) (Prim2SF b)) as [c|] eqn:Hc; [|discriminate].
  rewrite (SFcompare_antisym _ _ _ Hc). destruct c; simpl; congruence.
Qed.

Lemma SFcompare_lt_le_trans a b c o :
  SFcompare a b = Some Lt -> SFcompare b c = Some o -> o <> Gt ->
  SFcompare a c = Some Lt.
Proof.
  destruct a as [sa|sa| |sa ma ea], b as [sb|sb| |sb mb eb], c as [sc|sc| |sc mc ec];
    simpl; try discriminate;
    try (destruct sa; simpl; try discriminate);
    try (destruct sb; simpl; try discriminate);
    try (destruct sc; simpl; try discriminate);
    intros H1 H2 Ho; inversion H2; subst; try congruence.
  all: rewrite ?Pos.compare_cont_spec in *; simpl in *.
  all: destruct (Z.compare_spec ea eb), (Z.compare_spec eb ec), (Z.compare_spec ea ec);
    try discriminate; try lia; try congruence; subst.
  all: destruct (Pos.compare_spec ma mb), (Pos.compare_spec mb mc), (Pos.compare_spec ma mc);
    simpl in *; try discriminate; try lia; try congruence.
Qed.

Lemma ltb_leb_trans a b c : (a <? b) = true -> (b <=? c) = true -> (a <? c) = true.
Proof.
  rewrite !ltb_spec, leb_spec. unfold SFltb, SFleb.
  destruct (SFcompare (Prim2SF a) (Prim2SF b)) as [[]|] eqn:H1; try discriminate.
  destruct (SFcompare (Prim2SF b) (Prim2SF c)) as [o|] eqn:H2; try discriminate.
  intros _ Ho.
  rewrite (SFcompare_lt_le_trans _ _ _ o H1 H2); [reflexivity|].
  destruct o; congruence.
Qed.

Lemma ltb_trans a b c : (a <? b) = true -> (b <? c) = true -> (a <? c) = true.
Proof. intros H1 H2. eapply ltb_leb_trans; eauto using ltb_leb. Qed.

(** ** The outer guard at a starting point with a zero coordinate *)

Lemma eqb_zero_spec t : (t =? 0) = true -> exists s, Prim2SF t = S754_zero s.
Proof.
  rewrite eqb_spec. unfold SFeqb.
  change (Prim2SF 0) with (S754_zero false).
  destruct (Prim2SF t) as [s|s| |s m e]; simpl; try discriminate; eauto.
  - destruct s; discriminate.
  - destruct s; discriminate.
Qed.

Lemma zero_quotient_nan t :
  (t =? 0) = true -> is_nan (abs (t / (10 * t) - 1)) = true.
Proof.
  intros H. destruct (eqb_zero_spec _ H) as [s Hs].
  apply is_nan_spec.
  rewrite abs_spec, sub_spec, div_spec, mul_spec, Hs.
  change (Prim2SF 10) with (S754_finite false 5629499534213120 (-49)).
  reflexivity.
Qed.

Lemma maximum_nan_l a b : is_nan a = true -> np.maximum a b = a.
Proof. unfold np.maximum. intros ->. now rewrite orb_true_r. Qed.

Lemma maximum_nan_r a b : is_nan b = true -> is_nan (np.maximum a b) = true.
Proof.
  intros H. unfold np.maximum.
  destruct (is_nan a) eqn:Ha.
  - now rewrite orb_true_r.
  - rewrite (leb_nan_l _ _ H). simpl. exact H.
Qed.

Lemma fold_maximum_nan v a :
  is_nan a = true -> is_nan (fold_left np.maximum v a) = true.
Proof.
  revert a. induction v as [|b v IH]; simpl; intros a Ha; [exact Ha|].
  apply IH. now rewrite maximum_nan_l.
Qed.

Lemma fold_maximum_exists_nan v a :
  Exists (fun t => is_nan t = true) v -> is_nan (fold_left np.maximum v a) = true.
Proof.
  intros H. revert a. induction H as [b v Hb|b v _ IH]; simpl; intros a.
  - apply fold_maximum_nan. now apply maximum_nan_r.
  - apply IH.
Qed.

Lemma max_exists_nan v :
  Exists (fun t => is_nan t = true) v ->
  exists r, np.max v = Ret r /\ is_nan r = true.
Proof.
  intros H. destruct v as [|a v]; [inversion H|].
  simpl. eexists; split; [reflexivity|].
  inversion H; subst.
  - now apply fold_maximum_nan.
  - now apply fold_maximum_exists_nan.
Qed.

Lemma relative_change_nan x :
  Exists (fun t => (t =? 0) = true) x ->
  Exists (fun t => is_nan t = true)
    (np.abs (np.sub_scalar (np.div x (np.scale 10 x)) 1)).
Proof.
  induction 1 as [t x Ht|t x _ IH]; simpl.
  - left. now apply zero_quotient_nan.
  - right. exact IH.
Qed.

Lemma outer_cond_zero_coordinate x trust_range epsilon w :
  Exists (fun t => (t =? 0) = true) x ->
  outer_cond epsilon (initial x trust_range) w = (Ret false, w).
Proof.
  intros H. unfold outer_cond, initial, bind, lift, ret. simpl.
  destruct (max_exists_nan _ (relative_change_nan _ H)) as [r [-> Hr]].
  now rewrite (ltb_nan_r _ _ Hr).
Qed.

(** C10.  A starting point with a coordinate equal to zero (of either
    sign) is returned as it is: the guard of line 103 divides that
    coordinate by ten times itself, the NaN goes through [np.abs] and
    [np.max], and [NaN > epsilon] is false, so the loop body never runs; no
    objective is evaluated and no random number is drawn. *)
Theorem zero_coordinate_returns_unchanged fuel x trust_range epsilon w :
  Exists (fun t => (t =? 0) = true) x ->
  outer_loop (S fuel) epsilon (initial x trust_range) w
    = (Ret (initial x trust_range), w)
  /\ MultiDimensionalBisection (S fuel) x trust_range epsilon w = (Ret x, w).
Proof.
  intros H.
  assert (E : outer_loop (S fuel) epsilon (initial x trust_range) w
              = (Ret (initial x trust_range), w)).
  { unfold outer_loop. simpl. unfold bind at 1.
    now rewrite (outer_cond_zero_coordinate _ _ _ _ H). }
  split; [exact E|].
  unfold MultiDimensionalBisection, bind. now rewrite E.
Qed.

(** ** The inner loop, step by step *)

Lemma inner_body_inv s w s' w' :
  inner_body s w = (Ret s', w') ->
  np.all (np.gt_scalar (np.sub (Inner.x_high s) (Inner.x_low s)) 0) = true /\
  exists box,
    narrow (f (Inner.x s)) (Inner.fy s) (df (Inner.x s)) (Inner.x s) (Inner.y s)
      (Inner.x_high s, Inner.x_low s) = Ret box /\
    s' = Inner.mk (S (Inner.n s)) (Inner.m s)
           (np.div_scalar (np.add (fst box) (snd box)) 2) (Inner.x_prev s)
           (fst box) (snd box) (Inner.x s) (f (Inner.x s))
           (if f (Inner.x s) <? Inner.fx_best s then f (Inner.x s) else Inner.fx_best s)
           (Some (f (Inner.x s)))
           (if f (Inner.x s) <? Inner.fx_best s then Some (Inner.x s) else Inner.x_best s) /\
    w' = mkWorld (rng w)
           (Eval_df 117 (Inner.x s) :: Eval_f 116 (Inner.x s) :: Assert true :: log w).
Proof.
  unfold inner_body, assert_, call_f, call_df, bind, emit, ret, raise, lift. simpl.
  destruct (np.all _) eqn:Hassert; simpl; [|discriminate].
  destruct (narrow _ _ _ _ _ _) as [box| |] eqn:Hbox; simpl; try discriminate.
  intros H. inversion H; subst; clear H.
  split; [reflexivity|]. exists box. repeat split.
Qed.


Lemma fx_best_step s w s' w' :
  inner_body s w = (Ret s', w') ->
  Inner.fx_best s' = if f (Inner.x s) <? Inner.fx_best s then f (Inner.x s) else Inner.fx_best s.
Proof.
  intros H. destruct (inner_body_inv _ _ _ _ H) as (_ & box & _ & -> & _). reflexivity.
Qed.

Lemma fx_best_not_nan epsilon o w sw :
  inner_visits epsilon o w sw -> is_nan (Inner.fx_best (fst sw)) = false.
Proof.
  induction 1 as [|sw sw' [_ Hb] _ IH].
  - reflexivity.
  - rewrite (fx_best_step _ _ _ _ Hb).
    destruct (_ <? _) eqn:E; [|exact IH].
    now apply ltb_not_nan in E.
Qed.

(** C7.  During one outer iteration the value [fx_best] never goes up: a
    step of the inner loop leaves it less than or equal to what it was. *)
Theorem fx_best_non_increasing epsilon o w sw sw' :
  inner_visits epsilon o w sw ->
  inner_step epsilon sw sw' ->
  (Inner.fx_best (fst sw') <=? Inner.fx_best (fst sw)) = true.
Proof.
  intros Hv [_ Hb]. rewrite (fx_best_step _ _ _ _ Hb).
  destruct (_ <? _) eqn:E.
  - now apply ltb_leb.
  - apply leb_refl. exact (fx_best_not_nan _ _ _ _ Hv).
Qed.

(** ** The restart loop *)

Lemma driver_cond_inv s w b w1 :
  driver_cond s w = (Ret b, w1) ->
  b = (1e-3 <? f (Driver.x_best s)) /\
  w1 = mkWorld (rng w) (Eval_f 158 (Driver.x_best s) :: log w).
Proof.
  unfold driver_cond, call_f, bind, emit, ret. simpl.
  intros H. inversion H. split; reflexivity.
Qed.

Lemma driver_body_inv fuel s w s' w' :
  driver_body fuel s w = (Ret s', w') ->
  exists x0 g x w2,
    uniform (-2) 2 (length v1) (rng w) = (x0, g) /\
    MultiDimensionalBisection fuel x0 2 1e-10 (mkWorld g (log w)) = (Ret x, w2) /\
    s' = Driver.mk
           (if f x <? f (Driver.x_best s) then x else Driver.x_best s)
           (S (Driver.i s)) x /\
    w' = mkWorld (rng w2)
           (Print (S (Driver.i s)) :: Eval_f 162 (Driver.x_best s) :: Eval_f 162 x :: log w2).
Proof.
  unfold driver_body, np_random_uniform, call_f, bind, emit, ret. simpl.
  destruct (uniform _ _ _ _) as [x0 g] eqn:Hu.
  destruct (MultiDimensionalBisection _ _ _ _ _) as [[x| |] w2] eqn:Hrun;
    try discriminate.
  intros H. inversion H; subst; clear H.
  exists x0, g, x, w2. repeat split. exact Hrun.
Qed.

(** C8.  A completed restart leaves the objective value of the global best
    point, [f(x_best)], less than or equal to what it was before. *)
Theorem restart_monotone fuel sw sw' :
  restart_step fuel sw sw' ->
  (f (Driver.x_best (fst sw')) <=? f (Driver.x_best (fst sw))) = true.
Proof.
  intros (w1 & Hc & Hb).
  apply driver_cond_inv in Hc. destruct Hc as [Hc _]. symmetry in Hc.
  destruct (driver_body_inv _ _ _ _ _ Hb) as (x0 & g & x & w2 & _ & _ & -> & _).
  simpl. destruct (f x <? _) eqn:E.
  - now apply ltb_leb.
  - apply leb_refl. now apply ltb_not_nan in Hc.
Qed.

(** ** Lines 120-132: what the narrowing does *)

Lemma getitem_Some {A} (v : list A) i a : nth_error v i = Some a -> getitem v i = Ret a.
Proof. unfold getitem. now intros ->. Qed.

Lemma setitem_spec {A} (v : list A) i a :
  (i < length v)%nat ->
  exists v', setitem v i a = Ret v' /\ length v' = length v /\
    nth_error v' i = Some a /\
    forall j, j <> i -> nth_error v' j = nth_error v j.
Proof.
  revert i. induction v as [|b v IH]; simpl; intros i Hi; [lia|].
  destruct i as [|i].
  - exists (a :: v). repeat split. intros [|j] Hj; [congruence|reflexivity].
  - destruct (IH i ltac:(lia)) as (v' & -> & Hlen & Hi' & Hother).
    exists (b :: v'). simpl. repeat split; auto.
    intros [|j] Hj; [reflexivity|]. simpl. apply Hother. congruence.
Qed.

Lemma for_range_from_pointwise (c : nat -> bool) (x : vec) step :
  (forall i box, (i < length x)%nat -> step i box = pointwise c x i box) ->
  forall k start hi lo,
    (start + k <= length x)%nat -> length hi = length x -> length lo = length x ->
    exists hi' lo',
      for_range_from start k step (hi, lo) = Ret (hi', lo') /\
      length hi' = length x /\ length lo' = length x /\
      forall i,
        ((start <= i < start + k)%nat ->
           if c i
           then nth_error hi' i = nth_error x i /\ nth_error lo' i = nth_error lo i
           else nth_error lo' i = nth_error x i /\ nth_error hi' i = nth_error hi i) /\
        ((i < start \/ start + k <= i)%nat ->
           nth_error hi' i = nth_error hi i /\ nth_error lo' i = nth_error lo i).
Proof.
  intros Hstep. induction k as [|k IH]; intros start hi lo Hk Hhi Hlo.
  - exists hi, lo. simpl. split; [reflexivity|]. split; [exact Hhi|]. split; [exact Hlo|].
    intros i. split; [lia|]. intros _. split; reflexivity.
  - simpl. rewrite Hstep by lia. unfold pointwise.
    destruct (nth_error x start) as [xi|] eqn:Hx;
      [|apply nth_error_None in Hx; lia].
    rewrite (getitem_Some _ _ _ Hx). simpl.
    destruct (c start) eqn:Hc.
    + destruct (setitem_spec hi start xi ltac:(lia)) as (hi1 & -> & Hlen & Hat & Hother).
      simpl.
      destruct (IH (S start) hi1 lo ltac:(lia) ltac:(lia) Hlo)
        as (hi' & lo' & Hrun & Hhi' & Hlo' & Hspec).
      exists hi', lo'. split; [exact Hrun|]. split; [exact Hhi'|]. split; [exact Hlo'|].
      intros i. split; intros Hi.
      * destruct (Nat.eq_dec i start) as [->|Hne].
        -- rewrite Hc. destruct (Hspec start) as [_ Hout].
           destruct (Hout ltac:(lia)) as [-> ->]. now rewrite Hat, Hx.
        -- destruct (Hspec i) as [Hin _]. specialize (Hin ltac:(lia)).
           destruct (c i); destruct Hin as [H1 H2]; split; auto.
           rewrite H2. now apply Hother.
      * destruct (Hspec i) as [_ Hout].
        destruct (Hout ltac:(lia)) as [H1 H2]. rewrite H1, H2.
        split; auto. apply Hother. lia.
    + destruct (setitem_spec lo start xi ltac:(lia)) as (lo1 & -> & Hlen & Hat & Hother).
      simpl.
      destruct (IH (S start) hi lo1 ltac:(lia) Hhi ltac:(lia))
        as (hi' & lo' & Hrun & Hhi' & Hlo' & Hspec).
      exists hi', lo'. split; [exact Hrun|]. split; [exact Hhi'|]. split; [exact Hlo'|].
      intros i. split; intros Hi.
      * destruct (Nat.eq_dec i start) as [->|Hne].
        -- rewrite Hc. destruct (Hspec start) as [_ Hout].
           destruct (Hout ltac:(lia)) as [-> ->]. now rewrite Hat, Hx.
        -- destruct (Hspec i) as [Hin _]. specialize (Hin ltac:(lia)).
           destruct (c i); destruct Hin as [H1 H2]; split; auto.
           rewrite H2. now apply Hother.
      * destruct (Hspec i) as [_ Hout].
        destruct (Hout ltac:(lia)) as [H1 H2]. rewrite H1, H2.
        split; auto. apply Hother. lia.
Qed.

Lemma narrow_by_gradient_spec dfx x hi lo :
  length hi = length x -> length lo = length x -> (length x <= length dfx)%nat ->
  exists hi' lo',
    narrow_by_gradient dfx x (hi, lo) = Ret (hi', lo') /\
    length hi' = length x /\ length lo' = length x /\
    forall i xi g,
      nth_error x i = Some xi -> nth_error dfx i = Some g ->
      if 0 <? g
      then nth_error hi' i = Some xi /\ nth_error lo' i = nth_error lo i
      else nth_error lo' i = Some xi /\ nth_error hi' i = nth_error hi i.
Proof.
  intros Hhi Hlo Hdf.
  set (c := fun i => match nth_error dfx i with Some g => 0 <? g | None => false end).
  destruct (for_range_from_pointwise c x
              (fun i box =>
                 rbind (getitem dfx i) (fun g =>
                 if 0 <? g
                 then rbind (getitem x i) (fun xi =>
                      rbind (setitem (fst box) i xi) (fun hi => Ret (hi, snd box)))
                 else rbind (getitem x i) (fun xi =>
                      rbind (setitem (snd box) i xi) (fun lo => Ret (fst box, lo)))))
              ) with (k := length x) (start := 0%nat) (hi := hi) (lo := lo)
    as (hi' & lo' & Hrun & Hhi' & Hlo' & Hspec); auto.
  - intros i box Hi. unfold pointwise, c.
    destruct (nth_error dfx i) as [g|] eqn:Hg; [|apply nth_error_None in Hg; lia].
    rewrite (getitem_Some _ _ _ Hg). simpl. now destruct (0 <? g).
  - exists hi', lo'. split; [exact Hrun|]. split; [exact Hhi'|]. split; [exact Hlo'|].
    intros i xi g Hx Hg. destruct (Hspec i) as [Hin _].
    assert (Hi : (i < length x)%nat) by (apply nth_error_Some; congruence).
    specialize (Hin ltac:(lia)). unfold c in Hin. rewrite Hg, Hx in Hin. exact Hin.
Qed.

Lemma narrow_by_position_spec x y hi lo :
  length hi = length x -> length lo = length x -> (length x <= length y)%nat ->
  exists hi' lo',
    narrow_by_position x y (hi, lo) = Ret (hi', lo') /\
    length hi' = length x /\ length lo' = length x /\
    forall i xi yi,
      nth_error x i = Some xi -> nth_error y i = Some yi ->
      if yi <? xi
      then nth_error hi' i = Some xi /\ nth_error lo' i = nth_error lo i
      else nth_error lo' i = Some xi /\ nth_error hi' i = nth_error hi i.
Proof.
  intros Hhi Hlo Hy.
  set (c := fun i => match nth_error x i, nth_error y i with
                     | Some xi, Some yi => yi <? xi
                     | _, _ => false
                     end).
  destruct (for_range_from_pointwise c x
              (fun i box =>
                 rbind (getitem x i) (fun xi =>
                 rbind (getitem y i) (fun yi =>
                 if yi <? xi
                 then rbind (getitem x i) (fun xi' =>
                      rbind (setitem (fst box) i xi') (fun hi => Ret (hi, snd box)))
                 else rbind (getitem x i) (fun xi' =>
                      rbind (setitem (snd box) i xi') (fun lo => Ret (fst box, lo))))))
              ) with (k := length x) (start := 0%nat) (hi := hi) (lo := lo)
    as (hi' & lo' & Hrun & Hhi' & Hlo' & Hspec); auto.
  - intros i box Hi. unfold pointwise, c.
    destruct (nth_error x i) as [xi|] eqn:Hx; [|apply nth_error_None in Hx; lia].
    destruct (nth_error y i) as [yi|] eqn:Hyi; [|apply nth_error_None in Hyi; lia].
    rewrite (getitem_Some _ _ _ Hx), (getitem_Some _ _ _ Hyi). simpl.
    now destruct (yi <? xi).
  - exists hi', lo'. split; [exact Hrun|]. split; [exact Hhi'|]. split; [exact Hlo'|].
    intros i xi yi Hx Hyi. destruct (Hspec i) as [Hin _].
    assert (Hi : (i < length x)%nat) by (apply nth_error_Some; congruence).
    specialize (Hin ltac:(lia)). unfold c in Hin. rewrite Hx, Hyi in Hin. exact Hin.
Qed.

(** An inner-loop step runs to its end when the assertion holds and the
    arrays have the length of [x]. *)
Lemma inner_body_runs s w :
  length (Inner.x_high s) = length (Inner.x s) ->
  length (Inner.x_low s) = length (Inner.x s) ->
  length (Inner.y s) = length (Inner.x s) ->
  length (df (Inner.x s)) = length (Inner.x s) ->
  np.all (np.gt_scalar (np.sub (Inner.x_high s) (Inner.x_low s)) 0) = true ->
  exists s' w', inner_body s w = (Ret s', w').
Proof.
  intros Hhi Hlo Hy Hdf Hassert.
  assert (Hbox : exists box,
             narrow (f (Inner.x s)) (Inner.fy s) (df (Inner.x s)) (Inner.x s) (Inner.y s)
               (Inner.x_high s, Inner.x_low s) = Ret box).
  { unfold narrow. destruct (_ <=? _).
    - destruct (narrow_by_gradient_spec (df (Inner.x s)) (Inner.x s) _ _ Hhi Hlo ltac:(lia))
        as (hi' & lo' & Hr & _). now exists (hi', lo').
    - destruct (narrow_by_position_spec (Inner.x s) (Inner.y s) _ _ Hhi Hlo ltac:(lia))
        as (hi' & lo' & Hr & _). now exists (hi', lo'). }
  destruct Hbox as [box Hbox]. do 2 eexists.
  unfold inner_body, assert_, call_f, call_df, bind, emit, ret, raise, lift. simpl.
  rewrite Hassert. simpl. rewrite Hbox. reflexivity.
Qed.

(** C1.  An inner-loop step whose assertion holds narrows the box as
    follows.  If [fx <= fy], coordinate [i] of [x_high] becomes [x[i]] where
    the gradient is positive, and coordinate [i] of [x_low] becomes [x[i]]
    elsewhere; if [fx > fy], the same with the test [x[i] > y[i]] in place of
    the sign of the gradient.  The other bound of the coordinate is kept. *)
Theorem box_narrowed s w :
  length (Inner.x_high s) = length (Inner.x s) ->
  length (Inner.x_low s) = length (Inner.x s) ->
  length (Inner.y s) = length (Inner.x s) ->
  length (df (Inner.x s)) = length (Inner.x s) ->
  np.all (np.gt_scalar (np.sub (Inner.x_high s) (Inner.x_low s)) 0) = true ->
  exists s' w',
    inner_body s w = (Ret s', w') /\
    forall i xi g yi,
      nth_error (Inner.x s) i = Some xi ->
      nth_error (df (Inner.x s)) i = Some g ->
      nth_error (Inner.y s) i = Some yi ->
      ((f (Inner.x s) <=? Inner.fy s) = true ->
       if 0 <? g
       then nth_error (Inner.x_high s') i = Some xi /\
            nth_error (Inner.x_low s') i = nth_error (Inner.x_low s) i
       else nth_error (Inner.x_low s') i = Some xi /\
            nth_error (Inner.x_high s') i = nth_error (Inner.x_high s) i) /\
      ((Inner.fy s <? f (Inner.x s)) = true ->
       if yi <? xi
       then nth_error (Inner.x_high s') i = Some xi /\
            nth_error (Inner.x_low s') i = nth_error (Inner.x_low s) i
       else nth_error (Inner.x_low s') i = Some xi /\
            nth_error (Inner.x_high s') i = nth_error (Inner.x_high s) i).
Proof.
  intros Hhi Hlo Hy Hdf Hassert.
  destruct (inner_body_runs s w Hhi Hlo Hy Hdf Hassert) as (s' & w' & Hrun).
  exists s', w'. split; [exact Hrun|].
  destruct (inner_body_inv _ _ _ _ Hrun) as (_ & box & Hbox & -> & _). simpl.
  intros i xi g yi Hx Hg Hyi. unfold narrow in Hbox. split; intros Hcmp.
  - rewrite Hcmp in Hbox.
    destruct (narrow_by_gradient_spec (df (Inner.x s)) (Inner.x s) _ _ Hhi Hlo ltac:(lia))
      as (hi' & lo' & Hrun' & _ & _ & Hspec).
    pose proof (eq_trans (eq_sym Hbox) Hrun') as E. inversion E; subst.
    simpl. now apply Hspec.
  - rewrite (ltb_leb_false _ _ Hcmp) in Hbox.
    destruct (narrow_by_position_spec (Inner.x s) (Inner.y s) _ _ Hhi Hlo ltac:(lia))
      as (hi' & lo' & Hrun' & _ & _ & Hspec).
    pose proof (eq_trans (eq_sym Hbox) Hrun') as E. inversion E; subst.
    simpl. now apply Hspec.
Qed.

(** ** Lines 141-145: the choice of the new outer iterate *)

Lemma argmin3 a b c :
  is_nan a = false -> is_nan b = false -> is_nan c = false ->
  np.argmin [a; b; c]
  = Ret (if a <=? b then (if a <=? c then 0%nat else 2%nat)
         else (if b <=? c then 1%nat else 2%nat)).
Proof.
  intros Ha Hb Hc. unfold np.argmin. rewrite Ha. simpl.
  destruct (a <=? b); simpl.
  - destruct (a <=? c); simpl; [reflexivity|]. now rewrite Hc.
  - rewrite Hb. destruct (b <=? c); simpl; [reflexivity|]. now rewrite Hc.
Qed.

(** Once some point of the inner loop has improved on [+inf], [x_best] is
    that point, [fx_best] its value, and [fx] is bound. *)
Lemma x_best_assigned epsilon o w sw :
  inner_visits epsilon o w sw ->
  Inner.fx_best (fst sw) = np.inf \/
  exists xb, Inner.x_best (fst sw) = Some xb /\ Inner.fx_best (fst sw) = f xb /\
             Inner.fx (fst sw) <> None.
Proof.
  induction 1 as [|sw sw' [_ Hb] _ IH].
  - left. reflexivity.
  - destruct (inner_body_inv _ _ _ _ Hb) as (_ & box & _ & -> & _). simpl.
    destruct (_ <? _).
    + right. eexists. repeat split. discriminate.
    + destruct IH as [IH|(xb & H1 & H2 & _)]; [now left|].
      right. exists xb. repeat split; auto. discriminate.
Qed.

(** C2, as amended.  At a state of the inner loop where some evaluated
    point has improved on [+inf] (so [x_best] was assigned in this inner
    loop) and neither [f(x_low)] nor [f(x_high)] is NaN, lines 141-147 run
    to their end and the new outer iterate is the one of [x_low], [x_high],
    [x_best] with the least objective value; [x_high] is taken only if it
    is strictly better than [x_low], and [x_best] only if it is strictly
    better than both. *)
Theorem new_iterate_is_argmin epsilon o w0 s w :
  inner_visits epsilon o w0 (s, w) ->
  (Inner.fx_best s <? np.inf) = true ->
  is_nan (f (Inner.x_low s)) = false ->
  is_nan (f (Inner.x_high s)) = false ->
  exists xb o' w',
    Inner.x_best s = Some xb /\ Inner.fx_best s = f xb /\
    leave_inner epsilon s w = (Ret o', w') /\
    (f (Outer.x o') <=? f (Inner.x_low s)) = true /\
    (f (Outer.x o') <=? f (Inner.x_high s)) = true /\
    (f (Outer.x o') <=? f xb) = true /\
    (Outer.x o' = Inner.x_low s \/
     (Outer.x o' = Inner.x_high s /\
      (f (Inner.x_high s) <? f (Inner.x_low s)) = true) \/
     (Outer.x o' = xb /\
      (f xb <? f (Inner.x_low s)) = true /\ (f xb <? f (Inner.x_high s)) = true)).
Proof.
  intros Hv Hlt Hlo Hhi.
  destruct (x_best_assigned _ _ _ _ Hv) as [E|(xb & Hxb & Hfb & Hfx)]; simpl in *.
  { rewrite E in Hlt. discriminate. }
  assert (Hb : is_nan (f xb) = false).
  { rewrite <- Hfb. now apply ltb_not_nan in Hlt. }
  destruct (Inner.fx s) as [fx0|] eqn:Hfx0; [clear Hfx|congruence].
  exists xb.
  destruct (leave_inner epsilon s w) as [r w'] eqn:E.
  unfold leave_inner, call_f, read, np_random_randn, bind, emit, ret, lift in E.
  cbv beta iota in E. rewrite Hfb, (argmin3 _ _ _ Hlo Hhi Hb), Hxb, Hfx0 in E.
  destruct (f (Inner.x_low s) <=? f (Inner.x_high s)) eqn:E1.
  - destruct (f (Inner.x_low s) <=? f xb) eqn:E2; simpl in E;
      destruct (randn _ _) as [g r'] in E; inversion E; subst; clear E;
      do 2 eexists;
      (split; [exact Hxb|]); (split; [exact Hfb|]); (split; [reflexivity|]); simpl.
    + repeat split; auto using leb_refl.
    + apply leb_false_ltb in E2; auto.
      repeat split; auto using ltb_leb, leb_refl.
      * apply ltb_leb. eapply ltb_leb_trans; eauto.
      * right. right. repeat split; auto. eapply ltb_leb_trans; eauto.
  - apply leb_false_ltb in E1; auto.
    destruct (f (Inner.x_high s) <=? f xb) eqn:E2; simpl in E;
      destruct (randn _ _) as [g r'] in E; inversion E; subst; clear E;
      do 2 eexists;
      (split; [exact Hxb|]); (split; [exact Hfb|]); (split; [reflexivity|]); simpl.
    + repeat split; auto using ltb_leb, leb_refl.
    + apply leb_false_ltb in E2; auto.
      repeat split; auto using ltb_leb, leb_refl.
      * apply ltb_leb. eapply ltb_trans; eauto.
      * right. right. repeat split; auto. eapply ltb_trans; eauto.
Qed.

(** ** The test of line 103 *)


(** ** Exceptions leave the restart loop *)

Lemma restart_loop_steps fuel k sw sw' :
  restarts fuel k sw sw' ->
  forall j,
    while_ (k + j) driver_cond (driver_body fuel) (fst sw) (snd sw)
    = while_ j driver_cond (driver_body fuel) (fst sw') (snd sw').
Proof.
  induction 1 as [sw|k sw sw1 sw2 (w1 & Hc & Hb) _ IH]; intros j; [reflexivity|].
  simpl. unfold bind at 1. rewrite Hc. unfold bind at 1. rewrite Hb. apply IH.
Qed.

Lemma restart_loop_fails fuel j sw e w2 :
  restart_fails fuel sw e w2 ->
  while_ (S j) driver_cond (driver_body fuel) (fst sw) (snd sw) = (Raise e, w2).
Proof.
  intros (w1 & x0 & g & Hc & Hu & Hrun). simpl.
  unfold bind at 1. rewrite Hc.
  unfold bind at 1. unfold driver_body, np_random_uniform, bind.
  now rewrite Hu, Hrun.
Qed.

(** C5, as amended.  Nothing catches an exception of
    [MultiDimensionalBisection]: when the run of some restart raises (the
    [AssertionError] of line 113, or any other exception), the restart
    loop ends with that exception, and so does the whole script. *)
Theorem failure_ends_the_search fuel k w0 s0 w0' sw e w2 :
  driver_init w0 = (Ret s0, w0') ->
  restarts fuel k (s0, w0') sw ->
  restart_fails fuel sw e w2 ->
  (k < fuel)%nat ->
  main fuel w0 = (Raise e, w2).
Proof.
  intros Hinit Hsteps Hfail Hk.
  unfold main. unfold bind at 1. rewrite Hinit.
  unfold bind at 1. unfold driver_loop.
  pose proof (restart_loop_steps _ _ _ _ Hsteps (S (fuel - S k))) as E.
  replace (k + S (fuel - S k))%nat with fuel in E by lia. cbn [fst snd] in E.
  now rewrite E, (restart_loop_fails _ _ _ _ _ Hfail).
Qed.

(** ** The check of line 113 in the log *)






Lemma traced_quiet {A} (c : M A) :
  (forall w, log (snd (c w)) = log w) -> traced c.
Proof.
  intros H w r w' E. exists []. pose proof (H w) as Hw. rewrite E in Hw.
  repeat split; assumption.
Qed.





Lemma traced_uniform lo hi k : traced (np_random_uniform lo hi k).
Proof.
  apply traced_quiet. intros w. unfold np_random_uniform. now destruct (uniform _ _ _ _).
Qed.




Lemma traced_print k : traced (emit (Print k)).
Proof.
  intros w r w'. unfold emit. intros E. inversion E; subst. simpl.
  exists [Print k]. repeat split.
Qed.




(** ** Where the randomness comes from *)











(** * More about [MultiDimensionalBisection] and the restart loop *)

(** ** Loops *)

Lemma while_invariant {S} (I : S -> Prop) (cond : S -> M bool) (body : S -> M S) :
  (forall s w s' w', I s -> body s w = (Ret s', w') -> I s') ->
  forall fuel s w s' w',
    I s -> while_ fuel cond body s w = (Ret s', w') -> I s'.
Proof.
  intros Hb. induction fuel as [|fuel IH]; intros s w s' w' Hs; simpl.
  - discriminate.
  - unfold bind at 1. destruct (cond s w) as [[c| |] w1]; try discriminate.
    destruct c.
    + unfold bind. destruct (body s w1) as [[s1| |] w2] eqn:E; try discriminate.
      apply IH. exact (Hb _ _ _ _ Hs E).
    + unfold ret. intros H. inversion H; subst. exact Hs.
Qed.

Lemma for_range_from_invariant {S} (I : S -> Prop) (step : nat -> S -> result S) :
  (forall i s s', I s -> step i s = Ret s' -> I s') ->
  forall k start s s', I s -> for_range_from start k step s = Ret s' -> I s'.
Proof.
  intros Hstep. induction k as [|k IH]; intros start s s' Hs; simpl.
  - intros H. inversion H; subst. exact Hs.
  - destruct (step start s) as [s1| |] eqn:E; simpl; try discriminate.
    apply IH. exact (Hstep _ _ _ Hs E).
Qed.

(** ** An empty array, a tolerance that is not a finite number *)

(** X4.  On an empty array the call raises [ValueError]: [np.max] of an
    empty array has no value, so the guard of line 103 fails the first time
    it is evaluated, before anything else happens. *)
Theorem empty_array_raises fuel trust_range epsilon w :
  MultiDimensionalBisection (S fuel) [] trust_range epsilon w = (Raise ValueError, w).
Proof. reflexivity. Qed.

Lemma leb_infinity a : is_nan a = false -> (a <=? infinity) = true.
Proof.
  rewrite is_nan_false, leb_spec. change (Prim2SF infinity) with (S754_infinity false).
  destruct (Prim2SF a) as [s|s| |s m e]; intros H; try reflexivity;
    try contradiction; now destruct s.
Qed.

Lemma ltb_infinity_false a b : (a <? infinity) = false -> (a <? b) = false.
Proof.
  intros H. destruct (a <? b) eqn:E; [|reflexivity].
  rewrite <- H. symmetry. apply (ltb_leb_trans a b infinity E).
  apply leb_infinity. now apply ltb_not_nan in E.
Qed.

(** X5.  With a tolerance that is NaN or [+inf] no relative change is
    greater than the tolerance: a non-empty [x] is returned at once, and nothing is
    evaluated or drawn. *)
Theorem unbounded_tolerance_returns_unchanged fuel x trust_range epsilon w :
  x <> [] -> (epsilon <? np.inf) = false ->
  MultiDimensionalBisection (S fuel) x trust_range epsilon w = (Ret x, w).
Proof.
  intros Hx He. destruct x as [|a x]; [contradiction|].
  unfold MultiDimensionalBisection, outer_loop, outer_cond, initial, bind, lift, ret.
  simpl. now rewrite (ltb_infinity_false _ _ He).
Qed.

(** ** The arrays keep their length *)

Lemma zip_with_length op u v :
  length (np.zip_with op u v) = Nat.min (length u) (length v).
Proof.
  revert v. induction u as [|a u IH]; intros [|b v]; simpl; auto.
Qed.

Lemma setitem_length {A} (v : list A) i a v' :
  setitem v i a = Ret v' -> length v' = length v.
Proof.
  revert i v'. induction v as [|b v IH]; intros i v'; simpl; [discriminate|].
  destruct i as [|i].
  - intros H. inversion H. reflexivity.
  - destruct (setitem v i a) as [u| |] eqn:E; try discriminate.
    intros H. inversion H. simpl. f_equal. exact (IH _ _ E).
Qed.

Lemma move_bound_lengths (hi lo : vec) i xi (b b' : vec * vec) :
  length (fst b) = length hi /\ length (snd b) = length lo ->
  (rbind (setitem (fst b) i xi) (fun u => Ret (u, snd b)) = Ret b' \/
   rbind (setitem (snd b) i xi) (fun u => Ret (fst b, u)) = Ret b') ->
  length (fst b') = length hi /\ length (snd b') = length lo.
Proof.
  intros [H1 H2] [H|H].
  - destruct (setitem (fst b) i xi) as [u| |] eqn:E; simpl in H; try discriminate.
    inversion H. simpl. split; [|exact H2].
    now rewrite (setitem_length _ _ _ _ E).
  - destruct (setitem (snd b) i xi) as [u| |] eqn:E; simpl in H; try discriminate.
    inversion H. simpl. split; [exact H1|].
    now rewrite (setitem_length _ _ _ _ E).
Qed.

Lemma narrow_lengths fx fy dfx x y hi lo box :
  narrow fx fy dfx x y (hi, lo) = Ret box ->
  length (fst box) = length hi /\ length (snd box) = length lo.
Proof.
  set (I := fun b : vec * vec => length (fst b) = length hi /\ length (snd b) = length lo).
  assert (I0 : I (hi, lo)) by (split; reflexivity).
  unfold narrow, narrow_by_gradient, narrow_by_position, for_range.
  destruct (fx <=? fy); apply (for_range_from_invariant I); try exact I0;
    intros i b b' Hb.
  - destruct (getitem dfx i) as [g| |]; simpl; try discriminate.
    destruct (0 <? g); destruct (getitem x i) as [xi| |]; simpl; try discriminate;
      intros H; apply (move_bound_lengths hi lo i xi b b' Hb); auto.
  - destruct (getitem x i) as [xi| |]; simpl; try discriminate.
    destruct (getitem y i) as [yi| |]; simpl; try discriminate.
    destruct (yi <? xi); simpl;
      intros H; apply (move_bound_lengths hi lo i xi b b' Hb); auto.
Qed.

Lemma enter_inner_lengths k o : outer_lengths k o -> inner_lengths k (enter_inner o).
Proof.
  intros [Hx Hb]. unfold inner_lengths, enter_inner, np.add, np.sub, np.scale, np.ones.
  cbn [Inner.x Inner.x_high Inner.x_low Inner.x_best].
  rewrite !zip_with_length, !length_map, !repeat_length, Nat.min_id.
  repeat split; auto.
Qed.

Lemma inner_body_lengths k s w s' w' :
  inner_lengths k s -> inner_body s w = (Ret s', w') -> inner_lengths k s'.
Proof.
  intros (Hx & Hhi & Hlo & Hb) H.
  destruct (inner_body_inv _ _ _ _ H) as (_ & box & Hbox & -> & _).
  destruct (narrow_lengths _ _ _ _ _ _ _ _ Hbox) as [L1 L2].
  unfold inner_lengths, np.div_scalar, np.add.
  cbn [Inner.x Inner.x_high Inner.x_low Inner.x_best].
  rewrite length_map, zip_with_length, L1, L2, Hhi, Hlo, Nat.min_id.
  repeat split; auto.
  destruct (_ <? _); [|exact Hb]. intros b E. injection E as <-. exact Hx.
Qed.

(** What lines 141-147 have done when they run to their end. *)
Lemma leave_inner_inv epsilon s w o' w' :
  leave_inner epsilon s w = (Ret o', w') ->
  exists a xb,
    np.argmin [f (Inner.x_low s); f (Inner.x_high s); Inner.fx_best s] = Ret a /\
    Inner.x_best s = Some xb /\
    getitem [Inner.x_low s; Inner.x_high s; xb] a = Ret (Outer.x o') /\
    Outer.x_best o' = Some xb.
Proof.
  unfold leave_inner, call_f, read, np_random_randn, bind, emit, ret, lift, raise.
  cbv beta iota.
  destruct (np.argmin _) as [a| |] eqn:Ea; try discriminate.
  destruct (Inner.x_best s) as [xb|] eqn:Eb; try discriminate.
  destruct (getitem [Inner.x_low s; Inner.x_high s; xb] a) as [x'| |] eqn:Ex;
    try discriminate.
  destruct (Inner.fx s) as [fx0|]; try discriminate.
  destruct (getitem [fx0; _; _; _; _] a) as [fx'| |]; try discriminate.
  destruct (randn _ _) as [g r]. intros H. inversion H; subst.
  exists a, xb. simpl. split; [reflexivity|]. split; [reflexivity|]. split; [exact Ex|reflexivity].
Qed.

Lemma leave_inner_lengths k epsilon s w o' w' :
  inner_lengths k s -> leave_inner epsilon s w = (Ret o', w') -> outer_lengths k o'.
Proof.
  intros (_ & Hhi & Hlo & Hb) H.
  destruct (leave_inner_inv _ _ _ _ _ H) as (a & xb & _ & Exb & Ex & Eb').
  pose proof (Hb _ Exb) as Lb.
  split.
  - unfold getitem in Ex.
    destruct a as [|[|[|[|a]]]]; simpl in Ex; try discriminate;
      injection Ex as <-; assumption.
  - intros b E. rewrite Eb' in E. injection E as <-. exact Lb.
Qed.

Lemma outer_body_lengths k fuel epsilon o w o' w' :
  outer_lengths k o -> outer_body fuel epsilon o w = (Ret o', w') -> outer_lengths k o'.
Proof.
  intros Ho. unfold outer_body, bind.
  destruct (inner_loop fuel epsilon (enter_inner o) w) as [[s| |] w1] eqn:E;
    try discriminate.
  apply leave_inner_lengths.
  apply (while_invariant (inner_lengths k) (inner_cond epsilon) inner_body
           (inner_body_lengths k) fuel _ _ _ _ (enter_inner_lengths k o Ho) E).
Qed.

Lemma outer_loop_lengths fuel epsilon x trust_range w o w' :
  outer_loop fuel epsilon (initial x trust_range) w = (Ret o, w') ->
  outer_lengths (length x) o.
Proof.
  assert (I0 : outer_lengths (length x) (initial x trust_range)).
  { split; [reflexivity|]. discriminate. }
  exact (while_invariant (outer_lengths (length x)) (outer_cond epsilon)
           (outer_body fuel epsilon) (outer_body_lengths (length x) fuel epsilon)
           fuel _ _ _ _ I0).
Qed.

(** X6.  The array that [MultiDimensionalBisection] returns has as many
    entries as the array it was given. *)
Theorem result_has_the_length_of_x fuel x trust_range epsilon w x' w' :
  MultiDimensionalBisection fuel x trust_range epsilon w = (Ret x', w') ->
  length x' = length x.
Proof.
  unfold MultiDimensionalBisection, bind, ret.
  destruct (outer_loop fuel epsilon (initial x trust_range) w) as [[o| |] w1] eqn:E;
    try discriminate.
  intros H. injection H as <- _.
  exact (proj1 (outer_loop_lengths _ _ _ _ _ _ _ E)).
Qed.

(** ** [x_best] before its first assignment *)

Lemma x_best_unbound epsilon o w sw :
  Outer.x_best o = None ->
  inner_visits epsilon o w sw ->
  (Inner.fx_best (fst sw) <? np.inf) = false ->
  Inner.x_best (fst sw) = None.
Proof.
  intros Ho. induction 1 as [|sw sw' [_ Hb] Hv IH].
  - intros _. exact Ho.
  - destruct (inner_body_inv _ _ _ _ Hb) as (_ & box & _ & -> & _). simpl.
    destruct (f (Inner.x (fst sw)) <? Inner.fx_best (fst sw)) eqn:E.
    + intros H. exfalso.
      pose proof (ltb_leb_trans _ _ _ E (leb_infinity _ (fx_best_not_nan _ _ _ _ Hv)))
        as L.
      unfold np.inf in H. congruence.
    + exact IH.
Qed.

(** X10.  While [x_best] has never been assigned (in the first outer
    iteration), an inner loop that ends without having seen a value below [+inf] makes
    line 145 raise [UnboundLocalError], after the two evaluations of lines
    141-142. *)
Theorem no_value_below_inf_raises epsilon o w s w1 :
  Outer.x_best o = None ->
  inner_visits epsilon o w (s, w1) ->
  (Inner.fx_best s <? np.inf) = false ->
  leave_inner epsilon s w1
  = (Raise UnboundLocalError,
     mkWorld (rng w1)
       (Eval_f 142 (Inner.x_high s) :: Eval_f 141 (Inner.x_low s) :: log w1)).
Proof.
  intros Ho Hv Hf. pose proof (x_best_unbound _ _ _ _ Ho Hv Hf) as E. simpl in E.
  unfold leave_inner, call_f, read, bind, emit, ret, lift, raise. cbv beta iota.
  rewrite E. reflexivity.
Qed.

(** ** The first test of the inner loop *)

Lemma Prim2SF_inj a b : Prim2SF a = Prim2SF b -> a = b.
Proof. intros H. now rewrite <- (SF2Prim_Prim2SF a), H, SF2Prim_Prim2SF. Qed.

Lemma square_distance_to_infinity t :
  (t <? infinity) = true -> (t - infinity * 1) * (t - infinity * 1) = infinity.
Proof.
  change (infinity * 1) with infinity. rewrite ltb_spec. intros H. apply Prim2SF_inj.
  rewrite mul_spec, sub_spec.
  change (Prim2SF infinity) with (S754_infinity false) in *.
  destruct (Prim2SF t) as [s|[|]| |s m e]; try discriminate; reflexivity.
Qed.

(** *** [np.sum] adds the entries up, in some order *)

Lemma fold_left_sums_to a : forall u acc,
  sums_to u acc -> sums_to (u ++ a) (fold_left PrimFloat.add a acc).
Proof.
  induction a as [|t a IH]; intros u acc H; simpl.
  - now rewrite app_nil_r.
  - replace (u ++ t :: a) with ((u ++ [t]) ++ a) by now rewrite <- app_assoc.
    apply IH. apply sums_add; [exact H|constructor].
Qed.

Lemma zip_with_add_sums_to parts r :
  Forall2 sums_to parts r ->
  forall b, length b = length r ->
  exists parts', Forall2 sums_to parts' (np.zip_with PrimFloat.add r b)
                 /\ Permutation (concat parts') (concat parts ++ b).
Proof.
  induction 1 as [|p r0 parts r Hp _ IH]; intros b Hb.
  - destruct b; [|discriminate]. exists []. split; constructor.
  - destruct b as [|t b]; [discriminate|]. injection Hb as Hb.
    destruct (IH b Hb) as (parts' & F & P).
    exists ((p ++ [t]) :: parts'). split.
    + constructor; [|exact F]. apply sums_add; [exact Hp|constructor].
    + simpl. rewrite <- !app_assoc. apply Permutation_app_head. simpl.
      rewrite P. apply Permutation_middle.
Qed.

Lemma zip_with_add_length r : forall b,
  length b = length r -> length (np.zip_with PrimFloat.add r b) = length r.
Proof.
  induction r as [|a r IH]; intros [|t b] H; try discriminate; [reflexivity|].
  simpl. f_equal. apply IH. now injection H.
Qed.

Lemma add_groups_sums_to k : forall r a parts,
  Forall2 sums_to parts r -> length r = 8%nat -> (8 * k <= length a)%nat ->
  exists parts',
    Forall2 sums_to parts' (fst (np.add_groups k r a))
    /\ length (fst (np.add_groups k r a)) = 8%nat
    /\ Permutation (concat parts' ++ snd (np.add_groups k r a)) (concat parts ++ a).
Proof.
  induction k as [|k IH]; intros r a parts F Hr Ha.
  - exists parts. simpl. repeat split; [exact F|exact Hr|reflexivity].
  - assert (L : length (firstn 8 a) = length r) by (rewrite length_firstn; lia).
    destruct (zip_with_add_sums_to _ _ F _ L) as (parts1 & F1 & P1).
    destruct (IH (np.zip_with PrimFloat.add r (firstn 8 a)) (skipn 8 a) parts1 F1)
      as (parts' & F' & L' & P').
    + rewrite zip_with_add_length; assumption.
    + rewrite length_skipn. lia.
    + exists parts'. cbn [np.add_groups]. repeat split; try assumption.
      rewrite P', P1, <- app_assoc, firstn_skipn. reflexivity.
Qed.

Lemma add_in_pairs_sums_to parts r :
  Forall2 sums_to parts r -> length r = 8%nat ->
  sums_to (concat parts) (np.add_in_pairs r).
Proof.
  intros F L.
  do 8 (destruct F as [|? ? ? ? ? F]; [discriminate|]).
  destruct F; [|discriminate]. simpl. rewrite app_nil_r.
  match goal with
  | |- sums_to (?a ++ ?b ++ ?c ++ ?d ++ ?e ++ ?f ++ ?g ++ ?h) _ =>
      replace (a ++ b ++ c ++ d ++ e ++ f ++ g ++ h)
        with (((a ++ b) ++ (c ++ d)) ++ ((e ++ f) ++ (g ++ h)))
        by now rewrite <- !app_assoc
  end.
  repeat apply sums_add; assumption.
Qed.

Lemma sum_unrolled_sums_to a : (8 <= length a)%nat -> sums_to a (np.sum_unrolled a).
Proof.
  intros Ha. unfold np.sum_unrolled.
  assert (F : forall u : vec, Forall2 sums_to (map (fun t => [t]) u) u).
  { induction u; constructor; [constructor|assumption]. }
  assert (C : forall u : vec, concat (map (fun t => [t]) u) = u).
  { induction u as [|t u IH]; [reflexivity|]. simpl. now rewrite IH. }
  specialize (F (firstn 8 a)). specialize (C (firstn 8 a)).
  destruct (add_groups_sums_to (length a / 8 - 1) (firstn 8 a) (skipn 8 a) _ F)
    as (parts & F' & L & P).
  - rewrite length_firstn. lia.
  - rewrite length_skipn. pose proof (Nat.Div0.mul_div_le (length a) 8). lia.
  - destruct (np.add_groups _ _ _) as [r rest]. cbn [fst snd] in *.
    apply sums_perm with (concat parts ++ rest).
    + now rewrite P, C, firstn_skipn.
    + apply fold_left_sums_to, add_in_pairs_sums_to; assumption.
Qed.

Lemma pairwise_sum_sums_to depth : forall a, sums_to a (np.pairwise_sum depth a).
Proof.
  assert (Small : forall a, sums_to a (fold_left PrimFloat.add a 0)).
  { intros a. apply (fold_left_sums_to a [] 0). constructor. }
  induction depth as [|depth IH]; intros a; cbn [np.pairwise_sum];
    destruct (Nat.ltb (length a) 8) eqn:E8; try apply Small;
    apply Nat.ltb_ge in E8;
    destruct (Nat.leb (length a) 128); try (apply sum_unrolled_sums_to; exact E8).
  rewrite <- (firstn_skipn (length a / 2 - (length a / 2) mod 8) a) at 1.
  apply sums_add; apply IH.
Qed.

(** [np.sum] adds the entries up. *)
Lemma sum_sums_to v : sums_to v (np.sum v).
Proof. apply (sums_add [] v). constructor. apply pairwise_sum_sums_to. Qed.

Lemma sums_to_all P (v : vec) r :
  P 0 -> (forall a b, P a -> P b -> P (a + b)) ->
  sums_to v r -> Forall P v -> P r.
Proof.
  intros P0 Padd. induction 1 as [|a|u v r s _ IHu _ IHv|u v r Hp _ IH]; intros F.
  - exact P0.
  - now inversion F.
  - apply Forall_app in F. destruct F as [Fu Fv]. apply Padd; [apply IHu|apply IHv]; assumption.
  - apply IH. apply Forall_forall. intros t Ht. rewrite Forall_forall in F.
    apply F. now apply (Permutation_in _ Hp).
Qed.

Lemma sums_to_infinities v r :
  sums_to v r -> Forall (fun t => t = infinity) v ->
  (v = [] /\ r = 0) \/ (v <> [] /\ r = infinity).
Proof.
  induction 1 as [|a|u v r s _ IHu _ IHv|u v r Hp _ IH]; intros F.
  - now left.
  - right. inversion F. split; [discriminate|assumption].
  - apply Forall_app in F. destruct F as [Fu Fv].
    destruct (IHu Fu) as [[-> ->]|[Nu ->]], (IHv Fv) as [[-> ->]|[Nv ->]].
    + now left.
    + right. split; [assumption|reflexivity].
    + right. split; [now rewrite app_nil_r|reflexivity].
    + right. split; [|reflexivity]. intros E. apply app_eq_nil in E.
      destruct E as [E _]. exact (Nu E).
  - destruct IH as [[-> ->]|[N ->]].
    + apply Forall_forall. intros t Ht. rewrite Forall_forall in F.
      apply F. now apply (Permutation_in _ Hp).
    + left. split; [|reflexivity]. now apply Permutation_nil.
    + right. split; [|reflexivity]. intros ->. apply N.
      now apply Permutation_nil, Permutation_sym.
Qed.

Lemma sum_of_infinities k : np.sum (repeat infinity (S k)) = infinity.
Proof.
  destruct (sums_to_infinities _ _ (sum_sums_to (repeat infinity (S k)))) as [[E _]|[_ E]].
  - apply Forall_forall. intros t Ht. now apply repeat_spec in Ht.
  - discriminate.
  - exact E.
Qed.

Lemma distance_to_infinity x :
  x <> [] -> forallb (fun t => t <? np.inf) x = true ->
  d x (np.scale np.inf (np.ones (length x))) = infinity.
Proof.
  intros Hx Hfin. unfold d.
  assert (E : np.square (np.sub x (np.scale np.inf (np.ones (length x))))
              = repeat infinity (length x)).
  { clear Hx. unfold np.square, np.sub, np.scale, np.ones, np.inf in *.
    induction x as [|t x IH]; [reflexivity|]. simpl in Hfin |- *.
    apply andb_true_iff in Hfin. destruct Hfin as [Ht Hfin].
    exact (f_equal2 cons (square_distance_to_infinity t Ht) (IH Hfin)). }
  rewrite E. destruct x as [|t x]; [contradiction|].
  cbn [length]. now rewrite sum_of_infinities.
Qed.

Lemma first_test_passes epsilon o w :
  Outer.x o <> [] -> forallb (fun t => t <? np.inf) (Outer.x o) = true ->
  (epsilon <? np.inf) = true ->
  inner_cond epsilon (enter_inner o) w = (Ret true, w).
Proof.
  intros Hx Hfin He. unfold inner_cond, ret, enter_inner.
  cbn [Inner.x Inner.y]. rewrite (distance_to_infinity _ Hx Hfin).
  unfold np.inf in He. now rewrite He.
Qed.

(** X7.  An outer iteration that starts at a non-empty [x] with no
    coordinate NaN or [+inf], with a tolerance below [+inf], enters its
    inner loop: [y] starts as [inf] in every coordinate, so the first
    [d(x, y)] of line 111 is [inf].  The first step of the inner loop is
    therefore made at [x] itself. *)
Theorem inner_loop_is_entered epsilon o w :
  Outer.x o <> [] -> forallb (fun t => t <? np.inf) (Outer.x o) = true ->
  (epsilon <? np.inf) = true ->
  inner_cond epsilon (enter_inner o) w = (Ret true, w).
Proof.
  intros Hx Hfin He. unfold inner_cond, ret, enter_inner.
  cbn [Inner.x Inner.y]. rewrite (distance_to_infinity _ Hx Hfin).
  unfold np.inf in He. now rewrite He.
Qed.

(** ** An outer iteration does not go up *)

Lemma leb_trans a b c : (a <=? b) = true -> (b <=? c) = true -> (a <=? c) = true.
Proof.
  intros H1 H2. destruct (a <=? c) eqn:E; [reflexivity|].
  destruct (leb_not_nan _ _ H1) as [Ha _]. destruct (leb_not_nan _ _ H2) as [_ Hc].
  pose proof (leb_false_ltb _ _ Ha Hc E) as L.
  pose proof (ltb_leb_false _ _ (ltb_leb_trans _ _ _ L H1)). congruence.
Qed.

Lemma ltb_false_leb a b :
  is_nan a = false -> is_nan b = false -> (a <? b) = false -> (b <=? a) = true.
Proof.
  intros Ha Hb H. destruct (b <=? a) eqn:E; [reflexivity|].
  pose proof (leb_false_ltb _ _ Hb Ha E). congruence.
Qed.

(** The loop of the model visits what [inner_visits] describes. *)
Lemma inner_loop_visits epsilon o w fuel :
  forall sw s' w',
    inner_visits epsilon o w sw ->
    inner_loop fuel epsilon (fst sw) (snd sw) = (Ret s', w') ->
    inner_visits epsilon o w (s', w').
Proof.
  induction fuel as [|fuel IH]; intros [s w0] s' w' Hv; unfold inner_loop; simpl.
  - discriminate.
  - unfold bind at 1. unfold inner_cond at 1, ret at 1.
    destruct (epsilon <? d (Inner.x s) (Inner.y s)) eqn:Hc.
    + unfold bind at 1.
      destruct (inner_body s w0) as [[s1| |] w2] eqn:Hb; try discriminate.
      apply (IH (s1, w2)).
      eapply Relation_Operators.rtn1_trans; [|exact Hv].
      split; simpl; [|exact Hb]. unfold inner_cond, ret. now rewrite Hc.
    + unfold ret. intros H. injection H as <- <-. exact Hv.
Qed.

(** After the first step of an inner loop, [fx_best] is at most the value
    at the point the loop started from. *)
Lemma fx_best_below_start fuel epsilon o w s w1 :
  is_nan (f (Outer.x o)) = false ->
  inner_cond epsilon (enter_inner o) w = (Ret true, w) ->
  inner_loop fuel epsilon (enter_inner o) w = (Ret s, w1) ->
  (Inner.fx_best s <=? f (Outer.x o)) = true.
Proof.
  intros Hf Hc E. destruct fuel as [|fuel]; [discriminate E|].
  unfold inner_loop in E. simpl in E. unfold bind at 1 in E. rewrite Hc in E.
  unfold bind at 1 in E.
  destruct (inner_body (enter_inner o) w) as [[s1| |] w2] eqn:Hb; try discriminate.
  refine (while_invariant (fun t => (Inner.fx_best t <=? f (Outer.x o)) = true)
            (inner_cond epsilon) inner_body _ fuel s1 w2 s w1 _ E).
  - intros t u t' u' Ht Hstep. rewrite (fx_best_step _ _ _ _ Hstep).
    destruct (f (Inner.x t) <? Inner.fx_best t) eqn:C; [|exact Ht].
    apply ltb_leb. exact (ltb_leb_trans _ _ _ C Ht).
  - rewrite (fx_best_step _ _ _ _ Hb). cbn [enter_inner Inner.x Inner.fx_best].
    destruct (f (Outer.x o) <? np.inf) eqn:C.
    + apply leb_refl, Hf.
    + apply ltb_false_leb; [exact Hf|reflexivity|exact C].
Qed.

(** X11.  An outer iteration that starts at a non-empty [x] with no
    coordinate NaN or [+inf] (so that its inner loop is entered) and runs
    to its end hands over a point that is at least as good as the one it
    started from, provided the objective is a number at the starting point
    and at the two corners [x_low], [x_high] the inner loop ends with. *)
Theorem outer_iteration_does_not_go_up fuel epsilon o w s w1 o' w' :
  Outer.x o <> [] -> forallb (fun t => t <? np.inf) (Outer.x o) = true ->
  (epsilon <? np.inf) = true ->
  inner_loop fuel epsilon (enter_inner o) w = (Ret s, w1) ->
  leave_inner epsilon s w1 = (Ret o', w') ->
  is_nan (f (Outer.x o)) = false ->
  is_nan (f (Inner.x_low s)) = false ->
  is_nan (f (Inner.x_high s)) = false ->
  outer_body fuel epsilon o w = (Ret o', w') /\
  (f (Outer.x o') <=? f (Outer.x o)) = true.
Proof.
  intros Hx Hfin He E Hl Hf0 Hflo Hfhi.
  split; [unfold outer_body, bind; now rewrite E|].
  assert (Hv : inner_visits epsilon o w (s, w1)).
  { apply (inner_loop_visits epsilon o w fuel (enter_inner o, w)); [apply rtn1_refl|exact E]. }
  pose proof (fx_best_below_start _ _ _ _ _ _ Hf0 (first_test_passes _ _ _ Hx Hfin He) E)
    as Hbest.
  pose proof (fx_best_not_nan _ _ _ _ Hv) as Hn. cbn [fst] in Hn.
  destruct (leave_inner_inv _ _ _ _ _ Hl) as (a & xb & Ea & Exb & Ex & _).
  rewrite (argmin3 _ _ _ Hflo Hfhi Hn) in Ea. injection Ea as <-.
  assert (Hxb : (Inner.fx_best s <? np.inf) = true -> f xb = Inner.fx_best s).
  { intros L. destruct (x_best_assigned _ _ _ _ Hv) as [I|(xb' & H1 & H2 & _)];
      cbn [fst] in *.
    - rewrite I in L. discriminate L.
    - rewrite H1 in Exb. injection Exb as <-. now rewrite H2. }
  unfold getitem in Ex.
  destruct (f (Inner.x_low s) <=? f (Inner.x_high s)) eqn:E1.
  - destruct (f (Inner.x_low s) <=? Inner.fx_best s) eqn:E2;
      simpl in Ex; injection Ex as <-.
    + exact (leb_trans _ _ _ E2 Hbest).
    + rewrite Hxb; [exact Hbest|].
      apply (ltb_leb_trans _ _ _ (leb_false_ltb _ _ Hflo Hn E2)).
      apply leb_infinity, Hflo.
  - destruct (f (Inner.x_high s) <=? Inner.fx_best s) eqn:E2;
      simpl in Ex; injection Ex as <-.
    + exact (leb_trans _ _ _ E2 Hbest).
    + rewrite Hxb; [exact Hbest|].
      apply (ltb_leb_trans _ _ _ (leb_false_ltb _ _ Hfhi Hn E2)).
      apply leb_infinity, Hfhi.
Qed.

(** ** The length of [x_best] in the restart loop *)

(** X14.  If the generator hands out arrays of the size asked for, the
    [x_best] the search ends with has [len(v1)] entries. *)
Theorem x_best_has_the_length_of_v1 fuel w xb w' :
  (forall lo hi k g, length (fst (uniform lo hi k g)) = k) ->
  main fuel w = (Ret xb, w') -> length xb = length v1.
Proof.
  intros Hu. unfold main. unfold bind at 1.
  destruct (driver_init w) as [[s0| |] w0] eqn:E0; try discriminate.
  unfold bind at 1.
  destruct (driver_loop fuel s0 w0) as [[s| |] w1] eqn:E; try discriminate.
  unfold ret. intros H. injection H as <- _.
  refine (while_invariant (fun t => length (Driver.x_best t) = length v1)
            driver_cond (driver_body fuel) _ fuel s0 w0 s w1 _ E).
  - intros t u t' u' Ht. unfold driver_body, np_random_uniform. cbv zeta.
    unfold bind at 1.
    pose proof (Hu (-2) 2 (length v1) (rng u)) as L0.
    destruct (uniform (-2) 2 (length v1) (rng u)) as [x0 g]. cbn [fst] in L0.
    unfold bind at 1. unfold MultiDimensionalBisection at 1. unfold bind at 1.
    destruct (outer_loop fuel 1e-10 (initial x0 2) _) as [[o| |] w2] eqn:Eo;
      try discriminate.
    pose proof (proj1 (outer_loop_lengths _ _ _ _ _ _ _ Eo)) as L1.
    unfold ret at 1. unfold call_f, bind, emit, ret. simpl.
    intros H. injection H as <- _. simpl.
    destruct (_ <? _); congruence.
  - unfold driver_init, np_random_uniform in E0. unfold bind at 1 in E0.
    destruct (uniform (-2) 2 (length v1) (rng w)) as [x1 g1].
    unfold bind at 1 in E0. cbn [rng] in E0.
    pose proof (Hu (-2) 2 (length v1) g1) as L0.
    destruct (uniform (-2) 2 (length v1) g1) as [x2 g2]. cbn [fst] in L0.
    unfold ret in E0. injection E0 as <- _. exact L0.
Qed.

(** ** The next trust range *)

Lemma round_aux_not_negative m e l :
  SFltb (binary_round_aux prec emax false m e l) (S754_zero false) = false.
Proof.
  unfold binary_round_aux.
  destruct (shr_fexp prec emax m e l) as [mrs e'].
  destruct (shr_fexp prec emax _ e' loc_Exact) as [mrs2 e2].
  destruct (shr_m mrs2); try reflexivity.
  now destruct (Z.leb e2 (emax - prec)).
Qed.

Lemma sqrt_not_negative t : (sqrt t <? 0) = false.
Proof.
  rewrite ltb_spec, sqrt_spec. change (Prim2SF 0) with (S754_zero false).
  unfold SF64sqrt, SFsqrt.
  destruct (Prim2SF t) as [s|[|]| |[|] m e]; try reflexivity.
  destruct (SFsqrt_core_binary prec emax (Z.pos m) e) as [[mz ez] lz].
  apply round_aux_not_negative.
Qed.

(** X12.  The trust range that line 147 hands to the next outer iteration
    is a value of [d]: it is never negative (it is positive, zero or NaN). *)
Theorem trust_range_is_never_negative epsilon s w o' w' :
  leave_inner epsilon s w = (Ret o', w') -> (Outer.trust_range o' <? 0) = false.
Proof.
  unfold leave_inner, call_f, read, np_random_randn, bind, emit, ret, lift, raise.
  cbv beta iota.
  destruct (np.argmin _) as [a| |]; try discriminate.
  destruct (Inner.x_best s) as [xb|]; try discriminate.
  destruct (getitem [Inner.x_low s; Inner.x_high s; xb] a) as [x'| |]; try discriminate.
  destruct (Inner.fx s) as [fx0|]; try discriminate.
  destruct (getitem [fx0; _; _; _; _] a) as [fx'| |]; try discriminate.
  destruct (randn _ _) as [g r]. intros H. injection H as <- _.
  apply sqrt_not_negative.
Qed.

(** ** What a narrowing leaves in the box *)

Lemma setitem_inv {A} (v : list A) i a v' :
  setitem v i a = Ret v' ->
  nth_error v' i = Some a /\ forall j, j <> i -> nth_error v' j = nth_error v j.
Proof.
  revert i v'. induction v as [|b v IH]; intros i v'; simpl; [discriminate|].
  destruct i as [|i].
  - intros H. injection H as <-. split; [reflexivity|].
    intros [|j] Hj; [congruence|reflexivity].
  - destruct (setitem v i a) as [u| |] eqn:E; try discriminate.
    intros H. injection H as <-. destruct (IH _ _ E) as [H1 H2].
    split; [exact H1|]. intros [|j] Hj; [reflexivity|]. simpl. apply H2. congruence.
Qed.

Lemma getitem_inv {A} (v : list A) i a : getitem v i = Ret a -> nth_error v i = Some a.
Proof. unfold getitem. destruct (nth_error v i); [|discriminate]. now intros [= ->]. Qed.

Lemma move_bound_entries (hi lo x : vec) i xi (b b' : vec * vec) :
  nth_error x i = Some xi ->
  narrowed_from hi lo x b ->
  (rbind (setitem (fst b) i xi) (fun u => Ret (u, snd b)) = Ret b' \/
   rbind (setitem (snd b) i xi) (fun u => Ret (fst b, u)) = Ret b') ->
  narrowed_from hi lo x b'.
Proof.
  intros Hx Hb [H|H] j; destruct (Hb j) as [H1 H2].
  - destruct (setitem (fst b) i xi) as [u| |] eqn:E; simpl in H; try discriminate.
    injection H as <-. simpl. split; [|exact H2].
    destruct (setitem_inv _ _ _ _ E) as [Hi Ho].
    destruct (Nat.eq_dec j i) as [->|Hj]; [right; congruence|].
    now rewrite (Ho j Hj).
  - destruct (setitem (snd b) i xi) as [u| |] eqn:E; simpl in H; try discriminate.
    injection H as <-. simpl. split; [exact H1|].
    destruct (setitem_inv _ _ _ _ E) as [Hi Ho].
    destruct (Nat.eq_dec j i) as [->|Hj]; [right; congruence|].
    now rewrite (Ho j Hj).
Qed.

Lemma narrow_entries fx fy dfx x y hi lo box :
  narrow fx fy dfx x y (hi, lo) = Ret box -> narrowed_from hi lo x box.
Proof.
  assert (I0 : narrowed_from hi lo x (hi, lo)) by (intros j; split; left; reflexivity).
  unfold narrow, narrow_by_gradient, narrow_by_position, for_range.
  destruct (fx <=? fy); apply (for_range_from_invariant (narrowed_from hi lo x));
    try exact I0; intros i b b' Hb.
  - destruct (getitem dfx i) as [g| |]; simpl; try discriminate.
    destruct (0 <? g); destruct (getitem x i) as [xi| |] eqn:Ex; simpl;
      try discriminate;
      intros H; apply (move_bound_entries hi lo x i xi b b' (getitem_inv _ _ _ Ex) Hb);
      auto.
  - destruct (getitem x i) as [xi| |] eqn:Ex; simpl; try discriminate.
    destruct (getitem y i) as [yi| |]; simpl; try discriminate.
    destruct (yi <? xi); simpl;
      intros H; apply (move_bound_entries hi lo x i xi b b' (getitem_inv _ _ _ Ex) Hb);
      auto.
Qed.

Lemma all_between_nth lo v hi :
  all_between lo v hi = true ->
  forall i a b c,
    nth_error lo i = Some a -> nth_error v i = Some b -> nth_error hi i = Some c ->
    (a <=? b) = true /\ (b <=? c) = true.
Proof.
  revert v hi. induction lo as [|a0 lo IH]; intros [|b0 v] [|c0 hi] H i a b c;
    destruct i as [|i]; simpl; try discriminate.
  - intros [= <-] [= <-] [= <-]. simpl in H.
    apply andb_true_iff in H. destruct H as [H _].
    now apply andb_true_iff in H.
  - simpl in H. apply andb_true_iff in H. destruct H as [_ H]. now apply IH.
Qed.

(** The box and the iterate have the length of the point the outer
    iteration started from. *)
Lemma visited_box_lengths epsilon o w sw :
  inner_visits epsilon o w sw ->
  length (Inner.x (fst sw)) = length (Outer.x o) /\
  length (Inner.x_high (fst sw)) = length (Outer.x o) /\
  length (Inner.x_low (fst sw)) = length (Outer.x o).
Proof.
  induction 1 as [|sw sw' [_ Hb] _ (Hx & Hhi & Hlo)].
  - unfold enter_inner, np.add, np.sub, np.scale, np.ones. simpl.
    rewrite !zip_with_length, !length_map, !repeat_length, Nat.min_id. auto.
  - destruct (inner_body_inv _ _ _ _ Hb) as (_ & box & Hbox & -> & _).
    destruct (narrow_lengths _ _ _ _ _ _ _ _ Hbox) as [L1 L2].
    unfold np.div_scalar, np.add. simpl.
    rewrite length_map, zip_with_length, L1, L2, Hhi, Hlo, Nat.min_id. auto.
Qed.

(** ** The generator in the inner loop *)

Lemma while_world_invariant {S} (P : World -> Prop) (cond : S -> M bool)
      (body : S -> M S) :
  (forall s w r w', P w -> cond s w = (r, w') -> P w') ->
  (forall s w r w', P w -> body s w = (r, w') -> P w') ->
  forall fuel s w r w', P w -> while_ fuel cond body s w = (r, w') -> P w'.
Proof.
  intros Hc Hb. induction fuel as [|fuel IH]; intros s w r w' Hw; simpl.
  - unfold lift. intros H. injection H as _ <-. exact Hw.
  - unfold bind at 1. destruct (cond s w) as [[c| |] w1] eqn:Ec;
      try (intros H; injection H as _ <-; exact (Hc _ _ _ _ Hw Ec)).
    pose proof (Hc _ _ _ _ Hw Ec) as Hw1. destruct c.
    + unfold bind. destruct (body s w1) as [[s1| |] w2] eqn:Eb;
        try (intros H; injection H as _ <-; exact (Hb _ _ _ _ Hw1 Eb)).
      apply IH. exact (Hb _ _ _ _ Hw1 Eb).
    + unfold ret. intros H. injection H as _ <-. exact Hw1.
Qed.

Lemma inner_body_rng s w r w' : inner_body s w = (r, w') -> rng w' = rng w.
Proof.
  unfold inner_body, assert_, call_f, call_df, bind, emit, ret, raise, lift. simpl.
  destruct (np.all _); simpl.
  - destruct (narrow _ _ _ _ _ _); intros H; injection H as _ <-; reflexivity.
  - intros H. injection H as _ <-. reflexivity.
Qed.

Lemma inner_loop_rng fuel epsilon s w r w' :
  inner_loop fuel epsilon s w = (r, w') -> rng w' = rng w.
Proof.
  apply (while_world_invariant (fun u => rng u = rng w)); [| |reflexivity].
  - intros t u c u' Hu. unfold inner_cond, ret. intros H. now injection H as _ <-.
  - intros t u c u' Hu Hb. now rewrite (inner_body_rng _ _ _ _ Hb).
Qed.

(** X16.  The inner loop draws no random number, and lines 141-147 draw
    once: an outer iteration that runs to its end leaves the generator
    where one call [np.random.randn(len(x))] takes it. *)
Theorem outer_iteration_draws_once fuel epsilon o w o' w' :
  outer_body fuel epsilon o w = (Ret o', w') ->
  rng w' = snd (randn (length (Outer.x o')) (rng w)).
Proof.
  unfold outer_body. unfold bind at 1.
  destruct (inner_loop fuel epsilon (enter_inner o) w) as [[s| |] w1] eqn:E;
    try discriminate.
  rewrite <- (inner_loop_rng _ _ _ _ _ _ E).
  unfold leave_inner, call_f, read, np_random_randn, bind, emit, ret, lift, raise.
  cbv beta iota.
  destruct (np.argmin _) as [a| |]; try discriminate.
  destruct (Inner.x_best s) as [xb|]; try discriminate.
  destruct (getitem [Inner.x_low s; Inner.x_high s; xb] a) as [x'| |]; try discriminate.
  destruct (Inner.fx s) as [fx0|]; try discriminate.
  destruct (getitem [fx0; _; _; _; _] a) as [fx'| |]; try discriminate.
  cbn [rng log]. destruct (randn (length x') (rng w1)) as [g r] eqn:Er.
  intros H. injection H as <- <-. cbn [Outer.x rng]. now rewrite Er.
Qed.
(** * Along a run of [MultiDimensionalBisection] *)

(** ** The outer iterations, counted *)







(** ** The check of the box, step by step *)







(** ** The generator is only drawn from *)
















End Program.

(** * Binary64 rounding, from [SpecFloat] *)

Section Rounding.
Local Open Scope Z_scope.

Local Arguments Z.mul : simpl never.
Local Arguments Z.add : simpl never.
Local Arguments Z.sub : simpl never.
Local Arguments Z.opp : simpl never.
Local Arguments Z.pow : simpl never.
Local Arguments Z.div : simpl never.
Local Arguments Z.max : simpl never.
Local Arguments Z.min : simpl never.

Abbreviation dg m := (Zpos (digits2_pos m)).

(** Powers of two are atoms for [lia]. *)
Ltac pow_atoms :=
  repeat match goal with
         | H : context [2 ^ ?k] |- _ =>
             let p := fresh "p" in set (p := 2 ^ k) in *; clearbody p
         | |- context [2 ^ ?k] =>
             let p := fresh "p" in set (p := 2 ^ k) in *; clearbody p
         end.

Lemma digits2_pos_bounds m : 2 ^ (dg m - 1) <= Zpos m < 2 ^ dg m.
Proof.
  induction m as [p IH|p IH|]; simpl digits2_pos.
  - rewrite Pos2Z.inj_succ, Pos2Z.inj_xI.
    replace (Z.succ (dg p) - 1) with (Z.succ (dg p - 1)) by lia.
    rewrite !Z.pow_succ_r by lia. pow_atoms. lia.
  - rewrite Pos2Z.inj_succ. change (Z.pos p~0) with (2 * Z.pos p).
    replace (Z.succ (dg p) - 1) with (Z.succ (dg p - 1)) by lia.
    rewrite !Z.pow_succ_r by lia. pow_atoms. lia.
  - simpl. lia.
Qed.

Lemma pow2_pos k : 0 <= k -> 0 < 2 ^ k.
Proof. intros. apply Z.pow_pos_nonneg; lia. Qed.

Lemma pow2_le a b : 0 <= a <= b -> 2 ^ a <= 2 ^ b.
Proof. intros. apply Z.pow_le_mono_r; lia. Qed.

Lemma pow2_lt a b : 0 <= a < b -> 2 ^ a < 2 ^ b.
Proof. intros. apply Z.pow_lt_mono_r; lia. Qed.

Lemma pow2_add a b : 0 <= a -> 0 <= b -> 2 ^ (a + b) = 2 ^ a * 2 ^ b.
Proof. intros. apply Z.pow_add_r; lia. Qed.

(** The number of binary digits of a positive number is fixed by its
    size. *)
Lemma digits2_pos_unique m k : 2 ^ (k - 1) <= Zpos m < 2 ^ k -> dg m = k.
Proof.
  intros [Hlo Hhi]. pose proof (digits2_pos_bounds m) as [Dlo Dhi].
  assert (0 < k).
  { destruct (Z_lt_le_dec 0 k); [assumption|].
    assert (2 ^ k <= 2 ^ 0) by (destruct (Z_lt_le_dec k 0);
      [rewrite Z.pow_neg_r by lia; simpl; lia|apply pow2_le; lia]).
    simpl in *. lia. }
  destruct (Z_lt_le_dec (dg m) k).
  - assert (2 ^ dg m <= 2 ^ (k - 1)) by (apply pow2_le; lia). lia.
  - destruct (Z_lt_le_dec k (dg m)); [|lia].
    assert (2 ^ k <= 2 ^ (dg m - 1)) by (apply pow2_le; lia). lia.
Qed.

(** ** Shifting right *)

Lemma iter_pos_nat {A} (h : A -> A) p x :
  iter_pos h p x = Nat.iter (Pos.to_nat p) h x.
Proof.
  revert x. induction p as [p IH|p IH|]; intros x.
  - change (iter_pos h p~1 x) with (iter_pos h p (iter_pos h p (h x))).
    rewrite !IH, Pos2Nat.inj_xI, <- Nat.iter_add.
    replace (2 * Pos.to_nat p)%nat with (Pos.to_nat p + Pos.to_nat p)%nat by lia.
    now rewrite Nat.iter_succ_r.
  - change (iter_pos h p~0 x) with (iter_pos h p (iter_pos h p x)).
    rewrite !IH, Pos2Nat.inj_xO, <- Nat.iter_add.
    now replace (2 * Pos.to_nat p)%nat with (Pos.to_nat p + Pos.to_nat p)%nat by lia.
  - reflexivity.
Qed.

Lemma shr_1_stands_for mrs G T :
  0 < G -> stands_for mrs G T -> stands_for (shr_1 mrs) (2 * G) T.
Proof.
  intros HG (Hm & HT & Hex). destruct mrs as [m r s]. simpl in *.
  unfold stands_for, no_remainder in *. simpl in *.
  destruct m as [|[p|p|]|p]; simpl; try lia.
  - (* 0 *) split; [lia|]. split; [lia|]. intros E. destruct (Hex ltac:(lia)) as [-> ->].
    now split.
  - (* xO *) change (Z.pos p~0) with (2 * Z.pos p) in HT, Hex. split; [lia|]. split; [nia|].
    intros E. destruct (Hex ltac:(nia)) as [-> ->]. now split.
Qed.

Lemma shr_1_m mrs : 0 <= shr_m mrs -> shr_m (shr_1 mrs) = shr_m mrs / 2.
Proof.
  destruct mrs as [m r s]. simpl. intros Hm.
  destruct m as [|[p|p|]|p]; simpl; try lia; try reflexivity.
  - rewrite Pos2Z.inj_xI. apply Z.div_unique with 1; lia.
  - change (Z.pos p~0) with (2 * Z.pos p). apply Z.div_unique with 0; lia.
Qed.

Lemma iter_shr_1_stands_for k mrs G T :
  0 < G -> stands_for mrs G T ->
  stands_for (Nat.iter k shr_1 mrs) (2 ^ Z.of_nat k * G) T /\
  shr_m (Nat.iter k shr_1 mrs) = shr_m mrs / 2 ^ Z.of_nat k.
Proof.
  intros HG H. induction k as [|k [IH1 IH2]].
  - simpl Nat.iter. change (Z.of_nat 0) with 0.
    rewrite Z.pow_0_r, Z.div_1_r, Z.mul_1_l. now split.
  - rewrite Nat2Z.inj_succ, Z.pow_succ_r by lia. simpl Nat.iter. split.
    + replace (2 * 2 ^ Z.of_nat k * G) with (2 * (2 ^ Z.of_nat k * G)) by lia.
      apply shr_1_stands_for; [|exact IH1].
      pose proof (pow2_pos (Z.of_nat k) ltac:(lia)). nia.
    + rewrite shr_1_m by (destruct IH1; assumption).
      rewrite IH2, Z.div_div by (try apply pow2_pos; lia). f_equal. lia.
Qed.

(** ** The order of binary64 numbers *)

Lemma grid_pos e : -1075 <= e -> 0 < grid e.
Proof. intros. apply pow2_pos. lia. Qed.

Lemma grid_add e k : -1075 <= e -> 0 <= k -> grid (e + k) = 2 ^ k * grid e.
Proof.
  intros. unfold grid. replace (e + k + 1075) with (k + (e + 1075)) by lia.
  apply pow2_add; lia.
Qed.

Lemma grid_succ e : -1075 <= e -> grid (e + 1) = 2 * grid e.
Proof. intros. now rewrite grid_add by lia. Qed.

Lemma grid_le e1 e2 : -1075 <= e1 <= e2 -> grid e1 <= grid e2.
Proof. intros. apply pow2_le. lia. Qed.

Lemma BIG_grid : BIG = 2 ^ 53 * grid 971.
Proof. unfold BIG, grid. now rewrite <- pow2_add by lia. Qed.

Lemma valid_finite s m e :
  valid_binary (S754_finite s m e) = true ->
  dg m <= 53 /\ -1074 <= e <= 971 /\ (dg m = 53 \/ e = -1074).
Proof.
  unfold SpecFloat.valid_binary, bounded, canonical_mantissa, fexp, SpecFloat.emin.
  unfold prec, emax. intros H. apply andb_true_iff in H. destruct H as [H1 H2].
  apply Z.eqb_eq in H1. apply Z.leb_le in H2. lia.
Qed.

Lemma mantissa_lt m : dg m <= 53 -> Zpos m < 2 ^ 53.
Proof.
  intros H. pose proof (digits2_pos_bounds m) as [_ Hhi].
  assert (2 ^ dg m <= 2 ^ 53) by (apply pow2_le; lia). lia.
Qed.

Lemma mantissa_ge m : dg m = 53 -> 2 ^ 52 <= Zpos m.
Proof.
  intros H. pose proof (digits2_pos_bounds m) as [Hlo _].
  rewrite H in Hlo. exact Hlo.
Qed.

(** A finite number is below [BIG]. *)
Lemma finite_lt_BIG s m e :
  valid_binary (S754_finite s m e) = true -> 0 < Zpos m * grid e < BIG.
Proof.
  intros H. destruct (valid_finite _ _ _ H) as (Hd & He & _).
  pose proof (mantissa_lt m Hd). pose proof (grid_pos e ltac:(lia)).
  pose proof (grid_le e 971 ltac:(lia)). rewrite BIG_grid.
  pose proof (grid_pos 971 ltac:(lia)). split; [lia|]. pow_atoms. nia.
Qed.

(** Of two finite numbers the one with the smaller exponent is smaller. *)
Lemma exponent_lt m1 e1 m2 e2 s1 s2 :
  valid_binary (S754_finite s1 m1 e1) = true ->
  valid_binary (S754_finite s2 m2 e2) = true ->
  e1 < e2 -> Zpos m1 * grid e1 < Zpos m2 * grid e2.
Proof.
  intros H1 H2 He.
  destruct (valid_finite _ _ _ H1) as (Hd1 & He1 & _).
  destruct (valid_finite _ _ _ H2) as (Hd2 & He2 & Hn2).
  assert (D2 : dg m2 = 53) by lia.
  pose proof (mantissa_lt m1 Hd1). pose proof (mantissa_ge m2 D2).
  pose proof (grid_pos e1 ltac:(lia)).
  pose proof (grid_le (e1 + 1) e2 ltac:(lia)). rewrite grid_succ in * by lia.
  change (2 ^ 53) with (2 * 2 ^ 52) in *. pow_atoms.
  set (g1 := grid e1) in *. set (g2 := grid e2) in *. clearbody g1 g2. nia.
Qed.

Lemma compare_mantissas m1 m2 g :
  0 < g -> Pos.compare_cont Eq m1 m2 = (Zpos m1 * g ?= Zpos m2 * g).
Proof.
  intros Hg. rewrite Pos.compare_cont_spec. simpl Pos.switch_Eq.
  rewrite Pos2Z.inj_compare.
  destruct (Z.compare_spec (Zpos m1) (Zpos m2)) as [E|E|E]; symmetry.
  - rewrite E. apply Z.compare_refl.
  - apply Z.compare_lt_iff. nia.
  - apply Z.compare_gt_iff. nia.
Qed.

(** [ord] is an order embedding of the valid numbers. *)
Lemma SFcompare_ord a b :
  valid_binary a = true -> valid_binary b = true ->
  a <> S754_nan -> b <> S754_nan ->
  SFcompare a b = Some (ord a ?= ord b).
Proof.
  intros Va Vb Na Nb.
  assert (HB : 0 < BIG) by (apply pow2_pos; lia).
  destruct a as [sa|sa| |sa ma ea], b as [sb|sb| |sb mb eb];
    try contradiction; unfold ord; cbn [SFcompare].
  - reflexivity.
  - f_equal. destruct sb; symmetry; [apply Z.compare_gt_iff|apply Z.compare_lt_iff]; lia.
  - pose proof (finite_lt_BIG _ _ _ Vb). f_equal.
    destruct sb; symmetry; [apply Z.compare_gt_iff|apply Z.compare_lt_iff]; lia.
  - f_equal. destruct sa; symmetry; [apply Z.compare_lt_iff|apply Z.compare_gt_iff]; lia.
  - f_equal. destruct sa, sb; symmetry;
      [apply Z.compare_refl|apply Z.compare_lt_iff|apply Z.compare_gt_iff|apply Z.compare_refl];
      lia.
  - pose proof (finite_lt_BIG _ _ _ Vb). f_equal.
    destruct sa, sb; symmetry;
      [apply Z.compare_lt_iff|apply Z.compare_lt_iff|apply Z.compare_gt_iff
      |apply Z.compare_gt_iff]; lia.
  - pose proof (finite_lt_BIG _ _ _ Va). f_equal.
    destruct sa; symmetry; [apply Z.compare_lt_iff|apply Z.compare_gt_iff]; lia.
  - pose proof (finite_lt_BIG _ _ _ Va). f_equal.
    destruct sa, sb; symmetry;
      [apply Z.compare_gt_iff|apply Z.compare_lt_iff|apply Z.compare_gt_iff
      |apply Z.compare_lt_iff]; lia.
  - pose proof (finite_lt_BIG _ _ _ Va). pose proof (finite_lt_BIG _ _ _ Vb).
    f_equal. destruct sa, sb.
    + destruct (Z.compare_spec ea eb) as [E|E|E].
      * subst eb. rewrite (compare_mantissas ma mb (grid ea)) by lia.
        rewrite Z.compare_opp. symmetry. apply Z.compare_antisym.
      * pose proof (exponent_lt _ _ _ _ _ _ Va Vb E).
        symmetry. apply Z.compare_gt_iff. lia.
      * pose proof (exponent_lt _ _ _ _ _ _ Vb Va E).
        symmetry. apply Z.compare_lt_iff. lia.
    + symmetry. apply Z.compare_lt_iff. lia.
    + symmetry. apply Z.compare_gt_iff. lia.
    + destruct (Z.compare_spec ea eb) as [E|E|E].
      * subst eb. now rewrite (compare_mantissas ma mb (grid ea)) by lia.
      * pose proof (exponent_lt _ _ _ _ _ _ Va Vb E).
        symmetry. apply Z.compare_lt_iff. lia.
      * pose proof (exponent_lt _ _ _ _ _ _ Vb Va E).
        symmetry. apply Z.compare_gt_iff. lia.
Qed.

Lemma ord_bounds a : valid_binary a = true -> - BIG <= ord a <= BIG.
Proof.
  intros Va. assert (HB : 0 < BIG) by (apply pow2_pos; lia).
  destruct a as [s|s| |s m e]; unfold ord; try lia.
  - destruct s; lia.
  - pose proof (finite_lt_BIG _ _ _ Va). destruct s; lia.
Qed.

(** Between a point of the grid of step [grid e'] and the next one there
    is no number, if the grid is the one numbers of that size are on. *)
Lemma grid_gap m' e' a :
  0 <= m' < 2 ^ 53 -> -1074 <= e' <= 971 -> (2 ^ 52 <= m' \/ e' = -1074) ->
  valid_binary a = true ->
  m' * grid e' < ord a -> (m' + 1) * grid e' <= ord a.
Proof.
  intros Hm He Hn Va Hlt.
  pose proof (grid_pos e' ltac:(lia)) as Hg.
  assert (HB : 0 < BIG) by (apply pow2_pos; lia).
  destruct a as [s|s| |s ma ea]; unfold ord in *; try nia.
  - destruct s; [nia|]. rewrite BIG_grid.
    pose proof (grid_le e' 971 ltac:(lia)). pow_atoms. nia.
  - pose proof (finite_lt_BIG _ _ _ Va) as [Hpos _].
    destruct s; [nia|].
    destruct (valid_finite _ _ _ Va) as (Hd & Hea & _).
    destruct (Z_lt_le_dec ea e') as [Hlt'|Hge].
    + exfalso. assert (M : 2 ^ 52 <= m') by lia.
      pose proof (mantissa_lt ma Hd).
      pose proof (grid_le (ea + 1) e' ltac:(lia)). rewrite grid_succ in * by lia.
      pose proof (grid_pos ea ltac:(lia)).
      change (2 ^ 53) with (2 * 2 ^ 52) in *. pow_atoms.
      set (g1 := grid ea) in *. set (g2 := grid e') in *. clearbody g1 g2. nia.
    + assert (E : grid ea = 2 ^ (ea - e') * grid e').
      { replace ea with (e' + (ea - e')) at 1 by lia. apply grid_add; lia. }
      rewrite E in *.
      pose proof (pow2_pos (ea - e') ltac:(lia)) as Hp.
      set (q := 2 ^ (ea - e')) in *. clearbody q.
      set (g := grid e') in *. clearbody g.
      assert (H1 : m' < Z.pos ma * q).
      { apply Z.mul_lt_mono_pos_r with g; [exact Hg|]. lia. }
      replace (Z.pos ma * (q * g)) with (Z.pos ma * q * g) by ring.
      apply Z.mul_le_mono_nonneg_r; lia.
Qed.

(** ** Rounding to nearest, ties to even *)

Abbreviation cexp mx ex := (fexp prec emax (Zdigits2 mx + ex)).

Lemma cexp_eq mx ex : cexp mx ex = Z.max (Zdigits2 mx + ex - 53) (-1074).
Proof. reflexivity. Qed.

Lemma shr_fexp_spec mx ex lx T :
  0 <= mx -> -1074 <= ex -> ex <= cexp mx ex ->
  stands_for (shr_record_of_loc mx lx) (grid ex) T ->
  exists mrs,
    shr_fexp prec emax mx ex lx = (mrs, cexp mx ex) /\
    stands_for mrs (grid (cexp mx ex)) T /\
    shr_m mrs = mx / 2 ^ (cexp mx ex - ex) /\
    shr_m mrs < 2 ^ 53 /\ (2 ^ 52 <= shr_m mrs \/ cexp mx ex = -1074).
Proof.
  intros Hm He Hc Hst. unfold shr_fexp, shr.
  assert (Hmx : shr_m (shr_record_of_loc mx lx) = mx) by (destruct lx as [|[]]; reflexivity).
  assert (Hsize : mx / 2 ^ (cexp mx ex - ex) < 2 ^ 53 /\
                  (2 ^ 52 <= mx / 2 ^ (cexp mx ex - ex) \/ cexp mx ex = -1074)).
  { rewrite cexp_eq in *. destruct mx as [|p|p]; [| |lia].
    - cbn [Zdigits2] in *. rewrite Z.div_0_l by (apply Z.pow_nonzero; lia).
      split; [apply pow2_pos; lia|lia].
    - cbn [Zdigits2] in *. pose proof (digits2_pos_bounds p) as [Dlo Dhi].
      destruct (Z_lt_le_dec 53 (dg p)) as [Hbig|Hsmall].
      + replace (Z.max (dg p + ex - 53) (-1074)) with (dg p + ex - 53) by lia.
        replace (dg p + ex - 53 - ex) with (dg p - 53) by lia.
        pose proof (pow2_pos (dg p - 53) ltac:(lia)).
        replace (dg p - 1) with (52 + (dg p - 53)) in Dlo by lia.
        replace (dg p) with (53 + (dg p - 53)) in Dhi by lia.
        rewrite pow2_add in Dlo, Dhi by lia. split.
        * apply Z.div_lt_upper_bound; lia.
        * left. apply Z.div_le_lower_bound; lia.
      + assert (E : Z.max (dg p + ex - 53) (-1074) = ex) by lia.
        rewrite E, Z.sub_diag, Z.pow_0_r, Z.div_1_r.
        assert (2 ^ dg p <= 2 ^ 53) by (apply pow2_le; lia).
        split; [lia|].
        destruct (Z.eq_dec (dg p) 53) as [D|D]; [left; rewrite D in Dlo; exact Dlo|right; lia]. }
  destruct (cexp mx ex - ex) as [|n|n] eqn:En; [| |lia].
  - assert (Ec : cexp mx ex = ex) by lia. rewrite Ec in *.
    exists (shr_record_of_loc mx lx).
    split; [reflexivity|]. split; [exact Hst|]. rewrite Hmx.
    rewrite Z.pow_0_r, Z.div_1_r in *. split; [reflexivity|exact Hsize].
  - assert (Ec : ex + Z.pos n = cexp mx ex) by lia. rewrite Ec.
    exists (iter_pos shr_1 n (shr_record_of_loc mx lx)).
    rewrite iter_pos_nat.
    destruct (iter_shr_1_stands_for (Pos.to_nat n) _ _ _ (grid_pos ex ltac:(lia)) Hst)
      as [H1 H2].
    rewrite positive_nat_Z, Hmx in *.
    replace (2 ^ Z.pos n * grid ex) with (grid (cexp mx ex)) in H1
      by (rewrite <- Ec; apply grid_add; lia).
    split; [reflexivity|]. split; [exact H1|]. rewrite H2.
    split; [reflexivity|exact Hsize].
Qed.

Lemma round_nearest_even_spec mrs :
  0 <= shr_m mrs ->
  shr_m mrs <= round_nearest_even (shr_m mrs) (loc_of_shr_record mrs) <= shr_m mrs + 1 /\
  (no_remainder mrs -> round_nearest_even (shr_m mrs) (loc_of_shr_record mrs) = shr_m mrs).
Proof.
  intros Hm. destruct mrs as [m [|] [|]]; unfold no_remainder; cbn.
  - split; [lia|]. intros []; discriminate.
  - split; [destruct (Z.even m); lia|]. intros []; discriminate.
  - split; [lia|]. intros []; discriminate.
  - split; [lia|]. reflexivity.
Qed.

Lemma Zdigits2_le m k : 0 <= m < 2 ^ k -> 0 <= k -> Zdigits2 m <= k.
Proof.
  intros Hm Hk. destruct m as [|p|p]; cbn [Zdigits2]; [lia| |lia].
  pose proof (digits2_pos_bounds p) as [Dlo _].
  destruct (Z_lt_le_dec k (dg p)); [|lia].
  assert (2 ^ k <= 2 ^ (dg p - 1)) by (apply pow2_le; lia). lia.
Qed.

Lemma Zdigits2_ge m k : 2 ^ (k - 1) <= m -> 0 < k -> k <= Zdigits2 m.
Proof.
  intros Hm Hk. pose proof (pow2_pos (k - 1) ltac:(lia)).
  destruct m as [|p|p]; cbn [Zdigits2]; [lia| |lia].
  pose proof (digits2_pos_bounds p) as [_ Dhi].
  destruct (Z_lt_le_dec (dg p) k); [|lia].
  assert (2 ^ dg p <= 2 ^ (k - 1)) by (apply pow2_le; lia). lia.
Qed.

(** What [binary_round_aux] returns for a number [T] that [mx], [lx] stand
    for on the grid of [ex]: a number [r] that is not NaN, of value the
    grid point [R] just below or just above [T] (below if [T] is on the
    grid), or infinite when that point is beyond the finite numbers. *)
Lemma round_aux_value mx ex lx T :
  0 <= mx -> -1074 <= ex -> ex <= cexp mx ex ->
  stands_for (shr_record_of_loc mx lx) (grid ex) T ->
  exists m' m'',
    let c := cexp mx ex in
    let r := binary_round_aux prec emax false mx ex lx in
    0 <= m' < 2 ^ 53 /\ (2 ^ 52 <= m' \/ c = -1074) /\ -1074 <= c /\
    m' * grid c <= T < (m' + 1) * grid c /\
    (m'' = m' \/ (m'' = m' + 1 /\ m' * grid c < T)) /\
    r <> S754_nan /\
    ord r <= m'' * grid c /\ ord r <= BIG /\
    ((ord r = m'' * grid c /\ c <= 971) \/ ord r = BIG).
Proof.
  intros Hm He Hc Hst. unfold binary_round_aux.
  destruct (shr_fexp_spec mx ex lx T Hm He Hc Hst) as (mrs & E1 & St1 & _ & Lt1 & N1).
  rewrite E1. set (c := cexp mx ex) in *.
  assert (Hc0 : -1074 <= c) by (unfold c; rewrite cexp_eq; lia).
  destruct St1 as (Pos1 & Bd1 & Ex1).
  destruct (round_nearest_even_spec mrs Pos1) as [Rd Rex].
  set (m' := shr_m mrs) in *.
  set (m'' := round_nearest_even m' (loc_of_shr_record mrs)) in *.
  pose proof (grid_pos c ltac:(lia)) as Hg.
  assert (Hup : m'' = m' \/ (m'' = m' + 1 /\ m' * grid c < T)).
  { destruct (Z.eq_dec m'' m') as [E|E]; [now left|right].
    split; [lia|]. destruct (Z.eq_dec T (m' * grid c)) as [ET|ET]; [|lia].
    elim E. apply Rex, Ex1, ET. }
  assert (Hc2 : (m'' < 2 ^ 53 /\ cexp m'' c = c) \/
                (m'' = 2 ^ 53 /\ cexp m'' c = c + 1)).
  { destruct (Z_lt_le_dec m'' (2 ^ 53)) as [Hlt|Hge].
    - left. split; [exact Hlt|]. rewrite cexp_eq.
      pose proof (Zdigits2_le m'' 53 ltac:(lia) ltac:(lia)).
      destruct N1 as [N1|N1]; [|lia].
      pose proof (Zdigits2_ge m'' 53 ltac:(simpl; lia) ltac:(lia)). lia.
    - right. assert (E : m'' = 2 ^ 53) by lia. split; [exact E|].
      rewrite cexp_eq, E. change (Zdigits2 (2 ^ 53)) with 54. lia. }
  destruct (shr_fexp_spec m'' c loc_Exact (m'' * grid c)) as (mrs2 & E2 & St2 & M2 & Lt2 & N2).
  { lia. } { exact Hc0. } { destruct Hc2 as [[_ ->]|[_ ->]]; lia. }
  { unfold stands_for, no_remainder. cbn [shr_record_of_loc shr_m shr_r shr_s].
    split; [lia|]. split; [lia|]. now split. }
  rewrite E2. destruct St2 as (Pos2 & _ & _).
  assert (Val : shr_m mrs2 * grid (cexp m'' c) = m'' * grid c).
  { rewrite M2. destruct Hc2 as [[_ ->]|[E ->]].
    - now rewrite Z.sub_diag, Z.pow_0_r, Z.div_1_r.
    - replace (c + 1 - c) with 1 by lia. rewrite E, grid_succ by lia.
      replace (2 ^ 53 / 2 ^ 1) with (2 ^ 52) by reflexivity.
      change (2 ^ 53) with (2 ^ 52 * 2). ring. }
  exists m', m''. cbv zeta.
  split; [lia|]. split; [exact N1|]. split; [exact Hc0|]. split; [exact Bd1|].
  split; [exact Hup|].
  assert (Hc2le : c <= cexp m'' c) by (destruct Hc2 as [[_ ->]|[_ ->]]; lia).
  assert (HB : 0 < BIG) by (apply pow2_pos; lia).
  destruct (shr_m mrs2) as [|p|p] eqn:Em3; [| |lia].
  - split; [discriminate|]. unfold ord. lia.
  - change (emax - prec) with 971.
    destruct (Z.leb_spec (cexp m'' c) 971) as [Hfin|Hinf].
    + split; [discriminate|]. unfold ord. rewrite Val.
      split; [apply Z.le_refl|]. split; [|left; split; [reflexivity|lia]].
      rewrite <- Val. rewrite BIG_grid.
      pose proof (grid_le (cexp m'' c) 971 ltac:(lia)).
      pose proof (grid_pos (cexp m'' c) ltac:(lia)).
      pow_atoms. nia.
    + split; [discriminate|]. unfold ord. split; [|split; [lia|now right]].
      rewrite <- Val. destruct N2 as [N2|N2]; [|lia].
      pose proof (grid_le 972 (cexp m'' c) ltac:(lia)).
      replace BIG with (2 ^ 52 * grid 972)
        by (unfold BIG, grid; now rewrite <- pow2_add by lia).
      pose proof (grid_pos 972 ltac:(lia)). pow_atoms. nia.
Qed.

(** [binary_round_aux] keeps the order with every number: a number below
    [T] is below the result, a number above [T] is above it. *)
Lemma round_aux_bracket mx ex lx T :
  0 <= mx -> -1074 <= ex -> ex <= cexp mx ex ->
  stands_for (shr_record_of_loc mx lx) (grid ex) T ->
  binary_round_aux prec emax false mx ex lx <> S754_nan /\
  forall a, valid_binary a = true ->
    (ord a <= T -> ord a <= ord (binary_round_aux prec emax false mx ex lx)) /\
    (T <= ord a -> ord (binary_round_aux prec emax false mx ex lx) <= ord a).
Proof.
  intros Hm He Hc Hst.
  destruct (round_aux_value mx ex lx T Hm He Hc Hst)
    as (m' & m'' & Hm' & N & Hc0 & Bd & Hup & Hnan & Hle & HleB & Hval).
  cbv zeta in *. set (c := cexp mx ex) in *.
  set (r := binary_round_aux prec emax false mx ex lx) in *.
  split; [exact Hnan|]. intros a Va.
  pose proof (ord_bounds a Va) as Ba.
  pose proof (grid_pos c ltac:(lia)) as Hg.
  split; intros Ha.
  - destruct Hval as [[Hv Hc971]|Hv]; [|lia].
    destruct (Z_lt_le_dec (m' * grid c) (ord a)) as [Hgt|Hsmall].
    + pose proof (grid_gap m' c a Hm' ltac:(lia) N Va Hgt). lia.
    + rewrite Hv. destruct Hup as [->|[-> _]]; nia.
  - destruct Hup as [E|[E Hgt]].
    + rewrite E in *. lia.
    + destruct (Z_le_gt_dec c 971) as [Hc971|Hc972].
      * pose proof (grid_gap m' c a Hm' ltac:(lia) N Va ltac:(lia)).
        rewrite E in *. lia.
      * destruct N as [N|N]; [|lia].
        pose proof (grid_le 972 c ltac:(lia)).
        assert (BIG <= m' * grid c).
        { replace BIG with (2 ^ 52 * grid 972)
            by (unfold BIG, grid; now rewrite <- pow2_add by lia).
          pose proof (grid_pos 972 ltac:(lia)). pow_atoms. nia. }
        lia.
Qed.

(** ** Signs *)

Lemma round_aux_opp mx ex lx :
  binary_round_aux prec emax true mx ex lx
  = SFopp (binary_round_aux prec emax false mx ex lx).
Proof.
  unfold binary_round_aux.
  destruct (shr_fexp prec emax mx ex lx) as [mrs e'].
  destruct (shr_fexp prec emax _ e' loc_Exact) as [mrs2 e2].
  destruct (shr_m mrs2); try reflexivity.
  now destruct (Z.leb e2 (emax - prec)).
Qed.

Lemma ord_opp a : ord (SFopp a) = - ord a.
Proof. destruct a as [s|s| |s m e]; cbn [SFopp ord]; try destruct s; cbn [negb]; lia. Qed.

Lemma valid_opp a : valid_binary (SFopp a) = valid_binary a.
Proof. now destruct a. Qed.

Lemma opp_nan a : SFopp a = S754_nan -> a = S754_nan.
Proof. now destruct a. Qed.

Lemma brackets_opp r T : brackets r T -> brackets (SFopp r) (- T).
Proof.
  intros [Hn Hb]. split.
  - intros E. apply Hn. now apply opp_nan.
  - intros a Va. rewrite ord_opp.
    destruct (Hb (SFopp a)) as [H1 H2]; [now rewrite valid_opp|].
    rewrite ord_opp in H1, H2. split; intros; lia.
Qed.

Lemma brackets_exact r : valid_binary r = true -> r <> S754_nan -> brackets r (ord r).
Proof. intros V N. split; [exact N|]. intros a Va. split; intros; lia. Qed.

(** ** [binary_round] and [binary_normalize] *)

Lemma shift_pos_value d m : Zpos (Pos.iter xO m d) = 2 ^ Zpos d * Zpos m.
Proof. exact (shift_pos_correct d m). Qed.

Lemma shl_align_spec mx ex ex' :
  -1074 <= ex' -> -1074 <= ex ->
  -1074 <= snd (shl_align mx ex ex') /\
  (ex' <= ex -> snd (shl_align mx ex ex') = ex') /\
  (ex <= ex' -> shl_align mx ex ex' = (mx, ex)) /\
  Zpos (fst (shl_align mx ex ex')) * grid (snd (shl_align mx ex ex')) = Zpos mx * grid ex.
Proof.
  intros He' He. unfold shl_align.
  destruct (ex' - ex) as [|d|d] eqn:Ed; cbn [fst snd].
  - repeat split; lia.
  - repeat split; lia.
  - split; [lia|]. split; [reflexivity|]. split; [lia|].
    rewrite shift_pos_value.
    replace ex with (ex' + Zpos d) by lia. rewrite grid_add by lia. ring.
Qed.

Lemma round_brackets m e :
  -1074 <= e -> brackets (binary_round prec emax false m e) (Zpos m * grid e).
Proof.
  intros He. unfold binary_round.
  set (c := fexp prec emax (dg m + e)).
  assert (Hc : c = Z.max (dg m + e - 53) (-1074)) by reflexivity.
  destruct (shl_align_spec m e c ltac:(lia) He) as (H1 & H2 & H3 & H4).
  destruct (shl_align m e c) as [mz ez] eqn:Es. cbn [fst snd] in *.
  rewrite <- H4.
  assert (Hpre : ez <= cexp (Zpos mz) ez).
  { destruct (Z_le_gt_dec e c) as [Hle|Hgt].
    - specialize (H3 Hle). inversion H3; subst. change (Zdigits2 (Z.pos m)) with (dg m). lia.
    - specialize (H2 ltac:(lia)). subst ez.
      assert (D : dg mz = dg m + (e - c)).
      { apply digits2_pos_unique.
        pose proof (digits2_pos_bounds m) as [Dlo Dhi].
        assert (G : grid e = 2 ^ (e - c) * grid c).
        { replace e with (c + (e - c)) at 1 by lia. apply grid_add; lia. }
        rewrite G in H4. pose proof (grid_pos c ltac:(lia)) as Hg.
        assert (E : Zpos mz = Zpos m * 2 ^ (e - c)).
        { apply Z.mul_reg_r with (grid c); [lia|]. rewrite H4. ring. }
        rewrite E.
        replace (dg m + (e - c) - 1) with (dg m - 1 + (e - c)) by lia.
        rewrite !pow2_add by lia.
        pose proof (pow2_pos (e - c) ltac:(lia)). pow_atoms. nia. }
      rewrite cexp_eq. change (Zdigits2 (Z.pos mz)) with (dg mz). lia. }
  apply round_aux_bracket; try lia.
  unfold stands_for, no_remainder. cbn [shr_record_of_loc shr_m shr_r shr_s].
  pose proof (grid_pos ez ltac:(lia)).
  split; [lia|]. split; [lia|]. now split.
Qed.

Lemma normalize_brackets M e :
  -1074 <= e -> brackets (binary_normalize prec emax M e false) (M * grid e).
Proof.
  intros He. destruct M as [|m|m]; cbn [binary_normalize].
  - split; [discriminate|]. intros a Va. cbn [ord]. split; intros; lia.
  - now apply round_brackets.
  - unfold binary_round. destruct (shl_align _ _ _) as [mz ez] eqn:Es.
    rewrite round_aux_opp.
    replace (Z.neg m * grid e) with (- (Zpos m * grid e)) by lia.
    apply brackets_opp.
    pose proof (round_brackets m e He) as H. unfold binary_round in H.
    now rewrite Es in H.
Qed.

(** ** Sum and difference of two finite numbers *)

Lemma brackets_value r T :
  valid_binary r = true -> r <> S754_nan -> ord r = T -> brackets r T.
Proof. intros V N <-. now apply brackets_exact. Qed.

Lemma aligned_value s m e ez :
  -1074 <= ez <= e ->
  cond_Zopp s (Zpos (fst (shl_align m e ez))) * grid ez
  = ord (S754_finite s m e).
Proof.
  intros He. destruct (shl_align_spec m e ez ltac:(lia) ltac:(lia)) as (_ & H2 & _ & H4).
  rewrite H2 in H4 by lia. cbn [ord]. destruct s; cbn [cond_Zopp]; lia.
Qed.

Lemma add_brackets x y :
  valid_binary x = true -> valid_binary y = true ->
  finite_or_zero x = true -> finite_or_zero y = true ->
  brackets (SFadd prec emax x y) (ord x + ord y).
Proof.
  intros Vx Vy Fx Fy.
  destruct x as [sx|sx| |sx mx ex], y as [sy|sy| |sy my ey]; try discriminate;
    cbn [SFadd].
  - destruct sx, sy; apply brackets_value; try reflexivity; discriminate.
  - apply brackets_value; [exact Vy|discriminate|cbn [ord]; lia].
  - apply brackets_value; [exact Vx|discriminate|cbn [ord]; lia].
  - destruct (valid_finite _ _ _ Vx) as (_ & Hex & _).
    destruct (valid_finite _ _ _ Vy) as (_ & Hey & _).
    rewrite <- (aligned_value sx mx ex (Z.min ex ey)) by lia.
    rewrite <- (aligned_value sy my ey (Z.min ex ey)) by lia.
    rewrite <- Z.mul_add_distr_r. apply normalize_brackets. lia.
Qed.

Lemma sub_brackets x y :
  valid_binary x = true -> valid_binary y = true ->
  finite_or_zero x = true -> finite_or_zero y = true ->
  brackets (SFsub prec emax x y) (ord x - ord y).
Proof.
  intros Vx Vy Fx Fy.
  destruct x as [sx|sx| |sx mx ex], y as [sy|sy| |sy my ey]; try discriminate;
    cbn [SFsub].
  - destruct sx, sy; apply brackets_value; try reflexivity; discriminate.
  - apply brackets_value; [exact Vy|discriminate|].
    cbn [ord]. destruct sy; cbn [negb]; lia.
  - apply brackets_value; [exact Vx|discriminate|cbn [ord]; lia].
  - destruct (valid_finite _ _ _ Vx) as (_ & Hex & _).
    destruct (valid_finite _ _ _ Vy) as (_ & Hey & _).
    rewrite <- (aligned_value sx mx ex (Z.min ex ey)) by lia.
    rewrite <- (aligned_value sy my ey (Z.min ex ey)) by lia.
    rewrite <- Z.mul_sub_distr_r. apply normalize_brackets. lia.
Qed.

(** ** Half of a finite number *)

Lemma div_core_two s mx ex :
  valid_binary (S754_finite s mx ex) = true ->
  exists q r,
    SFdiv_core_binary prec emax (Zpos mx) ex (Zpos 4503599627370496) (-51)
    = (q, Z.max (dg mx + ex - 55) (-1074),
       if Z.eqb r 0 then loc_Exact else loc_Inexact (Z.compare (2 * r) (2 ^ 52))) /\
    Zpos mx * 2 ^ (ex + 51 - Z.max (dg mx + ex - 55) (-1074)) = q * 2 ^ 52 + r /\
    0 <= r < 2 ^ 52.
Proof.
  intros V. destruct (valid_finite _ _ _ V) as (Hd & He & Hn).
  unfold SFdiv_core_binary. cbn [Zdigits2].
  change (dg 4503599627370496) with 53.
  assert (E : Z.min (fexp prec emax (dg mx + ex - (53 + -51))) (ex - -51)
              = Z.max (dg mx + ex - 55) (-1074)).
  { unfold fexp, SpecFloat.emin, prec, emax. lia. }
  rewrite E. set (e' := Z.max (dg mx + ex - 55) (-1074)).
  destruct (ex - -51 - e') as [|p|p] eqn:Es; try lia.
  rewrite Z.shiftl_mul_pow2 by lia.
  pose proof (Z_div_mod (Zpos mx * 2 ^ Zpos p) (Zpos 4503599627370496) eq_refl) as H.
  destruct (Z.div_eucl _ _) as [q r]. exists q, r.
  change (Z.pos 4503599627370496) with (2 ^ 52) in *.
  replace (ex + 51 - e') with (Zpos p) by lia.
  split; [|split; [lia|tauto]].
  unfold new_location. change (Z.even (2 ^ 52)) with true. cbv iota.
  unfold new_location_even. reflexivity.
Qed.

Lemma half_brackets x :
  valid_binary x = true -> finite_or_zero x = true ->
  exists T, ord x = 2 * T /\ brackets (SFdiv prec emax x two) T.
Proof.
  intros V F. destruct x as [s| | |s mx ex]; try discriminate.
  - exists 0. split; [reflexivity|]. cbn [SFdiv two].
    apply brackets_value; [reflexivity|discriminate|reflexivity].
  - destruct (valid_finite _ _ _ V) as (Hd & He & Hn).
    destruct (div_core_two s mx ex V) as (q & r & Ecore & Eq & Hr).
    unfold two. cbn [SFdiv]. rewrite Ecore. clear Ecore.
    set (e' := Z.max (dg mx + ex - 55) (-1074)) in *.
    set (T := Zpos mx * grid (ex - 1)).
    pose proof (grid_pos e' ltac:(lia)) as Hg.
    pose proof (digits2_pos_bounds mx) as [Dlo Dhi].
    assert (Hq : 0 <= q) by (pose proof (pow2_pos (ex + 51 - e') ltac:(lia)); pow_atoms; nia).
    assert (Key : T * 2 ^ 52 = (q * 2 ^ 52 + r) * grid e').
    { rewrite <- Eq. unfold T, grid.
      rewrite <- !Z.mul_assoc, <- !pow2_add by lia. do 2 f_equal. lia. }
    assert (St : stands_for
                   (shr_record_of_loc q
                      (if Z.eqb r 0 then loc_Exact
                       else loc_Inexact (Z.compare (2 * r) (2 ^ 52))))
                   (grid e') T).
    { assert (Hm : forall l, shr_m (shr_record_of_loc q l) = q)
        by (intros [|[]]; reflexivity).
      unfold stands_for. rewrite Hm. split; [exact Hq|].
      split; [pow_atoms; nia|].
      intros ET. assert (R0 : r = 0) by (pow_atoms; nia).
      rewrite R0. cbn. now split. }
    assert (Pre : e' <= cexp q e').
    { rewrite cexp_eq. destruct (Z.eq_dec e' (-1074)) as [E|E]; [lia|].
      assert (Ee : e' = dg mx + ex - 55) by lia.
      assert (D : dg mx = 53) by lia.
      replace (ex + 51 - e') with 53 in Eq by lia.
      rewrite D in Dlo. change (53 - 1) with 52 in Dlo.
      pose proof (Zdigits2_ge q 54 ltac:(change (54 - 1) with 53;
        change (2 ^ 53) with (2 * 2 ^ 52) in *; pow_atoms; nia) ltac:(lia)).
      lia. }
    pose proof (round_aux_bracket q e' _ T Hq ltac:(lia) Pre St) as B.
    assert (Eord : Zpos mx * grid ex = 2 * T).
    { unfold T. replace ex with (ex - 1 + 1) at 1 by lia. rewrite grid_succ by lia. ring. }
    destruct s; cbn [xorb ord].
    + exists (- T). split; [lia|]. rewrite round_aux_opp. now apply brackets_opp.
    + exists T. split; [lia|]. exact B.
Qed.

(** ** Twice a finite number *)

Lemma valid_finite_intro s m e :
  dg m <= 53 -> -1074 <= e <= 971 -> (dg m = 53 \/ e = -1074) ->
  valid_binary (S754_finite s m e) = true.
Proof.
  intros Hd He Hn.
  unfold SpecFloat.valid_binary, bounded, canonical_mantissa, fexp, SpecFloat.emin.
  unfold prec, emax. apply andb_true_iff. split; [apply Z.eqb_eq|apply Z.leb_le]; lia.
Qed.

(** Twice a finite number is a number, or it is beyond the finite
    numbers. *)
Lemma double_representable a :
  valid_binary a = true -> finite_or_zero a = true ->
  (exists b, valid_binary b = true /\ ord b = 2 * ord a) \/
  BIG <= 2 * ord a \/ 2 * ord a <= - BIG.
Proof.
  intros V F. destruct a as [s| | |s m e]; try discriminate.
  - left. exists (S754_zero s). now split.
  - destruct (valid_finite _ _ _ V) as (Hd & He & Hn).
    destruct (Z.eq_dec (dg m) 53) as [D|D].
    + destruct (Z.eq_dec e 971) as [E|E].
      * right. subst e. pose proof (mantissa_ge m D).
        pose proof (grid_pos 971 ltac:(lia)). cbn [ord]. rewrite BIG_grid.
        change (2 ^ 53) with (2 * 2 ^ 52). destruct s; [right|left]; pow_atoms; nia.
      * left. exists (S754_finite s m (e + 1)). split.
        -- apply valid_finite_intro; lia.
        -- cbn [ord]. rewrite grid_succ by lia. destruct s; ring.
    + left. exists (S754_finite s (m~0) e). split.
      * apply valid_finite_intro; try lia.
        cbn [digits2_pos]. rewrite Pos2Z.inj_succ. lia.
      * cbn [ord]. change (Z.pos m~0) with (2 * Z.pos m). destruct s; ring.
Qed.

(** ** Comparisons through [ord] *)

Lemma SFleb_ord a b :
  valid_binary a = true -> valid_binary b = true ->
  a <> S754_nan -> b <> S754_nan ->
  SFleb a b = (ord a <=? ord b).
Proof.
  intros Va Vb Na Nb. unfold SFleb. rewrite (SFcompare_ord a b Va Vb Na Nb).
  unfold Z.leb. now destruct (ord a ?= ord b).
Qed.

Lemma SFltb_ord a b :
  valid_binary a = true -> valid_binary b = true ->
  a <> S754_nan -> b <> S754_nan ->
  SFltb a b = (ord a <? ord b).
Proof.
  intros Va Vb Na Nb. unfold SFltb. rewrite (SFcompare_ord a b Va Vb Na Nb).
  unfold Z.ltb. now destruct (ord a ?= ord b).
Qed.

Lemma finite_or_zero_ord a :
  valid_binary a = true -> finite_or_zero a = true -> - BIG < ord a < BIG.
Proof.
  intros V F. assert (HB : 0 < BIG) by (apply pow2_pos; lia).
  destruct a as [s| | |s m e]; try discriminate; cbn [ord]; [lia|].
  pose proof (finite_lt_BIG _ _ _ V). destruct s; lia.
Qed.

Lemma ord_finite_or_zero a :
  a <> S754_nan -> - BIG < ord a < BIG -> finite_or_zero a = true.
Proof.
  intros N H. destruct a as [s|s| |s m e]; try reflexivity; try contradiction.
  cbn [ord] in H. destruct s; lia.
Qed.

(** ** The midpoint of two numbers *)

Lemma add_finite x y :
  finite_or_zero (SFadd prec emax x y) = true ->
  finite_or_zero x = true /\ finite_or_zero y = true.
Proof.
  destruct x as [sx|sx| |sx mx ex], y as [sy|sy| |sy my ey]; cbn [SFadd finite_or_zero];
    try (intros; now split); try discriminate.
  - destruct sx, sy; discriminate.
Qed.

Lemma midpoint_between lo hi :
  valid_binary lo = true -> valid_binary hi = true ->
  lo <> S754_nan -> hi <> S754_nan ->
  ord lo <= ord hi ->
  valid_binary (SFadd prec emax hi lo) = true ->
  finite_or_zero (SFadd prec emax hi lo) = true ->
  SFdiv prec emax (SFadd prec emax hi lo) two <> S754_nan /\
  ord lo <= ord (SFdiv prec emax (SFadd prec emax hi lo) two) <= ord hi.
Proof.
  intros Vlo Vhi Nlo Nhi Hle Vs Fs.
  destruct (add_finite _ _ Fs) as [Fhi Flo].
  destruct (add_brackets hi lo Vhi Vlo Fhi Flo) as [_ Bs].
  set (s := SFadd prec emax hi lo) in *.
  pose proof (finite_or_zero_ord s Vs Fs) as Os.
  assert (L : 2 * ord lo <= ord s).
  { destruct (double_representable lo Vlo Flo) as [(b & Vb & Eb)|[H|H]].
    - rewrite <- Eb. apply (Bs b Vb). lia.
    - exfalso. destruct (Bs (S754_infinity false) eq_refl) as [H1 _].
      cbn [ord] in H1. lia.
    - lia. }
  assert (U : ord s <= 2 * ord hi).
  { destruct (double_representable hi Vhi Fhi) as [(b & Vb & Eb)|[H|H]].
    - rewrite <- Eb. apply (Bs b Vb). lia.
    - lia.
    - exfalso. destruct (Bs (S754_infinity true) eq_refl) as [_ H2].
      cbn [ord] in H2. lia. }
  destruct (half_brackets s Vs Fs) as (T & ET & Nm & Bm).
  split; [exact Nm|]. split.
  - apply (Bm lo Vlo). lia.
  - apply (Bm hi Vhi). lia.
Qed.

(** ** A positive difference *)

Lemma positive_gap hi lo :
  valid_binary hi = true -> valid_binary lo = true ->
  valid_binary (SFsub prec emax hi lo) = true ->
  SFltb (S754_zero false) (SFsub prec emax hi lo) = true ->
  hi <> S754_nan /\ lo <> S754_nan /\ ord lo < ord hi.
Proof.
  intros Vhi Vlo Vd H.
  destruct (finite_or_zero hi) eqn:Fhi; [destruct (finite_or_zero lo) eqn:Flo|].
  - destruct (sub_brackets hi lo Vhi Vlo Fhi Flo) as [Nd Bd].
    rewrite (SFltb_ord (S754_zero false) _ eq_refl Vd ltac:(discriminate) Nd) in H.
    apply Z.ltb_lt in H. cbn [ord] in H.
    split; [now destruct hi|]. split; [now destruct lo|].
    destruct (Z_lt_le_dec (ord lo) (ord hi)) as [L|L]; [exact L|exfalso].
    destruct (Bd (S754_zero false) eq_refl) as [_ B2]. cbn [ord] in B2. lia.
  - pose proof (finite_or_zero_ord hi Vhi Fhi) as Oh.
    destruct lo as [sl|sl| |sl ml el]; try discriminate.
    + destruct hi as [sh|sh| |sh mh eh]; try discriminate;
        destruct sl; try discriminate H;
        (split; [discriminate|split; [discriminate|cbn [ord] in *; lia]]).
    + destruct hi; discriminate.
  - destruct hi as [sh|sh| |sh mh eh]; try discriminate.
    assert (HB : 0 < BIG) by (apply pow2_pos; lia).
    destruct lo as [sl|sl| |sl ml el]; try discriminate H;
      destruct sh; try discriminate H;
      destruct sl; try discriminate H;
      (split; [discriminate|split; [discriminate|]]);
      try (cbn [ord]; lia);
      match goal with
      | V : valid_binary ?a = true |- ord ?a < _ =>
          pose proof (finite_or_zero_ord a V eq_refl) as O; cbn [ord] in *; lia
      end.
Qed.

Lemma div_two_finite s :
  finite_or_zero (SFdiv prec emax s two) = true -> finite_or_zero s = true.
Proof. destruct s; try reflexivity; discriminate. Qed.

(** The midpoint as line 139 computes it. *)
Lemma midpoint_spec hi lo :
  valid_binary hi = true -> valid_binary lo = true ->
  valid_binary (SFsub prec emax hi lo) = true ->
  valid_binary (SFadd prec emax hi lo) = true ->
  valid_binary (SFdiv prec emax (SFadd prec emax hi lo) two) = true ->
  SFltb (S754_zero false) (SFsub prec emax hi lo) = true ->
  finite_or_zero (SFdiv prec emax (SFadd prec emax hi lo) two) = true ->
  SFleb lo (SFdiv prec emax (SFadd prec emax hi lo) two) = true /\
  SFleb (SFdiv prec emax (SFadd prec emax hi lo) two) hi = true.
Proof.
  intros Vhi Vlo Vd Vs Vm Hgap Fm.
  destruct (positive_gap hi lo Vhi Vlo Vd Hgap) as (Nhi & Nlo & Hlt).
  pose proof (div_two_finite _ Fm) as Fs.
  destruct (midpoint_between lo hi Vlo Vhi Nlo Nhi ltac:(lia) Vs Fs) as (Nm & L & U).
  rewrite (SFleb_ord _ _ Vlo Vm Nlo Nm), (SFleb_ord _ _ Vm Vhi Nm Nhi).
  split; apply Z.leb_le; assumption.
Qed.

(** The first box, lines 105-106: [x - r <= x <= x + r] whenever the
    difference of the two bounds is positive. *)
Lemma first_box_spec x r :
  valid_binary x = true -> valid_binary r = true ->
  valid_binary (SFadd prec emax x r) = true ->
  valid_binary (SFsub prec emax x r) = true ->
  valid_binary (SFsub prec emax (SFadd prec emax x r) (SFsub prec emax x r)) = true ->
  SFltb (S754_zero false)
    (SFsub prec emax (SFadd prec emax x r) (SFsub prec emax x r)) = true ->
  SFleb (SFsub prec emax x r) x = true /\ SFleb x (SFadd prec emax x r) = true.
Proof.
  intros Vx Vr Vhi Vlo Vd Hgap.
  destruct (positive_gap _ _ Vhi Vlo Vd Hgap) as (Nhi & Nlo & Hlt).
  assert (HB : 0 < BIG) by (apply pow2_pos; lia).
  assert (Nx : x <> S754_nan) by (intros ->; now apply Nhi).
  assert (Nr : r <> S754_nan) by (intros ->; apply Nhi; now destruct x).
  rewrite (SFleb_ord _ _ Vlo Vx Nlo Nx), (SFleb_ord _ _ Vx Vhi Nx Nhi).
  rewrite !Z.leb_le.
  destruct (finite_or_zero x) eqn:Fx; [destruct (finite_or_zero r) eqn:Fr|].
  - destruct (add_brackets x r Vx Vr Fx Fr) as [_ Bhi].
    destruct (sub_brackets x r Vx Vr Fx Fr) as [_ Blo].
    destruct (Bhi x Vx) as [H1 H2]. destruct (Blo x Vx) as [H3 H4].
    destruct (Z_lt_le_dec (ord r) 0) as [R|R]; lia.
  - pose proof (finite_or_zero_ord x Vx Fx) as Ox.
    destruct r as [sr|sr| |sr mr er]; try discriminate; try contradiction.
    destruct x as [sx|sx| |sx mx ex]; try discriminate;
      destruct sr; cbn [SFadd SFsub ord negb] in *; lia.
  - exfalso. destruct x as [sx|sx| |sx mx ex]; try discriminate; try contradiction.
    destruct r as [sr|sr| |sr mr er]; try contradiction;
      destruct sx; try destruct sr; cbn in Nhi, Nlo, Hlt; try contradiction; lia.
Qed.

End Rounding.

(** ** The operations of [float] *)

Section Floats.
Local Open Scope float_scope.

Lemma is_finite_spec t : is_finite t = true -> finite_or_zero (Prim2SF t) = true.
Proof.
  unfold is_finite, PrimFloat.is_nan, is_infinity.
  rewrite !eqb_spec, abs_spec.
  destruct (Prim2SF t) as [s|s| |s m e]; try reflexivity; intros H.
  - destruct s; vm_compute in H; discriminate.
  - vm_compute in H. discriminate.
Qed.

Lemma midpoint_between_bounds hi lo :
  (0 <? hi - lo) = true -> is_finite ((hi + lo) / 2) = true ->
  (lo <=? (hi + lo) / 2) = true /\ ((hi + lo) / 2 <=? hi) = true.
Proof.
  intros Hgap Hfin. apply is_finite_spec in Hfin.
  rewrite ltb_spec, sub_spec in Hgap. rewrite !leb_spec.
  rewrite div_spec, add_spec in *.
  apply midpoint_spec; try apply Prim2SF_valid.
  - rewrite <- sub_spec. apply Prim2SF_valid.
  - rewrite <- add_spec. apply Prim2SF_valid.
  - change two with (Prim2SF 2). rewrite <- add_spec, <- div_spec. apply Prim2SF_valid.
  - exact Hgap.
  - exact Hfin.
Qed.

Lemma first_box_between x r :
  (0 <? (x + r) - (x - r)) = true ->
  (x - r <=? x) = true /\ (x <=? x + r) = true.
Proof.
  intros Hgap. rewrite ltb_spec, !sub_spec, add_spec in Hgap.
  rewrite !leb_spec, sub_spec, add_spec.
  apply first_box_spec; try apply Prim2SF_valid.
  - rewrite <- add_spec. apply Prim2SF_valid.
  - rewrite <- sub_spec. apply Prim2SF_valid.
  - rewrite <- add_spec, <- !sub_spec. apply Prim2SF_valid.
  - exact Hgap.
Qed.

End Floats.

(** ** Lines 105-106 and 139: the iterate and the box *)

Lemma first_box_in_box x r :
  np.all (np.gt_scalar (np.sub (np.add x (np.scale r (np.ones (length x))))
                               (np.sub x (np.scale r (np.ones (length x))))) 0) = true ->
  all_between (np.sub x (np.scale r (np.ones (length x)))) x
    (np.add x (np.scale r (np.ones (length x)))) = true.
Proof.
  unfold np.all, np.gt_scalar, np.sub, np.add, np.scale, np.ones.
  induction x as [|a x IH]; [reflexivity|]. simpl. intros H.
  apply andb_true_iff in H. destruct H as [H1 H2].
  destruct (first_box_between a (r * 1) H1) as [L U].
  rewrite L, U. simpl. apply IH. exact H2.
Qed.

Lemma midpoint_in_box hi lo :
  np.all (np.gt_scalar (np.sub hi lo) 0) = true ->
  forallb is_finite (np.div_scalar (np.add hi lo) 2) = true ->
  all_between lo (np.div_scalar (np.add hi lo) 2) hi = true.
Proof.
  unfold np.all, np.gt_scalar, np.sub, np.add, np.div_scalar.
  revert lo. induction hi as [|h hi IH]; intros [|l lo]; try reflexivity.
  simpl. intros H F.
  apply andb_true_iff in H. destruct H as [H1 H2].
  apply andb_true_iff in F. destruct F as [F1 F2].
  destruct (midpoint_between_bounds h l H1 F1) as [L U].
  rewrite L, U. simpl. apply IH; [exact H2|exact F2].
Qed.

(** C3.  At every inner-loop step whose check of line 113 passes and whose
    iterate [x] is finite in every coordinate, [x] lies in the box:
    [x_low[i] <= x[i] <= x_high[i]] for all [i].  The first iterate of an
    outer iteration is the centre of the first box; every later one is the
    midpoint [(x_high + x_low)/2] of the box it is tested against, and it is
    finite unless the sum overflows. *)
Theorem finite_iterate_in_box f df RandomState epsilon o w sw :
  inner_visits f df RandomState epsilon o w sw ->
  box_ok (fst sw) = true ->
  finite_iterate (fst sw) = true ->
  in_box (fst sw) = true.
Proof.
  intros Hv. destruct Hv as [|sw0 sw [_ Hb] _]; intros Hok Hfin.
  - apply first_box_in_box. exact Hok.
  - destruct (inner_body_inv _ _ _ _ _ _ _ Hb) as (_ & box & _ & E & _).
    unfold in_box, box_ok, finite_iterate. unfold box_ok in Hok.
    unfold finite_iterate in Hfin. rewrite E in Hok, Hfin |- *.
    apply midpoint_in_box; [exact Hok|exact Hfin].
Qed.


(** * The distance [d] *)

(** ** Magnitudes *)

Lemma abs_opp a : SFabs (SFopp a) = SFabs a.
Proof. now destruct a. Qed.

Lemma normalize_abs M e :
  SFabs (binary_normalize prec emax (Z.opp M) e false)
  = SFabs (binary_normalize prec emax M e false).
Proof.
  destruct M as [|m|m]; cbn [Z.opp binary_normalize]; try reflexivity;
    unfold binary_round; destruct (shl_align _ _ _) as [mz ez];
    rewrite round_aux_opp, abs_opp; reflexivity.
Qed.

(** [|a - b| = |b - a|], whatever the rounding. *)
Lemma sub_swap_abs a b :
  SFabs (SFsub prec emax a b) = SFabs (SFsub prec emax b a).
Proof.
  destruct a as [sa|sa| |sa ma ea], b as [sb|sb| |sb mb eb];
    try reflexivity; try (destruct sa, sb; reflexivity).
  cbn [SFsub]. rewrite (Z.min_comm eb ea).
  set (A := cond_Zopp sa _). set (B := cond_Zopp sb _).
  replace (B - A)%Z with (Z.opp (A - B)) by lia. symmetry. apply normalize_abs.
Qed.

Lemma mul_abs a : SFmul prec emax a a = SFmul prec emax (SFabs a) (SFabs a).
Proof. destruct a as [s|s| |s m e]; try reflexivity; now destruct s. Qed.

Lemma sub_self a :
  finite_or_zero a = true -> SFsub prec emax a a = S754_zero false.
Proof.
  destruct a as [s|s| |s m e]; try discriminate; intros _; cbn [SFsub].
  - now destruct s.
  - now rewrite Z.sub_diag.
Qed.

Lemma abs_sub_comm a b : abs (a - b) = abs (b - a).
Proof. apply Prim2SF_inj. rewrite !abs_spec, !sub_spec. apply sub_swap_abs. Qed.

Lemma square_abs t : t * t = abs t * abs t.
Proof. apply Prim2SF_inj. rewrite !mul_spec, !abs_spec. apply mul_abs. Qed.

Lemma sub_self_zero t : is_finite t = true -> t - t = 0.
Proof.
  intros H. apply Prim2SF_inj. rewrite sub_spec.
  exact (sub_self _ (is_finite_spec _ H)).
Qed.

Lemma square_of_abs v : np.square (np.abs v) = np.square v.
Proof.
  unfold np.square, np.abs. rewrite map_map. apply map_ext.
  intros t. symmetry. apply square_abs.
Qed.

(** ** Symmetry *)

Lemma abs_sub_swap x y : np.abs (np.sub x y) = np.abs (np.sub y x).
Proof.
  unfold np.abs, np.sub. revert y.
  induction x as [|a x IH]; intros [|b y]; try reflexivity.
  simpl. now rewrite abs_sub_comm, IH.
Qed.

Lemma broadcast_sub_swap x y :
  rbind (broadcast_sub x y) (fun v => Ret (np.abs v))
  = rbind (broadcast_sub y x) (fun v => Ret (np.abs v)).
Proof.
  unfold broadcast_sub. rewrite (Nat.eqb_sym (length y) (length x)).
  destruct (Nat.eqb (length x) (length y)) eqn:E.
  - simpl. now rewrite abs_sub_swap.
  - apply Nat.eqb_neq in E.
    assert (M : forall a v, np.abs (map (fun t => a - t) v)
                            = np.abs (map (fun t => t - a) v)).
    { intros a v. unfold np.abs. rewrite !map_map. apply map_ext.
      intros t. apply abs_sub_comm. }
    destruct x as [|a [|a' x]], y as [|b [|b' y]];
      try (exfalso; apply E; reflexivity);
      cbv beta iota delta [rbind]; try reflexivity;
      now rewrite M.
Qed.

(** Each norm looks at the differences through their magnitudes only. *)
Lemma d_norm_magnitudes x y n :
  d_norm x y n
  = match n with
    | Norm_int 2 =>
        rbind (rbind (broadcast_sub x y) (fun v => Ret (np.abs v)))
          (fun u => Ret (Some (sqrt (np.sum (np.square u)))))
    | Norm_int 1 =>
        rbind (rbind (broadcast_sub x y) (fun v => Ret (np.abs v)))
          (fun u => Ret (Some (np.sum u)))
    | Norm_str s =>
        if String.eqb s "inf"
        then rbind (rbind (broadcast_sub x y) (fun v => Ret (np.abs v)))
               (fun u => rbind (np.max u) (fun m => Ret (Some m)))
        else Ret None
    | Norm_int _ => Ret None
    end.
Proof.
  unfold d_norm.
  destruct n as [[|[[|[]|]|[]| ]|]|s]; try reflexivity;
    try (destruct (String.eqb s "inf"); [|reflexivity]);
    destruct (broadcast_sub x y) as [v| |]; try reflexivity.
  simpl. now rewrite square_of_abs.
Qed.

(** X1.  [d(x, y, norm)] and [d(y, x, norm)] end in the same way: with the same
    number, the same [None] or the same exception. *)
Theorem d_is_symmetric x y n : d_norm x y n = d_norm y x n.
Proof.
  rewrite !d_norm_magnitudes, (broadcast_sub_swap x y). reflexivity.
Qed.

(** ** Sign *)

Lemma abs_not_negative t : (abs t <? 0) = false.
Proof.
  rewrite ltb_spec, abs_spec. change (Prim2SF 0) with (S754_zero false).
  now destruct (Prim2SF t).
Qed.

Lemma SFadd_not_negative a b :
  SFltb a (S754_zero false) = false -> SFltb b (S754_zero false) = false ->
  SFltb (SFadd prec emax a b) (S754_zero false) = false.
Proof.
  destruct a as [sa|[|]| |[|] ma ea], b as [sb|[|]| |[|] mb eb];
    try discriminate; try reflexivity; try (destruct sa; reflexivity);
    try (destruct sa, sb; reflexivity).
  intros _ _. cbn [SFadd cond_Zopp Z.add binary_normalize]. unfold binary_round.
  destruct (shl_align _ _ _) as [mz ez]. apply round_aux_not_negative.
Qed.

Lemma add_not_negative a b :
  (a <? 0) = false -> (b <? 0) = false -> (a + b <? 0) = false.
Proof. rewrite !ltb_spec, add_spec. apply SFadd_not_negative. Qed.

(** Numbers none of which is negative add up to a number that is not
    negative, whatever the order and the bracketing of the additions. *)
Lemma sums_to_not_negative v r :
  sums_to v r -> Forall (fun t => (t <? 0) = false) v -> (r <? 0) = false.
Proof.
  apply (sums_to_all (fun t => (t <? 0) = false)); [reflexivity|].
  exact add_not_negative.
Qed.

Lemma abs_all_not_negative v : Forall (fun t => (t <? 0) = false) (np.abs v).
Proof.
  unfold np.abs. apply Forall_forall. intros t Ht.
  apply in_map_iff in Ht. destruct Ht as (u & <- & _). apply abs_not_negative.
Qed.

Lemma fold_maximum_in v : forall a, In (fold_left np.maximum v a) (a :: v).
Proof.
  induction v as [|b v IH]; intros a; simpl; [now left|].
  assert (M : np.maximum a b = a \/ np.maximum a b = b).
  { unfold np.maximum. destruct (_ || _); auto. }
  destruct (IH (np.maximum a b)) as [H|H]; [|now right; right].
  destruct M as [M|M]; rewrite M in H |- *; [left|right; left]; exact H.
Qed.

(** X2.  Whatever the norm, a distance that [d] returns is not negative: it is
    positive, zero or NaN.  This does not hang on the order in which
    [np.sum] adds: the magnitudes of the differences add up to a number
    that is not negative in whatever order and bracketing they are added. *)
Theorem d_is_never_negative x y n r :
  d_norm x y n = Ret (Some r) ->
  (r <? 0) = false /\
  forall v s, broadcast_sub x y = Ret v -> sums_to (np.abs v) s -> (s <? 0) = false.
Proof.
  intros Hd. split;
    [|intros v s _ Hs; exact (sums_to_not_negative _ _ Hs (abs_all_not_negative v))].
  revert Hd. unfold d_norm.
  destruct n as [[|[[|[]|]|[]| ]|]|s]; try discriminate;
    try (destruct (String.eqb s "inf"); [|discriminate]);
    destruct (broadcast_sub x y) as [v| |]; try discriminate; simpl.
  - intros H. injection H as <-. apply sqrt_not_negative.
  - intros H. injection H as <-.
    apply (sums_to_not_negative (np.abs v)); [apply sum_sums_to|].
    apply abs_all_not_negative.
  - destruct (np.max (np.abs v)) as [m| |] eqn:E; try discriminate.
    intros H. injection H as <-.
    unfold np.max in E. destruct (np.abs v) as [|a u] eqn:Ev; [discriminate|].
    injection E as <-.
    pose proof (abs_all_not_negative v) as F. rewrite Ev in F.
    rewrite Forall_forall in F. apply F. apply fold_maximum_in.
Qed.

(** ** The distance of a point to itself *)

Lemma sub_self_zeros x :
  forallb is_finite x = true -> np.sub x x = repeat 0 (length x).
Proof.
  unfold np.sub. induction x as [|t x IH]; [reflexivity|]. simpl. intros H.
  apply andb_true_iff in H. destruct H as [Ht H].
  now rewrite (sub_self_zero t Ht), (IH H).
Qed.

Lemma sum_zeros k : np.sum (repeat 0 k) = 0.
Proof.
  apply (sums_to_all (fun t => t = 0) (repeat 0 k)); [reflexivity| |apply sum_sums_to|].
  - now intros a b -> ->.
  - apply Forall_forall. intros t Ht. now apply repeat_spec in Ht.
Qed.

Lemma max_zeros k : fold_left np.maximum (repeat 0 k) 0 = 0.
Proof. induction k as [|k IH]; [reflexivity|exact IH]. Qed.

Lemma map_zeros (g : float -> float) k : g 0 = 0 -> map g (repeat 0 k) = repeat 0 k.
Proof. intros H. induction k as [|k IH]; [reflexivity|]. simpl. now rewrite H, IH. Qed.

(** X3.  With norm [2] or [1], and with norm ['inf'] on a non-empty array,
    the distance of an array of finite numbers to itself is [0.0]. *)
Theorem d_of_a_point_to_itself x n :
  forallb is_finite x = true ->
  n = Norm_int 2 \/ n = Norm_int 1 \/ (n = Norm_str "inf" /\ x <> []) ->
  d_norm x x n = Ret (Some 0).
Proof.
  intros Hx Hn. unfold d_norm, broadcast_sub.
  rewrite Nat.eqb_refl, (sub_self_zeros x Hx).
  destruct Hn as [->|[->|[-> Hne]]]; simpl.
  - unfold np.square. rewrite map_zeros by reflexivity.
    now rewrite sum_zeros.
  - unfold np.abs. rewrite map_zeros by reflexivity.
    now rewrite sum_zeros.
  - destruct x as [|t x]; [contradiction|].
    unfold np.abs. rewrite map_zeros by reflexivity. simpl. now rewrite max_zeros.
Qed.

(** ** What [d] returns *)

Lemma broadcast_sub_outcome x y :
  if broadcastable x y
  then exists v, broadcast_sub x y = Ret v /\ (v = [] <-> x = [] \/ y = [])
  else broadcast_sub x y = Raise ValueError.
Proof.
  unfold broadcastable, broadcast_sub.
  destruct (Nat.eqb (length x) (length y)) eqn:E.
  - apply Nat.eqb_eq in E. cbn [orb]. eexists. split; [reflexivity|].
    unfold np.sub. destruct x as [|a x], y as [|b y]; try discriminate; simpl.
    + tauto.
    + split; [discriminate|]. intros [H|H]; discriminate.
  - apply Nat.eqb_neq in E.
    destruct x as [|a [|a' x]], y as [|b [|b' y]]; simpl in *;
      try (exfalso; apply E; reflexivity); try reflexivity;
      eexists; (split; [reflexivity|]); split; try discriminate; auto;
      intros [H|H]; discriminate.
Qed.

(** X20.  [d] returns [None], and no error, exactly when [norm] is none of
    [2], [1] and ['inf']. *)
Theorem d_returns_None_iff x y n :
  d_norm x y n = Ret None <->
  n <> Norm_int 2 /\ n <> Norm_int 1 /\ n <> Norm_str "inf".
Proof.
  unfold d_norm. split.
  - destruct n as [[|[[|[]|]|[]| ]|]|s];
      try (intros _; repeat split; discriminate).
    + destruct (broadcast_sub x y); discriminate.
    + destruct (broadcast_sub x y); discriminate.
    + destruct (String.eqb s "inf") eqn:E.
      * destruct (broadcast_sub x y) as [v| |]; try discriminate.
        simpl. destruct (np.max (np.abs v)); discriminate.
      * intros _. repeat split; try discriminate.
        intros [= ->]. now rewrite String.eqb_refl in E.
  - intros (H2 & H1 & Hinf).
    destruct n as [[|[[|[]|]|[]| ]|]|s]; try reflexivity; try contradiction.
    destruct (String.eqb s "inf") eqn:E; [|reflexivity].
    apply String.eqb_eq in E. subst s. contradiction.
Qed.

(** X21.  [d] returns a number exactly when the two lengths broadcast (they
    are equal, or one of them is one) and [norm] is [2], [1], or ['inf']
    with two non-empty arrays.  In the remaining cases with a known norm it
    raises [ValueError]: with a known norm there is no third outcome. *)
Theorem d_returns_number_iff x y n :
  ((exists r, d_norm x y n = Ret (Some r)) <->
   broadcastable x y = true /\
   (n = Norm_int 2 \/ n = Norm_int 1 \/ (n = Norm_str "inf" /\ x <> [] /\ y <> [])))
  /\ (n = Norm_int 2 \/ n = Norm_int 1 \/ n = Norm_str "inf" ->
      (exists r, d_norm x y n = Ret (Some r)) \/ d_norm x y n = Raise ValueError).
Proof.
  pose proof (broadcast_sub_outcome x y) as B. unfold d_norm.
  assert (Known : n = Norm_int 2 \/ n = Norm_int 1 \/ n = Norm_str "inf" ->
                  (exists r, d_norm x y n = Ret (Some r))
                  \/ d_norm x y n = Raise ValueError).
  { intros Hn. unfold d_norm. destruct (broadcastable x y).
    - destruct B as (v & Ev & _).
      destruct Hn as [->|[->| ->]]; rewrite ?String.eqb_refl, Ev; simpl.
      + left. eexists; reflexivity.
      + left. eexists; reflexivity.
      + destruct v as [|a v]; [right; reflexivity|left; eexists; reflexivity].
    - destruct Hn as [->|[->| ->]]; rewrite ?String.eqb_refl, B; right; reflexivity. }
  split; [|exact Known]. clear Known. split.
  - intros [r H].
    destruct n as [[|[[|[]|]|[]| ]|]|s]; try discriminate.
    + destruct (broadcastable x y); [split; auto|]. rewrite B in H. discriminate.
    + destruct (broadcastable x y); [split; auto|]. rewrite B in H. discriminate.
    + destruct (String.eqb s "inf") eqn:E; [|discriminate].
      apply String.eqb_eq in E. subst s.
      destruct (broadcastable x y); [|rewrite B in H; discriminate].
      split; [reflexivity|]. right. right. split; [reflexivity|].
      destruct B as (v & Ev & Hv). rewrite Ev in H. simpl in H.
      destruct v as [|a v]; [discriminate|].
      split; intros ->; assert (a :: v = []) by (apply Hv; auto); discriminate.
  - intros [Hb Hn]. rewrite Hb in B. destruct B as (v & Ev & Hv).
    destruct Hn as [->|[->|(-> & Hx & Hy)]]; rewrite ?String.eqb_refl, Ev; simpl.
    + eexists; reflexivity.
    + eexists; reflexivity.
    + destruct v as [|a v]; [exfalso; destruct (proj1 Hv eq_refl); contradiction|].
      simpl. eexists; reflexivity.
Qed.

(** * More about the box *)

(** ** A step narrows the box *)

Lemma visited_in_box f df RandomState epsilon o w sw :
  inner_visits f df RandomState epsilon o w sw ->
  box_ok (fst sw) = true -> finite_iterate (fst sw) = true ->
  in_box (fst sw) = true.
Proof.
  intros Hv. destruct Hv as [|sw0 sw [_ Hb] _]; intros Hok Hfin.
  - apply first_box_in_box. exact Hok.
  - destruct (inner_body_inv _ _ _ _ _ _ _ Hb) as (_ & box & _ & E & _).
    unfold in_box, box_ok, finite_iterate. unfold box_ok in Hok.
    unfold finite_iterate in Hfin. rewrite E in Hok, Hfin |- *.
    apply midpoint_in_box; [exact Hok|exact Hfin].
Qed.

(** A step made at a finite [x] keeps the box inside any bounds [lo0], [hi0]
    it was inside of. *)
Lemma step_keeps_inside f df RandomState epsilon o w sw sw' :
  inner_visits f df RandomState epsilon o w sw ->
  inner_step f df RandomState epsilon sw sw' ->
  finite_iterate (fst sw) = true ->
  forall i lo0 hi0 lo hi,
    nth_error (Inner.x_low (fst sw)) i = Some lo ->
    nth_error (Inner.x_high (fst sw)) i = Some hi ->
    (lo0 <=? lo) = true -> (hi <=? hi0) = true ->
    exists lo' hi',
      nth_error (Inner.x_low (fst sw')) i = Some lo' /\
      nth_error (Inner.x_high (fst sw')) i = Some hi' /\
      (lo0 <=? lo') = true /\ (lo' <=? hi') = true /\ (hi' <=? hi0) = true.
Proof.
  intros Hv [_ Hb] Hfin i lo0 hi0 lo hi Hlo Hhi A1 A2.
  destruct (inner_body_inv _ _ _ _ _ _ _ Hb) as (Hok & box & Hbox & E & _).
  pose proof (visited_in_box _ _ _ _ _ _ _ Hv Hok Hfin) as Hin.
  destruct (visited_box_lengths _ _ _ _ _ _ _ Hv) as (Lx & Lhi & Llo).
  destruct (narrow_lengths _ _ _ _ _ _ _ _ Hbox) as [L1 L2].
  assert (Hi : (i < length (Inner.x_low (fst sw)))%nat).
  { apply nth_error_Some. congruence. }
  destruct (nth_error (Inner.x (fst sw)) i) as [xi|] eqn:Hx;
    [|apply nth_error_None in Hx; lia].
  destruct (nth_error (fst box) i) as [hi'|] eqn:Hhi';
    [|apply nth_error_None in Hhi'; lia].
  destruct (nth_error (snd box) i) as [lo'|] eqn:Hlo';
    [|apply nth_error_None in Hlo'; lia].
  destruct (all_between_nth _ _ _ Hin i lo xi hi Hlo Hx Hhi) as [B1 B2].
  destruct (leb_not_nan _ _ B1) as [_ Nx].
  destruct (narrow_entries _ _ _ _ _ _ _ _ Hbox i) as [E1 E2].
  rewrite Hhi', Hhi, Hx in E1. rewrite Hlo', Hlo, Hx in E2.
  rewrite E. cbn [Inner.x_low Inner.x_high]. exists lo', hi'.
  split; [exact Hlo'|]. split; [exact Hhi'|].
  destruct E1 as [[= ->]|[= ->]], E2 as [[= ->]|[= ->]];
    repeat split; eauto using leb_refl, leb_trans.
Qed.

(** X9.  A step of the inner loop made at a finite [x] leaves a box inside
    the box it found: in every coordinate, [low <= low' <= high' <= high]. *)
Theorem box_shrinks f df RandomState epsilon o w sw sw' :
  inner_visits f df RandomState epsilon o w sw ->
  inner_step f df RandomState epsilon sw sw' ->
  finite_iterate (fst sw) = true ->
  forall i lo hi,
    nth_error (Inner.x_low (fst sw)) i = Some lo ->
    nth_error (Inner.x_high (fst sw)) i = Some hi ->
    exists lo' hi',
      nth_error (Inner.x_low (fst sw')) i = Some lo' /\
      nth_error (Inner.x_high (fst sw')) i = Some hi' /\
      (lo <=? lo') = true /\ (lo' <=? hi') = true /\ (hi' <=? hi) = true.
Proof.
  intros Hv Hs Hfin i lo hi Hlo Hhi.
  assert (Hok : box_ok (fst sw) = true).
  { destruct Hs as [_ Hb]. exact (proj1 (inner_body_inv _ _ _ _ _ _ _ Hb)). }
  pose proof (visited_in_box _ _ _ _ _ _ _ Hv Hok Hfin) as Hin.
  destruct (visited_box_lengths _ _ _ _ _ _ _ Hv) as (Lx & _ & Llo).
  assert (Hi : (i < length (Inner.x_low (fst sw)))%nat).
  { apply nth_error_Some. congruence. }
  destruct (nth_error (Inner.x (fst sw)) i) as [xi|] eqn:Hx;
    [|apply nth_error_None in Hx; lia].
  destruct (all_between_nth _ _ _ Hin i lo xi hi Hlo Hx Hhi) as [B1 B2].
  destruct (leb_not_nan _ _ B1) as [Nlo _]. destruct (leb_not_nan _ _ B2) as [_ Nhi].
  exact (step_keeps_inside _ _ _ _ _ _ _ _ Hv Hs Hfin i lo hi lo hi Hlo Hhi
           (leb_refl _ Nlo) (leb_refl _ Nhi)).
Qed.

(** ** The search stays in the first box *)

Lemma finite_visits_visits f df RandomState epsilon o w sw :
  finite_visits f df RandomState epsilon o w sw ->
  inner_visits f df RandomState epsilon o w sw.
Proof.
  induction 1 as [|sw sw' [_ Hs] _ IH]; [apply rtn1_refl|].
  eapply Relation_Operators.rtn1_trans; [exact Hs|exact IH].
Qed.

(** After at least one step, the box is inside the first one. *)
Lemma box_inside_first f df RandomState epsilon o w sw :
  finite_visits f df RandomState epsilon o w sw ->
  sw = (enter_inner o, w) \/
  forall i lo0 hi0,
    nth_error (Inner.x_low (enter_inner o)) i = Some lo0 ->
    nth_error (Inner.x_high (enter_inner o)) i = Some hi0 ->
    exists lo hi,
      nth_error (Inner.x_low (fst sw)) i = Some lo /\
      nth_error (Inner.x_high (fst sw)) i = Some hi /\
      (lo0 <=? lo) = true /\ (lo <=? hi) = true /\ (hi <=? hi0) = true.
Proof.
  induction 1 as [|sw sw' [Hfin Hs] Hv IH]; [now left|]. right.
  pose proof (finite_visits_visits _ _ _ _ _ _ _ Hv) as Hv'.
  intros i lo0 hi0 Hlo0 Hhi0.
  destruct IH as [->|IH].
  - assert (Hok : box_ok (enter_inner o) = true).
    { destruct Hs as [_ Hb]. exact (proj1 (inner_body_inv _ _ _ _ _ _ _ Hb)). }
    pose proof (visited_in_box _ _ _ _ _ _ _ Hv' Hok Hfin) as Hin.
    destruct (visited_box_lengths _ _ _ _ _ _ _ Hv') as (Lx & _ & Llo).
    cbn [fst] in *.
    assert (Hi : (i < length (Inner.x_low (enter_inner o)))%nat).
    { apply nth_error_Some. congruence. }
    destruct (nth_error (Inner.x (enter_inner o)) i) as [xi|] eqn:Hx;
      [|apply nth_error_None in Hx; lia].
    destruct (all_between_nth _ _ _ Hin i lo0 xi hi0 Hlo0 Hx Hhi0) as [B1 B2].
    destruct (leb_not_nan _ _ B1) as [Nlo _]. destruct (leb_not_nan _ _ B2) as [_ Nhi].
    exact (step_keeps_inside _ _ _ _ _ _ _ _ Hv' Hs Hfin i lo0 hi0 lo0 hi0 Hlo0 Hhi0
             (leb_refl _ Nlo) (leb_refl _ Nhi)).
  - destruct (IH i lo0 hi0 Hlo0 Hhi0) as (lo & hi & Hlo & Hhi & B1 & _ & B3).
    exact (step_keeps_inside _ _ _ _ _ _ _ _ Hv' Hs Hfin i lo0 hi0 lo hi Hlo Hhi B1 B3).
Qed.

(** X17.  As long as the steps of an inner loop are made at finite points,
    the search stays in the box the outer iteration started with: at every
    step whose check passes, in every coordinate,
    [x_low0 <= x_low <= x <= x_high <= x_high0], where [x_low0] and
    [x_high0] are [x - trust_range] and [x + trust_range] of lines
    105-106. *)
Theorem search_stays_in_first_box f df RandomState epsilon o w sw :
  finite_visits f df RandomState epsilon o w sw ->
  box_ok (fst sw) = true -> finite_iterate (fst sw) = true ->
  forall i lo0 hi0,
    nth_error (Inner.x_low (enter_inner o)) i = Some lo0 ->
    nth_error (Inner.x_high (enter_inner o)) i = Some hi0 ->
    exists lo xi hi,
      nth_error (Inner.x_low (fst sw)) i = Some lo /\
      nth_error (Inner.x (fst sw)) i = Some xi /\
      nth_error (Inner.x_high (fst sw)) i = Some hi /\
      (lo0 <=? lo) = true /\ (lo <=? xi) = true /\
      (xi <=? hi) = true /\ (hi <=? hi0) = true.
Proof.
  intros Hf Hok Hfin i lo0 hi0 Hlo0 Hhi0.
  pose proof (finite_visits_visits _ _ _ _ _ _ _ Hf) as Hv.
  pose proof (visited_in_box _ _ _ _ _ _ _ Hv Hok Hfin) as Hin.
  destruct (visited_box_lengths _ _ _ _ _ _ _ Hv) as (Lx & Lhi & Llo).
  assert (Inside : exists lo hi,
             nth_error (Inner.x_low (fst sw)) i = Some lo /\
             nth_error (Inner.x_high (fst sw)) i = Some hi /\
             ((lo0 <=? lo) = true \/ lo = lo0) /\ ((hi <=? hi0) = true \/ hi = hi0)).
  { destruct (box_inside_first _ _ _ _ _ _ _ Hf) as [->|H].
    - exists lo0, hi0. auto.
    - destruct (H i lo0 hi0 Hlo0 Hhi0) as (lo & hi & H1 & H2 & B1 & _ & B3).
      exists lo, hi. auto. }
  destruct Inside as (lo & hi & Hlo & Hhi & B1 & B3).
  assert (Hi : (i < length (Inner.x_low (fst sw)))%nat).
  { apply nth_error_Some. congruence. }
  destruct (nth_error (Inner.x (fst sw)) i) as [xi|] eqn:Hx;
    [|apply nth_error_None in Hx; lia].
  destruct (all_between_nth _ _ _ Hin i lo xi hi Hlo Hx Hhi) as [C1 C2].
  destruct (leb_not_nan _ _ C1) as [Nlo _]. destruct (leb_not_nan _ _ C2) as [_ Nhi].
  exists lo, xi, hi. repeat split; auto.
  - destruct B1 as [B1| ->]; [exact B1|now apply leb_refl].
  - destruct B3 as [B3| ->]; [exact B3|now apply leb_refl].
Qed.

(** ** The first box and the trust range *)

Section Radius.
Local Open Scope Z_scope.

Lemma first_box_radius x r :
  valid_binary x = true -> valid_binary r = true ->
  valid_binary (SFadd prec emax x r) = true ->
  valid_binary (SFsub prec emax x r) = true ->
  valid_binary (SFsub prec emax (SFadd prec emax x r) (SFsub prec emax x r)) = true ->
  SFltb (S754_zero false)
    (SFsub prec emax (SFadd prec emax x r) (SFsub prec emax x r)) = true ->
  SFltb (S754_zero false) r = true.
Proof.
  intros Vx Vr Vhi Vlo Vd Hgap.
  destruct (positive_gap _ _ Vhi Vlo Vd Hgap) as (Nhi & Nlo & Hlt).
  assert (HB : 0 < BIG) by (apply pow2_pos; lia).
  assert (Nx : x <> S754_nan) by (intros ->; now apply Nhi).
  assert (Nr : r <> S754_nan) by (intros ->; apply Nhi; now destruct x).
  rewrite (SFltb_ord (S754_zero false) r eq_refl Vr ltac:(discriminate) Nr).
  apply Z.ltb_lt. cbn [ord].
  destruct (finite_or_zero x) eqn:Fx; [destruct (finite_or_zero r) eqn:Fr|].
  - destruct (add_brackets x r Vx Vr Fx Fr) as [_ Bhi].
    destruct (sub_brackets x r Vx Vr Fx Fr) as [_ Blo].
    destruct (Bhi x Vx) as [H1 H2]. destruct (Blo x Vx) as [H3 H4].
    destruct (Z_lt_le_dec 0 (ord r)) as [R|R]; [exact R|]. exfalso. lia.
  - destruct r as [sr|sr| |sr mr er]; try discriminate; try contradiction.
    destruct x as [sx|sx| |sx mx ex]; try discriminate;
      destruct sr; cbn [SFadd SFsub ord negb] in *; lia.
  - exfalso. destruct x as [sx|sx| |sx mx ex]; try discriminate; try contradiction.
    destruct r as [sr|sr| |sr mr er]; try contradiction;
      destruct sx; try destruct sr; cbn in Nhi, Nlo, Hlt; try contradiction; lia.
Qed.

End Radius.

Lemma opp_not_positive r :
  SFltb r (S754_zero false) = false -> SFltb (S754_zero false) (SFopp r) = false.
Proof. destruct r as [s|[|]| |[|] m e]; try reflexivity; discriminate. Qed.

Lemma mul_one_positive t :
  SFltb (S754_zero false) (SFmul prec emax t (Prim2SF 1)) = true ->
  SFltb (S754_zero false) t = true.
Proof.
  change (Prim2SF 1) with (S754_finite false 4503599627370496 (-52)).
  destruct t as [s|[|]| |[|] m e]; try discriminate; try reflexivity.
  cbn [SFmul xorb]. rewrite round_aux_opp.
  now rewrite (opp_not_positive _ (round_aux_not_negative _ _ _)).
Qed.

Lemma positive_radius a t :
  (0 <? (a + t * 1) - (a - t * 1)) = true -> (0 <? t) = true.
Proof.
  intros Hgap. rewrite ltb_spec, !sub_spec, add_spec in Hgap.
  rewrite ltb_spec. apply mul_one_positive. rewrite <- mul_spec.
  apply (first_box_radius (Prim2SF a)); try apply Prim2SF_valid.
  - rewrite <- add_spec. apply Prim2SF_valid.
  - rewrite <- sub_spec. apply Prim2SF_valid.
  - rewrite <- add_spec, <- !sub_spec. apply Prim2SF_valid.
  - exact Hgap.
Qed.

(** X8.  The first step of an outer iteration passes the check of line 113
    only if the trust range is positive: with a trust range that is zero,
    negative or NaN, and a non-empty [x], that step ends with
    [AssertionError] before anything is evaluated. *)
Theorem first_check_needs_positive_trust_range f df RandomState o w :
  Outer.x o <> [] -> (0 <? Outer.trust_range o) = false ->
  inner_body f df RandomState (enter_inner o) w
  = (Raise AssertionError, mkWorld RandomState (rng RandomState w)
                             (Assert false :: log RandomState w)).
Proof.
  intros Hx Ht.
  assert (Hok : box_ok (enter_inner o) = false).
  { destruct (box_ok (enter_inner o)) eqn:E; [exfalso|reflexivity].
    unfold box_ok, enter_inner, np.all, np.gt_scalar, np.sub, np.add, np.scale, np.ones in E.
    cbn [Inner.x_high Inner.x_low] in E.
    destruct (Outer.x o) as [|a x]; [contradiction|]. simpl in E.
    apply andb_true_iff in E. destruct E as [E _].
    rewrite (positive_radius _ _ E) in Ht. discriminate. }
  unfold box_ok in Hok.
  unfold inner_body, assert_, bind, emit, ret, raise, lift. now rewrite Hok.
Qed.

(** * The objective of the script *)

Section Shapes.

Variables np_cos np_sin : float -> float.
Variable sum_of_products : vec -> vec -> float.
Variables v1 v2 : vec.

Lemma np_dot_inv u v r :
  Objective.np_dot sum_of_products u v = Ret r -> length u = length v.
Proof.
  unfold Objective.np_dot. destruct (Nat.eqb (length u) (length v)) eqn:E;
    [|discriminate]. intros _. now apply Nat.eqb_eq.
Qed.

(** X18.  When [df(x)] returns, [x] has the length of [v1] and of [v2], and
    the gradient has one entry for each entry of [x]. *)
Theorem gradient_has_the_length_of_x x g :
  Objective.df np_sin sum_of_products v1 v2 x = Ret g ->
  length x = length v1 /\ length x = length v2 /\ length g = length x.
Proof.
  unfold Objective.df.
  destruct (Objective.np_dot sum_of_products v1 x) as [a| |] eqn:E1; try discriminate.
  destruct (Objective.np_dot sum_of_products v2 x) as [b| |] eqn:E2; try discriminate.
  apply np_dot_inv in E1. apply np_dot_inv in E2.
  simpl. intros [= <-]. unfold np.add, np.scale.
  rewrite !zip_with_length, !length_map. lia.
Qed.

(** X19.  On an array that has not the length of [v1], or not the length of
    [v2], both [f] and [df] raise [ValueError]. *)
Theorem objective_rejects_other_lengths x :
  length x <> length v1 \/ length x <> length v2 ->
  Objective.f np_cos sum_of_products v1 v2 x = Raise ValueError /\
  Objective.df np_sin sum_of_products v1 v2 x = Raise ValueError.
Proof.
  intros H. unfold Objective.f, Objective.df, Objective.np_dot.
  destruct (Nat.eqb (length v1) (length x)) eqn:E1; [|now split].
  destruct (Nat.eqb (length v2) (length x)) eqn:E2; [|now split].
  apply Nat.eqb_eq in E1. apply Nat.eqb_eq in E2. exfalso. destruct H; congruence.
Qed.

End Shapes.

(** * Examples: the theorems at concrete inputs *)

(** A world with the tape [g] as generator and an empty log. *)
Definition fresh (g : Tape) : World Tape := mkWorld Tape g [].

(** The state and world a computation ends in, or [fallback] if it does
    not return. *)
Definition landing {S} (r : result S * World Tape) (fallback : S * World Tape)
  : S * World Tape :=
  match r with
  | (Ret s, w) => (s, w)
  | _ => fallback
  end.

(** ** One step of the inner loop on the paraboloid *)

Definition bowl_start : Inner.t * World Tape :=
  (enter_inner (initial [1; -1] 2), fresh []).

Definition bowl_step (sw : Inner.t * World Tape) : Inner.t * World Tape :=
  landing (inner_body paraboloid paraboloid_grad Tape (fst sw) (snd sw)) sw.

Lemma bowl_steps sw :
  inner_cond Tape 1e-6 (fst sw) (snd sw) = (Ret true, snd sw) ->
  (exists s' w', inner_body paraboloid paraboloid_grad Tape (fst sw) (snd sw) = (Ret s', w')) ->
  inner_step paraboloid paraboloid_grad Tape 1e-6 sw (bowl_step sw).
Proof.
  intros Hc (s' & w' & Hb). split; [exact Hc|].
  unfold bowl_step. now rewrite Hb.
Qed.

Lemma box_narrowed_witness :
  box_ok (fst bowl_start) = true /\
  exists s' w',
    inner_body paraboloid paraboloid_grad Tape (fst bowl_start) (snd bowl_start)
      = (Ret s', w') /\
    (nth_error (Inner.x_high s') 0 = Some 1 /\ nth_error (Inner.x_low s') 0 = Some (-1)) /\
    (nth_error (Inner.x_low s') 1 = Some (-1) /\ nth_error (Inner.x_high s') 1 = Some 1).
Proof.
  split; [reflexivity|].
  destruct (box_narrowed paraboloid paraboloid_grad Tape (fst bowl_start) (snd bowl_start))
    as (s' & w' & Hrun & Hspec); try reflexivity.
  exists s', w'. split; [exact Hrun|]. split.
  - exact (proj1 (Hspec 0%nat 1 2 infinity eq_refl eq_refl eq_refl) eq_refl).
  - exact (proj1 (Hspec 1%nat (-1) (-2) infinity eq_refl eq_refl eq_refl) eq_refl).
Defined.

Lemma fx_best_non_increasing_witness :
  inner_visits paraboloid paraboloid_grad Tape 1e-6 (initial [1; -1] 2) (fresh [])
    (bowl_step bowl_start) /\
  inner_step paraboloid paraboloid_grad Tape 1e-6
    (bowl_step bowl_start) (bowl_step (bowl_step bowl_start)) /\
  (Inner.fx_best (fst (bowl_step (bowl_step bowl_start)))
   <=? Inner.fx_best (fst (bowl_step bowl_start))) = true.
Proof.
  assert (H1 : inner_step paraboloid paraboloid_grad Tape 1e-6
                 bowl_start (bowl_step bowl_start)).
  { apply bowl_steps; [reflexivity|]. do 2 eexists. vm_compute. reflexivity. }
  assert (H2 : inner_step paraboloid paraboloid_grad Tape 1e-6
                 (bowl_step bowl_start) (bowl_step (bowl_step bowl_start))).
  { apply bowl_steps; [reflexivity|]. do 2 eexists. vm_compute. reflexivity. }
  assert (V : inner_visits paraboloid paraboloid_grad Tape 1e-6 (initial [1; -1] 2)
                (fresh []) (bowl_step bowl_start)).
  { eapply Relation_Operators.rtn1_trans; [exact H1|apply rtn1_refl]. }
  split; [exact V|]. split; [exact H2|].
  exact (fx_best_non_increasing paraboloid paraboloid_grad Tape 1e-6 _ _ _ _ V H2).
Defined.

(** ** A point with a zero coordinate *)

Lemma zero_coordinate_returns_unchanged_witness :
  Exists (fun t => (t =? 0) = true) [1; 0; 2] /\
  MultiDimensionalBisection paraboloid paraboloid_grad Tape tape_randn 1 [1; 0; 2] 2 1e-6
    (fresh []) = (Ret [1; 0; 2], fresh []).
Proof.
  assert (H : Exists (fun t => (t =? 0) = true) [1; 0; 2]).
  { right. left. reflexivity. }
  split; [exact H|].
  exact (proj2 (zero_coordinate_returns_unchanged paraboloid paraboloid_grad Tape tape_randn
                  0 [1; 0; 2] 2 1e-6 (fresh []) H)).
Defined.

(** ** The choice of the new iterate *)

(** The inner loop from [x = [1]] with [trust_range = 2] and the default
    tolerance, and what lines 141-147 make of its last state. *)
Definition bowl_end : Inner.t * World Tape :=
  Eval vm_compute in
    landing (inner_loop paraboloid paraboloid_grad Tape 100 1e-6
               (enter_inner (initial [1] 2)) (fresh []))
            (enter_inner (initial [1] 2), fresh []).

Definition bowl_next : Outer.t * World Tape :=
  Eval vm_compute in
    landing (leave_inner paraboloid Tape tape_randn 1e-6 (fst bowl_end) (snd bowl_end))
            (initial [1] 2, fresh []).

Lemma bowl_end_runs :
  inner_loop paraboloid paraboloid_grad Tape 100 1e-6 (enter_inner (initial [1] 2))
    (fresh []) = (Ret (fst bowl_end), snd bowl_end).
Proof. vm_compute. reflexivity. Qed.

Lemma bowl_next_runs :
  leave_inner paraboloid Tape tape_randn 1e-6 (fst bowl_end) (snd bowl_end)
  = (Ret (fst bowl_next), snd bowl_next).
Proof. vm_compute. reflexivity. Qed.

(** The inner loop of the first outer iteration on the barrier, from
    [x = [1]] with [trust_range = 2] and the default tolerance: it runs to
    its end, every value being [+inf]. *)
Definition wall_end : Inner.t * World Tape :=
  Eval vm_compute in
    landing (inner_loop barrier barrier_grad Tape 100 1e-6
               (enter_inner (initial [1] 2)) (fresh []))
            (enter_inner (initial [1] 2), fresh []).

Lemma wall_end_runs :
  inner_loop barrier barrier_grad Tape 100 1e-6 (enter_inner (initial [1] 2))
    (fresh []) = (Ret (fst wall_end), snd wall_end).
Proof. vm_compute. reflexivity. Qed.

Lemma new_iterate_is_argmin_witness :
  outer_cond Tape 1e-6 (initial [1] 2) (fresh []) = (Ret true, fresh []) /\
  inner_loop paraboloid paraboloid_grad Tape 100 1e-6 (enter_inner (initial [1] 2))
    (fresh []) = (Ret (fst bowl_end), snd bowl_end) /\
  (Inner.fx_best (fst bowl_end) <? np.inf) = true /\
  is_nan (paraboloid (Inner.x_low (fst bowl_end))) = false /\
  is_nan (paraboloid (Inner.x_high (fst bowl_end))) = false /\
  exists o' w',
    leave_inner paraboloid Tape tape_randn 1e-6 (fst bowl_end) (snd bowl_end)
    = (Ret o', w') /\
    (paraboloid (Outer.x o') <=? paraboloid (Inner.x_low (fst bowl_end))) = true /\
    (paraboloid (Outer.x o') <=? paraboloid (Inner.x_high (fst bowl_end))) = true.
Proof.
  assert (H0 : outer_cond Tape 1e-6 (initial [1] 2) (fresh []) = (Ret true, fresh []))
    by (vm_compute; reflexivity).
  assert (H1 : (Inner.fx_best (fst bowl_end) <? np.inf) = true)
    by (vm_compute; reflexivity).
  assert (H2 : is_nan (paraboloid (Inner.x_low (fst bowl_end))) = false)
    by (vm_compute; reflexivity).
  assert (H3 : is_nan (paraboloid (Inner.x_high (fst bowl_end))) = false)
    by (vm_compute; reflexivity).
  split; [exact H0|]. split; [exact bowl_end_runs|]. split; [exact H1|].
  split; [exact H2|]. split; [exact H3|].
  destruct (new_iterate_is_argmin paraboloid paraboloid_grad Tape tape_randn 1e-6
              (initial [1] 2) (fresh []) (fst bowl_end) (snd bowl_end)
              (inner_loop_visits paraboloid paraboloid_grad Tape 1e-6 (initial [1] 2)
                 (fresh []) 100 (enter_inner (initial [1] 2), fresh [])
                 (fst bowl_end) (snd bowl_end) (rtn1_refl _ _ _) bowl_end_runs)
              H1 H2 H3)
    as (xb & o' & w' & _ & _ & Hrun & Hlow & Hhigh & _).
  exists o', w'. split; [exact Hrun|]. split; [exact Hlow|exact Hhigh].
Defined.

(** [f(x) = sqrt(1 - x)] from [x = [0.5]] with [trust_range = 2] and the
    default tolerance.  The inner loop of the first outer iteration
    evaluates [f] at [0.5], at [1.5] (NaN), at [1] (value 0, which becomes
    [x_best]), and from then on at points above one only: it ends with both
    bounds above one. *)
Definition root_end : Inner.t * World Tape :=
  Eval vm_compute in
    landing (inner_loop root root_grad Tape 100 1e-6
               (enter_inner (initial [0.5] 2)) (fresh []))
            (enter_inner (initial [0.5] 2), fresh []).

Definition root_next : Outer.t * World Tape :=
  Eval vm_compute in
    landing (leave_inner root Tape tape_randn 1e-6 (fst root_end) (snd root_end))
            (initial [0.5] 2, fresh []).

(** Two runs with the default tolerance, each up to the end of the inner
    loop of its first outer iteration and through lines 141-145.

    On [f(x) = sqrt(1 - x)] from [x = [0.5]], the loop ends with
    [x_best = [1]], of value 0, and with [f(x_low)] and [f(x_high)] NaN;
    [np.argmin([nan, nan, 0.0])] is 0 and the new iterate is [x_low], whose
    value is NaN and not the least of the three.

    On the objective that is [+inf] everywhere, from [x = [1]], the loop
    ends with both [f(x_low)] and [f(x_high)] equal to [+inf] and no value
    below [+inf] seen: [x_best] is not bound, line 145 raises
    [UnboundLocalError] and there is no new iterate. *)
Lemma new_iterate_not_minimal :
  (outer_cond Tape 1e-6 (initial [0.5] 2) (fresh []) = (Ret true, fresh []) /\
   inner_loop root root_grad Tape 100 1e-6 (enter_inner (initial [0.5] 2)) (fresh [])
   = (Ret (fst root_end), snd root_end) /\
   inner_cond Tape 1e-6 (fst root_end) (snd root_end) = (Ret false, snd root_end) /\
   Inner.x_best (fst root_end) = Some [1] /\
   Inner.fx_best (fst root_end) = root [1] /\
   root [1] = 0 /\
   leave_inner root Tape tape_randn 1e-6 (fst root_end) (snd root_end)
   = (Ret (fst root_next), snd root_next) /\
   Outer.x (fst root_next) = Inner.x_low (fst root_end) /\
   is_nan (root (Outer.x (fst root_next))) = true /\
   (root (Outer.x (fst root_next)) <=? root [1]) = false)
  /\
  (outer_cond Tape 1e-6 (initial [1] 2) (fresh []) = (Ret true, fresh []) /\
   inner_loop barrier barrier_grad Tape 100 1e-6 (enter_inner (initial [1] 2)) (fresh [])
   = (Ret (fst wall_end), snd wall_end) /\
   inner_cond Tape 1e-6 (fst wall_end) (snd wall_end) = (Ret false, snd wall_end) /\
   is_nan (barrier (Inner.x_low (fst wall_end))) = false /\
   is_nan (barrier (Inner.x_high (fst wall_end))) = false /\
   fst (leave_inner barrier Tape tape_randn 1e-6 (fst wall_end) (snd wall_end))
   = Raise UnboundLocalError /\
   fst (MultiDimensionalBisection barrier barrier_grad Tape tape_randn 100 [1] 2 1e-6
          (fresh []))
   = Raise UnboundLocalError).
Proof.
  split; repeat split; vm_compute; reflexivity.
Qed.

(** ** How the outer loop ends *)

(** The paraboloid from [x = [1]] with [trust_range = 2]: the first outer
    iteration ends at [[0]], the second one too, and then the guard of
    line 103 is [0/0 > epsilon], which is false. *)
Definition bowl_world : World Tape :=
  Eval vm_compute in
    snd (MultiDimensionalBisection paraboloid paraboloid_grad Tape tape_randn 100
           [1] 2 1e-6 (fresh [])).



(** ** A failed check inside the restart loop *)

(** One-dimensional search for the minimum of the paraboloid.  The
    generator gives [x = [-1]] (line 94), [x_best = [1]] (line 155), the
    starting point [[2**-34]] of the first restart, and then the jitter
    that makes the next trust range zero: the box of the second outer
    iteration is empty and line 113 raises. *)
Definition unlucky : Tape :=
  [0.25; 0.75; 0.5 + 0x1p-36; (-0x1p-34 - 0x1p-34) / (0.1 * 1e-10)].

Definition unlucky_state : Driver.t := Driver.mk [1] 0 [-1].

Definition unlucky_world : World Tape :=
  Eval vm_compute in snd (driver_init [0] Tape tape_uniform (fresh unlucky)).

Definition crash_world : World Tape :=
  Eval vm_compute in
    snd (main paraboloid paraboloid_grad [0] Tape tape_uniform tape_randn 100
           (fresh unlucky)).

Lemma failure_ends_the_search_witness :
  driver_init [0] Tape tape_uniform (fresh unlucky) = (Ret unlucky_state, unlucky_world) /\
  restart_fails paraboloid paraboloid_grad [0] Tape tape_uniform tape_randn 100
    (unlucky_state, unlucky_world) AssertionError crash_world /\
  main paraboloid paraboloid_grad [0] Tape tape_uniform tape_randn 100 (fresh unlucky)
  = (Raise AssertionError, crash_world).
Proof.
  assert (H1 : driver_init [0] Tape tape_uniform (fresh unlucky)
               = (Ret unlucky_state, unlucky_world)) by (vm_compute; reflexivity).
  assert (H2 : restart_fails paraboloid paraboloid_grad [0] Tape tape_uniform tape_randn 100
                 (unlucky_state, unlucky_world) AssertionError crash_world).
  { do 3 eexists. split; [vm_compute; reflexivity|].
    split; [vm_compute; reflexivity|]. vm_compute. reflexivity. }
  split; [exact H1|]. split; [exact H2|].
  exact (failure_ends_the_search paraboloid paraboloid_grad [0] Tape tape_uniform tape_randn
           100 0 (fresh unlucky) unlucky_state unlucky_world (unlucky_state, unlucky_world)
           AssertionError crash_world H1
           (restarts_O _ _ _ _ _ _ _ _) H2 (Nat.lt_0_succ 99)).
Defined.

(** The failed check of that restart ends the whole script; so does the
    [UnboundLocalError] of line 145 when the objective is [+inf] wherever
    the run evaluates it, so that [x_best] is never assigned. *)
Lemma failure_reaches_top_level :
  (exists w,
     main paraboloid paraboloid_grad [0] Tape tape_uniform tape_randn 100 (fresh unlucky)
       = (Raise AssertionError, w) /\
     hd_error (log Tape w) = Some (Assert false)) /\
  (exists w,
     main barrier barrier_grad [0] Tape tape_uniform tape_randn 100 (fresh [0.25; 0.75; 0.5])
       = (Raise UnboundLocalError, w)).
Proof.
  split; eexists; [split|]; vm_compute; reflexivity.
Qed.

(** ** The check of the box *)






(** ** One restart *)

(** The global best is [[1]]; the restart starts from [[0.5]] and ends at
    [[0]], which becomes the new global best. *)
Definition before_restart : Driver.t * World Tape :=
  (Driver.mk [1] 0 [0.5], fresh [0.625]).

Definition after_restart : Driver.t * World Tape :=
  Eval vm_compute in
    landing
      (driver_body paraboloid paraboloid_grad [0] Tape tape_uniform tape_randn 100
         (fst before_restart)
         (snd (driver_cond paraboloid Tape (fst before_restart) (snd before_restart))))
      before_restart.

Lemma restart_monotone_witness :
  restart_step paraboloid paraboloid_grad [0] Tape tape_uniform tape_randn 100
    before_restart after_restart /\
  Driver.x_best (fst after_restart) = [0] /\
  (paraboloid (Driver.x_best (fst after_restart))
   <=? paraboloid (Driver.x_best (fst before_restart))) = true.
Proof.
  assert (H : restart_step paraboloid paraboloid_grad [0] Tape tape_uniform tape_randn 100
                before_restart after_restart).
  { eexists. split; [vm_compute; reflexivity|]. vm_compute. reflexivity. }
  split; [exact H|]. split; [vm_compute; reflexivity|].
  exact (restart_monotone paraboloid paraboloid_grad [0] Tape tape_uniform tape_randn 100
           before_restart after_restart H).
Defined.

(** ** Two runs of the script *)



(** ** An iterate outside the box *)

(** ** The iterate and the box *)

Lemma finite_iterate_in_box_witness :
  inner_visits paraboloid paraboloid_grad Tape 1e-6 (initial [1; -1] 2) (fresh [])
    (bowl_step bowl_start) /\
  box_ok (fst (bowl_step bowl_start)) = true /\
  finite_iterate (fst (bowl_step bowl_start)) = true /\
  in_box (fst (bowl_step bowl_start)) = true.
Proof.
  assert (H1 : inner_step paraboloid paraboloid_grad Tape 1e-6
                 bowl_start (bowl_step bowl_start)).
  { apply bowl_steps; [reflexivity|]. do 2 eexists. vm_compute. reflexivity. }
  assert (V : inner_visits paraboloid paraboloid_grad Tape 1e-6 (initial [1; -1] 2)
                (fresh []) (bowl_step bowl_start)).
  { eapply Relation_Operators.rtn1_trans; [exact H1|apply rtn1_refl]. }
  assert (Hok : box_ok (fst (bowl_step bowl_start)) = true) by (vm_compute; reflexivity).
  assert (Hfin : finite_iterate (fst (bowl_step bowl_start)) = true)
    by (vm_compute; reflexivity).
  split; [exact V|]. split; [exact Hok|]. split; [exact Hfin|].
  exact (finite_iterate_in_box paraboloid paraboloid_grad Tape 1e-6 _ _ _ V Hok Hfin).
Defined.

(** [x = [1.5e308]], [trust_range = 1e307]: the first step lowers
    [x_high] to [1.5e308], and the midpoint of the box
    [[1.4e308, 1.5e308]] is computed as [(1.5e308 + 1.4e308)/2], whose sum
    overflows.  The next step, whose check passes, is made at
    [x = [inf]]. *)
Definition overflow_state : Inner.t * World Tape :=
  Eval vm_compute in
    landing (inner_body slope slope_grad Tape
               (enter_inner (initial [1.5e308] 1e307)) (fresh []))
            (enter_inner (initial [1.5e308] 1e307), fresh []).

Lemma iterate_leaves_box :
  inner_visits slope slope_grad Tape 1e-6 (initial [1.5e308] 1e307) (fresh [])
    overflow_state /\
  inner_cond Tape 1e-6 (fst overflow_state) (snd overflow_state)
    = (Ret true, snd overflow_state) /\
  box_ok (fst overflow_state) = true /\
  Inner.x_low (fst overflow_state) = [1.4e308] /\
  Inner.x_high (fst overflow_state) = [1.5e308] /\
  Inner.x (fst overflow_state) = [infinity] /\
  in_box (fst overflow_state) = false.
Proof.
  split.
  - eapply Relation_Operators.rtn1_trans; [|apply rtn1_refl].
    split; vm_compute; reflexivity.
  - repeat split; vm_compute; reflexivity.
Qed.

(** ** The distance *)

Lemma d_is_never_negative_witness :
  d_norm [1; 2; 3; 4; 5; 6; 7; 8; 9] [0.5] (Norm_int 1) = Ret (Some 40.5) /\
  (40.5 <? 0) = false.
Proof.
  assert (H : d_norm [1; 2; 3; 4; 5; 6; 7; 8; 9] [0.5] (Norm_int 1) = Ret (Some 40.5))
    by (vm_compute; reflexivity).
  split; [exact H|].
  exact (proj1 (d_is_never_negative [1; 2; 3; 4; 5; 6; 7; 8; 9] [0.5] (Norm_int 1) 40.5 H)).
Defined.

Lemma d_of_a_point_to_itself_witness :
  forallb is_finite [1.5; -2] = true /\
  d_norm [1.5; -2] [1.5; -2] (Norm_str "inf") = Ret (Some 0).
Proof.
  assert (H : forallb is_finite [1.5; -2] = true) by (vm_compute; reflexivity).
  split; [exact H|].
  apply (d_of_a_point_to_itself [1.5; -2] (Norm_str "inf") H).
  right. right. split; [reflexivity|discriminate].
Defined.

(** ** A tolerance of [+inf] *)

Lemma unbounded_tolerance_returns_unchanged_witness :
  [1; 2] <> [] /\ (infinity <? np.inf) = false /\
  MultiDimensionalBisection paraboloid paraboloid_grad Tape tape_randn 1 [1; 2] 2 infinity
    (fresh []) = (Ret [1; 2], fresh []).
Proof.
  assert (H1 : [1; 2] <> ([] : vec)) by discriminate.
  assert (H2 : (infinity <? np.inf) = false) by (vm_compute; reflexivity).
  split; [exact H1|]. split; [exact H2|].
  exact (unbounded_tolerance_returns_unchanged paraboloid paraboloid_grad Tape tape_randn
           0 [1; 2] 2 infinity (fresh []) H1 H2).
Defined.

(** ** The run on the paraboloid, once more *)

Lemma result_has_the_length_of_x_witness :
  MultiDimensionalBisection paraboloid paraboloid_grad Tape tape_randn 100 [1] 2 1e-6
    (fresh []) = (Ret [0], bowl_world) /\
  length [0] = length [1].
Proof.
  assert (H : MultiDimensionalBisection paraboloid paraboloid_grad Tape tape_randn 100
                [1] 2 1e-6 (fresh []) = (Ret [0], bowl_world))
    by (vm_compute; reflexivity).
  split; [exact H|].
  exact (result_has_the_length_of_x paraboloid paraboloid_grad Tape tape_randn
           100 [1] 2 1e-6 (fresh []) [0] bowl_world H).
Defined.

Lemma inner_loop_is_entered_witness :
  Outer.x (initial [1; -1] 2) <> [] /\
  forallb (fun t => t <? np.inf) (Outer.x (initial [1; -1] 2)) = true /\
  (1e-6 <? np.inf) = true /\
  inner_cond Tape 1e-6 (enter_inner (initial [1; -1] 2)) (fresh []) = (Ret true, fresh []).
Proof.
  assert (H1 : Outer.x (initial [1; -1] 2) <> []) by discriminate.
  assert (H2 : forallb (fun t => t <? np.inf) (Outer.x (initial [1; -1] 2)) = true)
    by (vm_compute; reflexivity).
  assert (H3 : (1e-6 <? np.inf) = true) by (vm_compute; reflexivity).
  split; [exact H1|]. split; [exact H2|]. split; [exact H3|].
  exact (inner_loop_is_entered Tape 1e-6 (initial [1; -1] 2) (fresh []) H1 H2 H3).
Defined.

Lemma outer_iteration_does_not_go_up_witness :
  Outer.x (initial [1] 2) <> [] /\
  forallb (fun t => t <? np.inf) (Outer.x (initial [1] 2)) = true /\
  (1e-6 <? np.inf) = true /\
  inner_loop paraboloid paraboloid_grad Tape 100 1e-6 (enter_inner (initial [1] 2))
    (fresh []) = (Ret (fst bowl_end), snd bowl_end) /\
  leave_inner paraboloid Tape tape_randn 1e-6 (fst bowl_end) (snd bowl_end)
  = (Ret (fst bowl_next), snd bowl_next) /\
  is_nan (paraboloid (Outer.x (initial [1] 2))) = false /\
  is_nan (paraboloid (Inner.x_low (fst bowl_end))) = false /\
  is_nan (paraboloid (Inner.x_high (fst bowl_end))) = false /\
  outer_body paraboloid paraboloid_grad Tape tape_randn 100 1e-6 (initial [1] 2) (fresh [])
  = (Ret (fst bowl_next), snd bowl_next) /\
  (paraboloid (Outer.x (fst bowl_next)) <=? paraboloid (Outer.x (initial [1] 2))) = true.
Proof.
  assert (H1 : Outer.x (initial [1] 2) <> []) by discriminate.
  assert (H2 : forallb (fun t => t <? np.inf) (Outer.x (initial [1] 2)) = true)
    by (vm_compute; reflexivity).
  assert (H3 : (1e-6 <? np.inf) = true) by (vm_compute; reflexivity).
  assert (H4 : is_nan (paraboloid (Outer.x (initial [1] 2))) = false)
    by (vm_compute; reflexivity).
  assert (H5 : is_nan (paraboloid (Inner.x_low (fst bowl_end))) = false)
    by (vm_compute; reflexivity).
  assert (H6 : is_nan (paraboloid (Inner.x_high (fst bowl_end))) = false)
    by (vm_compute; reflexivity).
  split; [exact H1|]. split; [exact H2|]. split; [exact H3|].
  split; [exact bowl_end_runs|]. split; [exact bowl_next_runs|].
  split; [exact H4|]. split; [exact H5|]. split; [exact H6|].
  exact (outer_iteration_does_not_go_up paraboloid paraboloid_grad Tape tape_randn
           100 1e-6 (initial [1] 2) (fresh []) (fst bowl_end) (snd bowl_end)
           (fst bowl_next) (snd bowl_next)
           H1 H2 H3 bowl_end_runs bowl_next_runs H4 H5 H6).
Defined.

Lemma trust_range_is_never_negative_witness :
  leave_inner paraboloid Tape tape_randn 1e-6 (fst bowl_end) (snd bowl_end)
  = (Ret (fst bowl_next), snd bowl_next) /\
  (Outer.trust_range (fst bowl_next) <? 0) = false.
Proof.
  split; [exact bowl_next_runs|].
  exact (trust_range_is_never_negative paraboloid Tape tape_randn 1e-6
           (fst bowl_end) (snd bowl_end) (fst bowl_next) (snd bowl_next) bowl_next_runs).
Defined.

Lemma bowl_iteration_runs :
  outer_body paraboloid paraboloid_grad Tape tape_randn 100 1e-6 (initial [1] 2) (fresh [])
  = (Ret (fst bowl_next), snd bowl_next).
Proof. vm_compute. reflexivity. Qed.

Lemma outer_iteration_draws_once_witness :
  outer_body paraboloid paraboloid_grad Tape tape_randn 100 1e-6 (initial [1] 2) (fresh [])
  = (Ret (fst bowl_next), snd bowl_next) /\
  rng Tape (snd bowl_next)
  = snd (tape_randn (length (Outer.x (fst bowl_next))) (rng Tape (fresh []))).
Proof.
  split; [exact bowl_iteration_runs|].
  exact (outer_iteration_draws_once paraboloid paraboloid_grad Tape tape_randn 100 1e-6
           (initial [1] 2) (fresh []) (fst bowl_next) (snd bowl_next) bowl_iteration_runs).
Defined.

(** ** The box *)

Lemma first_check_needs_positive_trust_range_witness :
  Outer.x (initial [1] (-2)) <> [] /\
  (0 <? Outer.trust_range (initial [1] (-2))) = false /\
  inner_body paraboloid paraboloid_grad Tape (enter_inner (initial [1] (-2))) (fresh [])
  = (Raise AssertionError, mkWorld Tape (rng Tape (fresh []))
                             (Assert false :: log Tape (fresh []))).
Proof.
  assert (H1 : Outer.x (initial [1] (-2)) <> []) by discriminate.
  assert (H2 : (0 <? Outer.trust_range (initial [1] (-2))) = false)
    by (vm_compute; reflexivity).
  split; [exact H1|]. split; [exact H2|].
  exact (first_check_needs_positive_trust_range paraboloid paraboloid_grad Tape
           (initial [1] (-2)) (fresh []) H1 H2).
Defined.

Lemma box_shrinks_witness :
  inner_step paraboloid paraboloid_grad Tape 1e-6 bowl_start (bowl_step bowl_start) /\
  finite_iterate (fst bowl_start) = true /\
  nth_error (Inner.x_low (fst bowl_start)) 0 = Some (-1) /\
  nth_error (Inner.x_high (fst bowl_start)) 0 = Some 3 /\
  exists lo' hi',
    nth_error (Inner.x_low (fst (bowl_step bowl_start))) 0 = Some lo' /\
    nth_error (Inner.x_high (fst (bowl_step bowl_start))) 0 = Some hi' /\
    (-1 <=? lo') = true /\ (lo' <=? hi') = true /\ (hi' <=? 3) = true.
Proof.
  assert (H1 : inner_step paraboloid paraboloid_grad Tape 1e-6
                 bowl_start (bowl_step bowl_start)).
  { apply bowl_steps; [reflexivity|]. do 2 eexists. vm_compute. reflexivity. }
  assert (H2 : finite_iterate (fst bowl_start) = true) by (vm_compute; reflexivity).
  assert (H3 : nth_error (Inner.x_low (fst bowl_start)) 0 = Some (-1))
    by (vm_compute; reflexivity).
  assert (H4 : nth_error (Inner.x_high (fst bowl_start)) 0 = Some 3)
    by (vm_compute; reflexivity).
  split; [exact H1|]. split; [exact H2|]. split; [exact H3|]. split; [exact H4|].
  exact (box_shrinks paraboloid paraboloid_grad Tape 1e-6 (initial [1; -1] 2) (fresh [])
           bowl_start (bowl_step bowl_start)
           (rtn1_refl _ _ _) H1 H2 0%nat (-1) 3 H3 H4).
Defined.

Lemma search_stays_in_first_box_witness :
  finite_visits paraboloid paraboloid_grad Tape 1e-6 (initial [1; -1] 2) (fresh [])
    (bowl_step bowl_start) /\
  box_ok (fst (bowl_step bowl_start)) = true /\
  finite_iterate (fst (bowl_step bowl_start)) = true /\
  nth_error (Inner.x_low (enter_inner (initial [1; -1] 2))) 0 = Some (-1) /\
  nth_error (Inner.x_high (enter_inner (initial [1; -1] 2))) 0 = Some 3 /\
  exists lo xi hi,
    nth_error (Inner.x_low (fst (bowl_step bowl_start))) 0 = Some lo /\
    nth_error (Inner.x (fst (bowl_step bowl_start))) 0 = Some xi /\
    nth_error (Inner.x_high (fst (bowl_step bowl_start))) 0 = Some hi /\
    (-1 <=? lo) = true /\ (lo <=? xi) = true /\
    (xi <=? hi) = true /\ (hi <=? 3) = true.
Proof.
  assert (H1 : inner_step paraboloid paraboloid_grad Tape 1e-6
                 bowl_start (bowl_step bowl_start)).
  { apply bowl_steps; [reflexivity|]. do 2 eexists. vm_compute. reflexivity. }
  assert (H0 : finite_iterate (fst bowl_start) = true) by (vm_compute; reflexivity).
  assert (V : finite_visits paraboloid paraboloid_grad Tape 1e-6 (initial [1; -1] 2)
                (fresh []) (bowl_step bowl_start)).
  { eapply Relation_Operators.rtn1_trans; [|apply rtn1_refl]. split; [exact H0|exact H1]. }
  assert (Hok : box_ok (fst (bowl_step bowl_start)) = true) by (vm_compute; reflexivity).
  assert (Hfin : finite_iterate (fst (bowl_step bowl_start)) = true)
    by (vm_compute; reflexivity).
  assert (H3 : nth_error (Inner.x_low (enter_inner (initial [1; -1] 2))) 0 = Some (-1))
    by (vm_compute; reflexivity).
  assert (H4 : nth_error (Inner.x_high (enter_inner (initial [1; -1] 2))) 0 = Some 3)
    by (vm_compute; reflexivity).
  split; [exact V|]. split; [exact Hok|]. split; [exact Hfin|].
  split; [exact H3|]. split; [exact H4|].
  exact (search_stays_in_first_box paraboloid paraboloid_grad Tape 1e-6
           (initial [1; -1] 2) (fresh []) (bowl_step bowl_start)
           V Hok Hfin 0%nat (-1) 3 H3 H4).
Defined.

(** ** An objective without a value below [+inf] *)

Lemma no_value_below_inf_raises_witness :
  outer_cond Tape 1e-6 (initial [1] 2) (fresh []) = (Ret true, fresh []) /\
  inner_loop barrier barrier_grad Tape 100 1e-6 (enter_inner (initial [1] 2))
    (fresh []) = (Ret (fst wall_end), snd wall_end) /\
  Inner.n (fst wall_end) = 21%nat /\
  Outer.x_best (initial [1] 2) = None /\
  (Inner.fx_best (fst wall_end) <? np.inf) = false /\
  leave_inner barrier Tape tape_randn 1e-6 (fst wall_end) (snd wall_end)
  = (Raise UnboundLocalError,
     mkWorld Tape (rng Tape (snd wall_end))
       (Eval_f 142 (Inner.x_high (fst wall_end))
        :: Eval_f 141 (Inner.x_low (fst wall_end))
        :: log Tape (snd wall_end))).
Proof.
  assert (H0 : outer_cond Tape 1e-6 (initial [1] 2) (fresh []) = (Ret true, fresh []))
    by (vm_compute; reflexivity).
  assert (H2 : (Inner.fx_best (fst wall_end) <? np.inf) = false)
    by (vm_compute; reflexivity).
  split; [exact H0|]. split; [exact wall_end_runs|]. split; [reflexivity|].
  split; [reflexivity|]. split; [exact H2|].
  exact (no_value_below_inf_raises barrier barrier_grad Tape tape_randn 1e-6
           (initial [1] 2) (fresh []) (fst wall_end) (snd wall_end) eq_refl
           (inner_loop_visits barrier barrier_grad Tape 1e-6 (initial [1] 2) (fresh [])
              100 (enter_inner (initial [1] 2), fresh []) (fst wall_end) (snd wall_end)
              (rtn1_refl _ _ _) wall_end_runs)
           H2).
Defined.

(** ** The end of a search *)

Definition quick_world : World Tape :=
  Eval vm_compute in
    snd (main paraboloid paraboloid_grad [0] Tape tape_uniform tape_randn 100
           (fresh [0.25; 0.5 + 0x1p-8])).

Lemma quick_search :
  main paraboloid paraboloid_grad [0] Tape tape_uniform tape_randn 100
    (fresh [0.25; 0.5 + 0x1p-8]) = (Ret [0.015625], quick_world).
Proof. vm_compute. reflexivity. Qed.

Lemma tape_uniform_length lo hi k g : length (fst (tape_uniform lo hi k g)) = k.
Proof. unfold tape_uniform, take. simpl. now rewrite !length_map, length_seq. Qed.

Lemma x_best_has_the_length_of_v1_witness :
  (forall lo hi k g, length (fst (tape_uniform lo hi k g)) = k) /\
  main paraboloid paraboloid_grad [0] Tape tape_uniform tape_randn 100
    (fresh [0.25; 0.5 + 0x1p-8]) = (Ret [0.015625], quick_world) /\
  length [0.015625] = length [0].
Proof.
  split; [exact tape_uniform_length|]. split; [exact quick_search|].
  exact (x_best_has_the_length_of_v1 paraboloid paraboloid_grad [0] Tape tape_uniform
           tape_randn 100 (fresh [0.25; 0.5 + 0x1p-8]) [0.015625] quick_world
           tape_uniform_length quick_search).
Defined.

(** ** The shape of the gradient *)

(** Stand-ins for [np.sin], [np.cos] and the sum of products. *)
Definition plain_dot (u v : vec) : float := np.sum (np.zip_with PrimFloat.mul u v).

Lemma gradient_has_the_length_of_x_witness :
  Objective.df (fun t => t) plain_dot [1; 2] [3; 4] [0.5; 0.25] = Ret [9.5; 12.5] /\
  length [0.5; 0.25] = length [1; 2] /\ length [0.5; 0.25] = length [3; 4] /\
  length [9.5; 12.5] = length [0.5; 0.25].
Proof.
  assert (H : Objective.df (fun t => t) plain_dot [1; 2] [3; 4] [0.5; 0.25]
              = Ret [9.5; 12.5]) by (vm_compute; reflexivity).
  split; [exact H|].
  exact (gradient_has_the_length_of_x (fun t => t) plain_dot [1; 2] [3; 4]
           [0.5; 0.25] [9.5; 12.5] H).
Defined.

Lemma objective_rejects_other_lengths_witness :
  (length [0.5] <> length [1; 2] \/ length [0.5] <> length [3; 4]) /\
  Objective.f (fun t => t) plain_dot [1; 2] [3; 4] [0.5] = Raise ValueError /\
  Objective.df (fun t => t) plain_dot [1; 2] [3; 4] [0.5] = Raise ValueError.
Proof.
  assert (H : length [0.5] <> length [1; 2] \/ length [0.5] <> length [3; 4])
    by (left; discriminate).
  split; [exact H|].
  exact (objective_rejects_other_lengths (fun t => t) (fun t => t) plain_dot
           [1; 2] [3; 4] [0.5] H).
Defined.
